(** * Prediction sets of the loop-modeling benchmark analysis

    A shallow embedding of the classes [LoopPrediction] and
    [LoopPredictionSet] of [analysis/analyze.py] (Python 2) and of
    [extract_analysis_data]: the reading of a case, its analysis and the
    medians over the cases. It is followed by the properties of the set
    operations, the two comparators and the statistics that the
    benchmark report is built from. What the script reads from files and
    what it prints and writes is left out.

    Modelling conventions.
    - A Python number (an [int] or a [float]) is the rational it denotes
      or the float [nan], which a score file can hold; [==], [<] and [<=]
      are the comparisons of [Q] on two rationals and false as soon as
      [nan] takes part.  [float(c) / float(n)] is the quotient in [Q].
      The two infinite floats, which are ordered with the other numbers
      as numbers are, are not represented.
    - A field that may hold [None] is an [option]; Python 2 orders [None]
      before every number.
    - A method is a computation in a state-and-exception monad whose
      state is [self]; a raised exception keeps the mutations made so far.
    - The built-ins the code calls ([list.sort], [slice.indices],
      [xrange], list indexing and slicing, [sorted]) are modelled by
      functions of the same name with their CPython 2 behaviour.
    - A record is a value; within one set the ids tell records apart. *)

From Stdlib Require Import ZArith QArith Lqa.
From stdpp Require Import gmap strings list sorting.

Open Scope Z_scope.

(** A decidable proposition on closed data, decided by evaluation. *)
Ltac decide_it := apply (bool_decide_unpack _); vm_compute; exact I.

(** ** Exceptions and the monads *)

Inductive index_error_message :=
  | SetIndexMessage (len key : Z)   (* 'The set only contains {0} items ...' *)
  | ListIndexOutOfRange.            (* raised by the built-in list *)

Inductive exn :=
  | AssertionError
  | Exception_ (msg : string)
  | IndexError (msg : index_error_message)
  | KeyError (key : Z)
  | TypeError (msg : string)
  | ValueError (msg : string)
  | ZeroDivisionError
  | SystemExit (code : Z).

Inductive result (A : Type) :=
  | Ok (a : A)
  | Raise (e : exn).
Arguments Ok {A} a.
Arguments Raise {A} e.

#[global] Instance result_ret : MRet result := @Ok.
#[global] Instance result_bind : MBind result := λ A B f r,
  match r with
  | Ok a => f a
  | Raise e => Raise e
  end.

Definition assert (b : bool) : result unit :=
  if b then Ok tt else Raise AssertionError.

(** A computation over a mutable object of type [St]. *)
Definition M (St A : Type) : Type := St → result A * St.

#[global] Instance M_ret {St} : MRet (M St) := λ A a s, (Ok a, s).
#[global] Instance M_bind {St} : MBind (M St) := λ A B f m s,
  match m s with
  | (Ok a, s') => f a s'
  | (Raise e, s') => (Raise e, s')
  end.

Definition lift {St A} (r : result A) : M St A := λ s, (r, s).
Definition read {St A} (f : St → A) : M St A := λ s, (Ok (f s), s).
Definition write {St} (f : St → St) : M St unit := λ s, (Ok tt, f s).
Definition raise {St A} (e : exn) : M St A := lift (Raise e).

Fixpoint for_each {St A} (body : A → M St unit) (l : list A) : M St unit :=
  match l with
  | [] => mret tt
  | x :: l' => body x ;; for_each body l'
  end.

(** A loop over a list whose body also knows the position of its
    element. *)
Fixpoint for_each_at {St A} (body : nat → A → M St unit) (k : nat) (l : list A)
    : M St unit :=
  match l with
  | [] => mret tt
  | x :: l' => body k x ;; for_each_at body (S k) l'
  end.

Fixpoint map_result {A B} (f : A → result B) (l : list A) : result (list B) :=
  match l with
  | [] => Ok []
  | x :: l' => y ← f x; ys ← map_result f l'; Ok (y :: ys)
  end.

(** ** Numbers *)

Definition Qlt_bool (a b : Q) : bool := (Qnum a * QDen b <? Qnum b * QDen a)%Z.

(** The value of an [int] or of a [float]: a rational, or [nan]
    ([float('nan')], which [float] also reads from the text of a score
    file). A rational is used as a number without further notice, also
    under [Some]. *)
Inductive number :=
  | Num (q : Q)
  | NaN.

Coercion Num : Q >-> number.
Bind Scope Q_scope with number.
#[local] Arguments Some {A} & a.

(** [a == b], [a < b] and [a <= b] on two numbers. With [nan] on either
    side the three are false, so that [a != b], the negation of the
    first, is true. *)
Definition num_eqb (a b : number) : bool :=
  match a, b with
  | Num x, Num y => Qeq_bool x y
  | _, _ => false
  end.

Definition num_ltb (a b : number) : bool :=
  match a, b with
  | Num x, Num y => Qlt_bool x y
  | _, _ => false
  end.

Definition num_leb (a b : number) : bool :=
  match a, b with
  | Num x, Num y => Qle_bool x y
  | _, _ => false
  end.

(** Comparison of two values each of which is a number or [None]
    (CPython 2: [None] is smaller than any number, [nan] included, and
    equal to itself). *)
Definition py_eq (a b : option number) : bool :=
  match a, b with
  | None, None => true
  | Some x, Some y => num_eqb x y
  | _, _ => false
  end.

Definition py_lt (a b : option number) : bool :=
  match a, b with
  | None, Some _ => true
  | Some x, Some y => num_ltb x y
  | _, None => false
  end.

Definition py_le (a b : option number) : bool :=
  match a, b with
  | None, _ => true
  | Some x, Some y => num_leb x y
  | Some _, None => false
  end.

(** ** Built-in sequences *)

Record slice := { start : option Z; stop : option Z; step : option Z }.

(** [slice.indices(len)] *)
Definition slice_indices (k : slice) (len : Z) : result (Z * Z * Z) :=
  let st := default 1 (step k) in
  if st =? 0 then Raise (ValueError "slice step cannot be zero") else
  let defstart := if st <? 0 then len - 1 else 0 in
  let defstop := if st <? 0 then -1 else len in
  let clip (i : Z) :=
    let i := if i <? 0 then i + len else i in
    let i := if i <? 0 then (if st <? 0 then -1 else 0) else i in
    if i >=? len then (if st <? 0 then len - 1 else len) else i in
  let s := match start k with None => defstart | Some i => clip i end in
  let e := match stop k with None => defstop | Some i => clip i end in
  Ok (s, e, st).

(** [xrange(start, stop, step)] for a non-zero step *)
Definition xrange (s e st : Z) : list Z :=
  let n :=
    if 0 <? st then (if s <? e then (e - s - 1) / st + 1 else 0)
    else (if e <? s then (s - e - 1) / (- st) + 1 else 0) in
  (λ i : nat, s + Z.of_nat i * st) <$> seq 0 (Z.to_nat n).

(** [l[i]] on a built-in list *)
Definition list_getitem {A} (l : list A) (i : Z) : result A :=
  let len := Z.of_nat (length l) in
  let j := if i <? 0 then i + len else i in
  if (j <? 0) || (j >=? len) then Raise (IndexError ListIndexOutOfRange)
  else match l !! Z.to_nat j with
       | Some x => Ok x
       | None => Raise (IndexError ListIndexOutOfRange)
       end.

(** The list of the [l[ii]] for [ii] in the [xrange] of
    [k.indices(len(l))], which is also what the built-in slicing [l[k]]
    evaluates to. *)
Definition list_getslice {A} (l : list A) (k : slice) : result (list A) :=
  '(s, e, st) ← slice_indices k (Z.of_nat (length l));
  map_result (list_getitem l) (xrange s e st).

(** [list.sort(cmp = f)], as CPython sorts a list of fewer than 64
    items: it looks for the run at the head of the list ([count_run]),
    reverses it when it descends, and inserts the items after the run
    one by one at the place that a binary search finds ([binarysort]).
    An item is less than another when [f] answers a negative number for
    the two. The comparator may raise. A list of 64 items or more is
    sorted by CPython in stretches of 32 to 64 items that it merges; it
    ends up as it does here whenever the comparator is a consistent
    order, which the two comparators below are as long as no score and
    no deviation is [nan]. *)

(** [x < y] in the eyes of the sort *)
Definition islt {A} (f : A → A → result Z) (x y : A) : result bool :=
  c ← f x y; Ok (c <? 0).

(** The items of [l] that go on the run whose last item is [prev]: each
    is less than the item before it when the run descends, and not less
    than it otherwise. The result is these items and the rest of [l]. *)
Fixpoint run_after {A} (f : A → A → result Z) (descending : bool) (prev : A)
    (l : list A) : result (list A * list A) :=
  match l with
  | [] => Ok ([], [])
  | x :: l' =>
      less ← islt f x prev;
      if Bool.eqb less descending then
        '(run, rest) ← run_after f descending x l'; Ok (x :: run, rest)
      else Ok ([], l)
  end.

(** The run at the head of [l], reversed when it descends, and the
    items after it. *)
Definition count_run {A} (f : A → A → result Z) (l : list A)
    : result (list A * list A) :=
  match l with
  | x :: y :: l' =>
      descending ← islt f y x;
      '(run, rest) ← run_after f descending y l';
      Ok (if descending : bool then reverse (x :: y :: run) else x :: y :: run,
          rest)
  | _ => Ok (l, [])
  end.

(** The place of [pivot] among the items [l] to [r] of [sorted], by
    bisection. The fuel bounds the number of halvings; any number from
    [r - l] on is enough. *)
Fixpoint bisect {A} (f : A → A → result Z) (pivot : A) (sorted : list A)
    (l r : nat) (fuel : nat) : result nat :=
  match fuel with
  | O => Ok l
  | S fuel' =>
      if (l <? r)%nat then
        let p := (l + (r - l) / 2)%nat in
        match sorted !! p with
        | Some y =>
            less ← islt f pivot y;
            if less : bool then bisect f pivot sorted l p fuel'
            else bisect f pivot sorted (S p) r fuel'
        | None => Ok l
        end
      else Ok l
  end.

Fixpoint binarysort {A} (f : A → A → result Z) (sorted rest : list A)
    : result (list A) :=
  match rest with
  | [] => Ok sorted
  | pivot :: rest' =>
      l ← bisect f pivot sorted 0 (length sorted) (length sorted);
      binarysort f (take l sorted ++ pivot :: drop l sorted) rest'
  end.

Definition list_sort {A} (f : A → A → result Z) (l : list A) : result (list A) :=
  '(run, rest) ← count_run f l;
  binarysort f run rest.

(** [sorted(l)] on a list of integers *)
Definition sorted (l : list Z) : list Z := merge_sort Z.le l.

(** [sorted(l)] on a list of floats and on a list of strings *)
#[global] Instance Qle_rel_dec : RelDecision Qle.
Proof. intros x y. destruct (Qlt_le_dec y x); [right; lra|left; done]. Defined.
#[global] Instance Qlt_rel_dec : RelDecision Qlt.
Proof. intros x y. destruct (Qlt_le_dec x y); [left; done|right; lra]. Defined.

Definition sorted_floats (l : list Q) : list Q := merge_sort Qle l.

Definition string_le (a b : string) : Prop := String.leb a b = true.

#[global] Instance string_le_dec : RelDecision string_le.
Proof. intros a b. unfold string_le. apply _. Defined.

Definition sorted_strings (l : list string) : list string := merge_sort string_le l.

(** ** Built-in string methods *)

(** [c.isalpha()], [c.isdigit()] and [c.isspace()] for a character of a
    byte string, in the C locale that the interpreter starts in. *)
Definition isalpha (c : Ascii.ascii) : bool :=
  let n := Ascii.N_of_ascii c in
  ((65 <=? n) && (n <=? 90) || (97 <=? n) && (n <=? 122))%N.

Definition isdigit (c : Ascii.ascii) : bool :=
  let n := Ascii.N_of_ascii c in ((48 <=? n) && (n <=? 57))%N.

Definition isspace (c : Ascii.ascii) : bool :=
  let n := Ascii.N_of_ascii c in ((n =? 32) || (9 <=? n) && (n <=? 13))%N.

(** [s.lstrip()] and [s.strip()] on the list of the characters *)
Fixpoint lstrip (l : list Ascii.ascii) : list Ascii.ascii :=
  match l with
  | [] => []
  | c :: l' => if isspace c then lstrip l' else l
  end.

Definition strip (l : list Ascii.ascii) : list Ascii.ascii :=
  reverse (lstrip (reverse (lstrip l))).

(** ** class LoopPrediction *)

(** The pandas dataframe of the loop residues: X, Y, Z coordinates
    indexed by residue atom. The analysis only hands it to the RMSD
    function. *)
Definition residue_matrix : Type := list (string * (Q * Q * Q)).

Record LoopPrediction := {
  id : Z;
  score : number;
  pdb_id : option string;
  rmsd : option number;
  pdb_path : option string;
  pdb_loop_residue_matrix : option residue_matrix
}.

#[global] Instance Q_eq_dec : EqDecision Q.
Proof. solve_decision. Defined.
#[global] Instance number_eq_dec : EqDecision number.
Proof. solve_decision. Defined.
#[global] Instance LoopPrediction_eq_dec : EqDecision LoopPrediction.
Proof. solve_decision. Defined.

(** The objects that meet in an [==] or [in] test of the set code: an
    id, or a prediction. [LoopPrediction] defines no [__eq__], so a
    prediction equals only itself and never an id. *)
Inductive pyobj :=
  | PyInt (z : Z)
  | PyLoopPrediction (lp : LoopPrediction).

Definition obj_eq (a b : pyobj) : bool :=
  match a, b with
  | PyInt x, PyInt y => x =? y
  | PyLoopPrediction p, PyLoopPrediction q => bool_decide (p = q)
  | _, _ => false
  end.

(** [x in l] *)
Definition obj_in (x : pyobj) (l : list pyobj) : bool := existsb (obj_eq x) l.

(** One entry of the list that a data extraction method returns: a dict
    with the keys id, score, predicted_structure and
    pdb_loop_residue_matrix. *)
Module details.
Record t := {
  id : Z;
  score : number;
  predicted_structure : string;
  pdb_loop_residue_matrix : residue_matrix
}.
End details.

Section Analysis.

(** [os.path.exists], fixed for the duration of the analysis. *)
Variable os_path_exists : string → bool.

(** Truth value of an optional number and of an optional string:
    [None], zero and the empty string are false. *)
Definition number_truth (r : option number) : bool :=
  match r with
  | None => false
  | Some q => negb (num_eqb q 0)
  end.

Definition string_truth (p : option string) : bool :=
  match p with
  | None => false
  | Some p => negb (String.eqb p "")
  end.

(** [_check_types]. [score] and [rmsd] are numbers by their type here,
    [nan] being a [float], so what is left of the two [isinstance]
    assertions always holds; the assertion on the path is the one that
    can fail. *)
Definition _check_types (self : LoopPrediction) : result unit :=
  assert true;;
  (if number_truth (rmsd self) then assert true else Ok tt);;
  (if string_truth (pdb_path self)
   then assert (os_path_exists (default "" (pdb_path self)))
   else Ok tt).

(** [LoopPrediction.__init__] *)
Definition LoopPrediction_init (id : Z) (score : number) (pdb_id : option string)
    (rmsd : option number) (pdb_path : option string)
    (pdb_loop_residue_matrix : option residue_matrix) : result LoopPrediction :=
  let self := {| id := id; score := score; pdb_id := pdb_id; rmsd := rmsd;
                 pdb_path := pdb_path;
                 pdb_loop_residue_matrix := pdb_loop_residue_matrix |} in
  _check_types self;;
  Ok self.

(** The static comparators handed to [list.sort]. *)
Definition LoopPrediction_sort_by_score (a b : LoopPrediction) : result Z :=
  assert (negb (id a =? id b));;
  _check_types a;;
  _check_types b;;
  if negb (num_eqb (score a) (score b)) then
    if num_ltb (score a) (score b) then Ok (-1) else Ok 1
  else if negb (py_eq (rmsd a) (rmsd b)) then
    if py_lt (rmsd a) (rmsd b) then Ok (-1) else Ok 1
  else
    if id a <? id b then Ok (-1) else Ok 1.

Definition LoopPrediction_sort_by_rmsd (a b : LoopPrediction) : result Z :=
  assert (negb (id a =? id b));;
  _check_types a;;
  _check_types b;;
  if negb (py_eq (rmsd a) (rmsd b)) then
    if py_lt (rmsd a) (rmsd b) then Ok (-1) else Ok 1
  else if negb (num_eqb (score a) (score b)) then
    if num_ltb (score a) (score b) then Ok (-1) else Ok 1
  else
    if id a <? id b then Ok (-1) else Ok 1.

(** What [LoopPrediction.__repr__] can raise; the text it builds is
    only printed. *)
Definition LoopPrediction_repr (self : LoopPrediction) : result unit :=
  _check_types self.

(** ** class LoopPredictionSet *)

Record LoopPredictionSet := {
  loop_predictions : list LoopPrediction;
  loop_prediction_map : gmap Z LoopPrediction
}.

Definition LoopPredictionSet_init : LoopPredictionSet :=
  {| loop_predictions := []; loop_prediction_map := ∅ |}.

Definition set_loop_predictions (l : list LoopPrediction) : M LoopPredictionSet unit :=
  write (λ self, {| loop_predictions := l;
                    loop_prediction_map := loop_prediction_map self |}).

Definition set_loop_prediction_map (m : gmap Z LoopPrediction) : M LoopPredictionSet unit :=
  write (λ self, {| loop_predictions := loop_predictions self;
                    loop_prediction_map := m |}).

(** [self.loop_predictions.append(lp)] followed by
    [self.loop_prediction_map[i] = lp] *)
Definition append_and_map (i : Z) (lp : LoopPrediction) : M LoopPredictionSet unit :=
  l ← read loop_predictions;
  set_loop_predictions (l ++ [lp]);;
  m ← read loop_prediction_map;
  set_loop_prediction_map (<[i := lp]> m).

(** [assert(i not in self.loop_predictions)]: the id is looked for in
    the list of predictions. *)
Definition assert_id_not_in_loop_predictions (i : Z) : M LoopPredictionSet unit :=
  l ← read loop_predictions;
  lift (assert (negb (obj_in (PyInt i) (PyLoopPrediction <$> l)))).

Definition from_list (l : list LoopPrediction) : result LoopPredictionSet :=
  let '(r, lps) :=
    for_each (λ loop_prediction,
                assert_id_not_in_loop_predictions (id loop_prediction);;
                append_and_map (id loop_prediction) loop_prediction)
             l LoopPredictionSet_init in
  r;; Ok lps.

Definition add (i : Z) (sc : number) (pdb_id : option string) (rmsd : option number)
    (pdb_path : option string) (pdb_loop_residue_matrix : option residue_matrix)
    : M LoopPredictionSet LoopPrediction :=
  assert_id_not_in_loop_predictions i;;
  lp ← lift (LoopPrediction_init i sc pdb_id rmsd pdb_path pdb_loop_residue_matrix);
  append_and_map i lp;;
  mret lp.

(** [del self.loop_prediction_map[i]] *)
Definition del_loop_prediction_map (i : Z) : M LoopPredictionSet unit :=
  m ← read loop_prediction_map;
  match m !! i with
  | None => raise (KeyError i)
  | Some _ => set_loop_prediction_map (delete i m)
  end.

Definition truncate (n : Z) : M LoopPredictionSet unit :=
  l ← read loop_predictions;
  lps_to_delete ← lift (list_getslice l {| start := Some n; stop := None; step := None |});
  for_each (λ lp, del_loop_prediction_map (id lp)) lps_to_delete;;
  l ← read loop_predictions;
  kept ← lift (list_getslice l {| start := None; stop := Some n; step := None |});
  set_loop_predictions kept;;
  l ← read loop_predictions;
  m ← read loop_prediction_map;
  lift (assert (bool_decide (sorted (id <$> l) = sorted ((map_to_list m).*1)))).

(** [get]: [None] is Python's [None]. *)
Definition get (i : Z) : M LoopPredictionSet (option LoopPrediction) :=
  m ← read loop_prediction_map;
  mret (m !! i).

(** The two in-place sorts. When the comparator raises, the model
    leaves the list as it was. *)
Definition sort_by_rmsd : M LoopPredictionSet unit :=
  l ← read loop_predictions;
  l' ← lift (list_sort LoopPrediction_sort_by_rmsd l);
  set_loop_predictions l'.

Definition sort_by_score : M LoopPredictionSet unit :=
  l ← read loop_predictions;
  l' ← lift (list_sort LoopPrediction_sort_by_score l);
  set_loop_predictions l'.

(** [compute_rmsd_by_matrix] of klab.pymath.cartesian.rmsd, which the
    script imports: the deviation between a reference matrix and the
    matrix of a prediction, or an exception. The deviation is a
    rational: from the coordinates of two matrices, which are
    rationals, the function has no [nan] to return. *)
Variable compute_rmsd_by_matrix : residue_matrix → residue_matrix → result Q.

(** The record [lp] after [lp.rmsd = r]. *)
Definition set_rmsd (lp : LoopPrediction) (r : option number) : LoopPrediction :=
  {| id := id lp; score := score lp; pdb_id := pdb_id lp; rmsd := r;
     pdb_path := pdb_path lp;
     pdb_loop_residue_matrix := pdb_loop_residue_matrix lp |}.

(** [lp.rmsd = r] for the record [lp] met at position [k] of the
    sequence. The record is one object, shared by the sequence and the
    mapping, so the entry of the mapping that holds it shows the new
    value as well. Records are told apart by their fields, as in
    [obj_eq]; on a set with unique ids that is the identity of the
    objects. A set sliced from this one holds the same objects too; the
    analysis takes its slices after the deviations are computed, and
    the state of the model is the one set. *)
Definition assign_rmsd (k : nat) (lp : LoopPrediction) (r : Q)
    : M LoopPredictionSet unit :=
  l ← read loop_predictions;
  set_loop_predictions (<[k := set_rmsd lp (Some (Num r))]> l);;
  m ← read loop_prediction_map;
  set_loop_prediction_map
    ((λ x, if bool_decide (x = lp) then set_rmsd lp (Some (Num r)) else x) <$> m).

(** The body of the loop of [compute_rmsds], for the record [lp] met at
    position [k]. *)
Definition compute_rmsd (reference_pdb_residue_matrix : residue_matrix)
    (k : nat) (lp : LoopPrediction) : M LoopPredictionSet unit :=
  match pdb_loop_residue_matrix lp with
  | None => raise AssertionError
  | Some matrix =>
      r ← lift (compute_rmsd_by_matrix reference_pdb_residue_matrix matrix);
      assign_rmsd k lp r
  end.

Definition compute_rmsds (reference_pdb_residue_matrix : residue_matrix)
    : M LoopPredictionSet unit :=
  l ← read loop_predictions;
  for_each_at (compute_rmsd reference_pdb_residue_matrix) 0 l.

(** The two assertions of [check_rmsds] on one record. *)
Definition check_rmsd (reference_pdb_residue_matrix : residue_matrix)
    (lp : LoopPrediction) : result unit :=
  match pdb_loop_residue_matrix lp with
  | None => Raise AssertionError
  | Some matrix =>
      assert (negb (py_eq (rmsd lp) None));;
      r ← compute_rmsd_by_matrix reference_pdb_residue_matrix matrix;
      assert (py_eq (rmsd lp) (Some (Num r)))
  end.

Definition check_rmsds (reference_pdb_residue_matrix : residue_matrix)
    : M LoopPredictionSet unit :=
  l ← read loop_predictions;
  for_each (λ lp, lift (check_rmsd reference_pdb_residue_matrix lp)) l.

Definition missing_rmsd_message : string :=
  "Error: Some of the loop predictions are missing RMSD values.".

(** The loop of [fraction_with_rmsd_lt], from the counter [c]. *)
Fixpoint count_rmsd_lt (x : Q) (allow_failure strict : bool)
    (l : list LoopPrediction) (c : Z) : result Z :=
  match l with
  | [] => Ok c
  | loop_prediction :: l' =>
      if py_eq (rmsd loop_prediction) None && negb allow_failure then
        Raise (Exception_ missing_rmsd_message)
      else if (strict && py_lt (rmsd loop_prediction) (Some x))
              || (negb strict && py_le (rmsd loop_prediction) (Some x)) then
        count_rmsd_lt x allow_failure strict l' (c + 1)
      else
        count_rmsd_lt x allow_failure strict l' c
  end.

(** [float(c) / float(n)] *)
Definition float_div (c n : Z) : result Q :=
  if n =? 0 then Raise ZeroDivisionError else Ok (inject_Z c / inject_Z n)%Q.

Definition fraction_with_rmsd_lt (x : Q) (allow_failure strict : bool)
    : M LoopPredictionSet Q :=
  l ← read loop_predictions;
  c ← lift (count_rmsd_lt x allow_failure strict l 0);
  l ← read loop_predictions;
  lift (float_div c (Z.of_nat (length l))).

Definition len : M LoopPredictionSet Z :=
  l ← read loop_predictions;
  mret (Z.of_nat (length l)).

(** [__getitem__]: the branch of a slice, the branch of an [int], and
    the method itself, whose result is a set or a prediction. *)
Inductive key :=
  | KSlice (k : slice)
  | KInt (i : Z)
  | KOther.

Inductive item :=
  | ItemSet (s : LoopPredictionSet)
  | ItemPrediction (lp : LoopPrediction).

Definition getitem_slice (k : slice) : M LoopPredictionSet LoopPredictionSet :=
  n ← len;
  '(s, e, st) ← lift (slice_indices k n);
  l ← read loop_predictions;
  picked ← lift (map_result (list_getitem l) (xrange s e st));
  lift (from_list picked).

Definition getitem_int (i : Z) : M LoopPredictionSet LoopPrediction :=
  l ← read loop_predictions;
  if i >=? Z.of_nat (length l) then
    raise (IndexError (SetIndexMessage (Z.of_nat (length l)) i))
  else
    lift (list_getitem l i).

Definition getitem (k : key) : M LoopPredictionSet item :=
  match k with
  | KSlice k => s ← getitem_slice k; mret (ItemSet s)
  | KInt i => lp ← getitem_int i; mret (ItemPrediction lp)
  | KOther => raise (TypeError "Invalid argument type.")
  end.

(** What [LoopPredictionSet.__repr__] can raise. *)
Definition LoopPredictionSet_repr : M LoopPredictionSet unit :=
  l ← read loop_predictions;
  lift (map_result LoopPrediction_repr l);;
  mret tt.

(** ** The per-case analysis of [extract_analysis_data] *)

(** A method call on a set other than [self]. Only methods that leave
    their object as it was are called this way. *)
Definition on {A} (obj : LoopPredictionSet) (m : M LoopPredictionSet A)
    : M LoopPredictionSet A :=
  lift (m obj).1.

Fixpoint map_M {St A B} (f : A → M St B) (l : list A) : M St (list B) :=
  match l with
  | [] => mret []
  | x :: l' => y ← f x; ys ← map_M f l'; mret (y :: ys)
  end.

(** The linear scan for the TopX metrics, from the running best pair. *)
Fixpoint top_x_scan (l : list LoopPrediction) (top_x_rmsd : option number)
    (top_x_score : number) : option number * number :=
  match l with
  | [] => (top_x_rmsd, top_x_score)
  | s :: l' =>
      if py_lt (rmsd s) top_x_rmsd
         || (py_eq (rmsd s) top_x_rmsd && num_ltb (score s) top_x_score)
      then top_x_scan l' (rmsd s) (score s)
      else top_x_scan l' top_x_rmsd top_x_score
  end.

(** What the analysis keeps of one benchmark case. *)
Record case_analysis := {
  top_x_loop_prediction_set : LoopPredictionSet;
  median_scoring_structure : LoopPrediction;
  best_scoring_structure : LoopPrediction;
  worst_scoring_structure : LoopPrediction;
  percent_subangstrom_by_top_x : list (Z * Q);
  total_percent_subangstrom : Q;
  top_x_percent_subangstrom : Q;
  closest_rmsd : option number;
  closest_score : number;
  top_1_rmsd : option number;
  top_x_rmsd : option number;
  top_x_score : number
}.

(** The body of the loop over the benchmark cases, from the first sort
    on, in four steps; [self] is the case's [loop_prediction_set] after
    the RMSDs have been computed. The colored messages are left out; a
    [print] of a prediction or of a set is kept for what its [__repr__]
    can raise. *)

(** Truncation to the top [expectn]-scoring predictions, the TopX set
    and the median, best and worst scoring predictions. *)
Definition select_structures (expectn top_x : Z)
    : M LoopPredictionSet
        (LoopPredictionSet * LoopPrediction * LoopPrediction * LoopPrediction) :=
  sort_by_score;;
  truncate expectn;;
  n ← len;
  (if negb (n =? expectn) then raise (SystemExit 1) else mret tt);;
  top_x_set ← getitem_slice {| start := None; stop := Some top_x; step := None |};
  median ← getitem_int (expectn / 2);
  best ← getitem_int 0;
  worst ← getitem_int (-1);
  first ← on top_x_set (getitem_int 0);
  lift (assert (obj_eq (PyLoopPrediction first) (PyLoopPrediction best)));;
  on top_x_set LoopPredictionSet_repr;;
  lift (LoopPrediction_repr best);;
  lift (LoopPrediction_repr median);;
  lift (LoopPrediction_repr worst);;
  mret (top_x_set, median, best, worst).

(** The values for the TopX variable plot and the two percentages. *)
Definition subangstrom_percentages (top_x_set : LoopPredictionSet)
    : M LoopPredictionSet (list (Z * Q) * Q * Q) :=
  sort_by_score;;
  n ← len;
  by_top_x ← map_M (λ top_x_var,
      new_subset ← getitem_slice {| start := None; stop := Some top_x_var; step := None |};
      fraction ← on new_subset (fraction_with_rmsd_lt 1 false true);
      mret (top_x_var, (100 * fraction)%Q))
    (xrange 1 (n + 1) 1);
  total ← fraction_with_rmsd_lt 1 false true;
  top_x_fraction ← on top_x_set (fraction_with_rmsd_lt 1 false true);
  mret (by_top_x, (100 * total)%Q, (100 * top_x_fraction)%Q).

(** The closest model: its RMSD and its score. *)
Definition closest_model : M LoopPredictionSet (option number * number) :=
  sort_by_rmsd;;
  closest ← getitem_int 0;
  closest' ← getitem_int 0;
  mret (rmsd closest, score closest').

(** The TopX RMSD and score, with the two closing assertions. *)
Definition top_x_metrics (best : LoopPrediction) (worst_score : number)
    (top_x_set : LoopPredictionSet) : result (option number * number) :=
  let top_1_rmsd := rmsd best in
  let '(top_x_rmsd, top_x_score) :=
    top_x_scan (loop_predictions top_x_set) (rmsd best) (score best) in
  assert (num_leb top_x_score worst_score);;
  assert (py_le top_x_rmsd top_1_rmsd);;
  Ok (top_x_rmsd, top_x_score).

Definition analyze_case (expectn top_x : Z) : M LoopPredictionSet case_analysis :=
  '(top_x_set, median, best, worst) ← select_structures expectn top_x;
  '(by_top_x, total_percent, top_x_percent) ← subangstrom_percentages top_x_set;
  '(closest_rmsd, closest_score) ← closest_model;
  '(top_x_rmsd, top_x_score) ← lift (top_x_metrics best (score worst) top_x_set);
  mret {| top_x_loop_prediction_set := top_x_set;
          median_scoring_structure := median;
          best_scoring_structure := best;
          worst_scoring_structure := worst;
          percent_subangstrom_by_top_x := by_top_x;
          total_percent_subangstrom := total_percent;
          top_x_percent_subangstrom := top_x_percent;
          closest_rmsd := closest_rmsd;
          closest_score := closest_score;
          top_1_rmsd := rmsd best;
          top_x_rmsd := top_x_rmsd;
          top_x_score := top_x_score |}.

(** The sanity check at the head of [extract_analysis_data] and the
    analysis of each case, for the sets read in for the cases. *)
Definition extract_analysis_data (expectn top_x : Z)
    (cases : list LoopPredictionSet) : result (list case_analysis) :=
  assert (top_x <=? expectn);;
  map_result (λ loop_prediction_set, (analyze_case expectn top_x loop_prediction_set).1) cases.

(** The loop that adds the run details of a case to its set. *)
Definition add_details (pdb_id : string) (details : list details.t)
    : M LoopPredictionSet unit :=
  for_each (λ d,
      add (details.id d) (details.score d) (Some pdb_id) None
          (Some (details.predicted_structure d))
          (Some (details.pdb_loop_residue_matrix d));;
      mret tt) details.

(** The head of the loop body over the benchmark cases: the run
    details are added one by one, the deviations are computed against
    the RCSB reference and checked against the Rosetta reference. *)
Definition read_case (pdb_id : string) (details : list details.t)
    (rcsb_reference_matrix rosetta_reference_matrix : residue_matrix)
    : M LoopPredictionSet unit :=
  add_details pdb_id details;;
  compute_rmsds rcsb_reference_matrix;;
  check_rmsds rosetta_reference_matrix.

(** One benchmark case, from the new, empty set to its analysis. *)
Definition analyze_run (pdb_id : string) (details : list details.t)
    (rcsb_reference_matrix rosetta_reference_matrix : residue_matrix)
    (expectn top_x : Z) : result case_analysis * LoopPredictionSet :=
  (read_case pdb_id details rcsb_reference_matrix rosetta_reference_matrix;;
   analyze_case expectn top_x) LoopPredictionSet_init.

(** ** The medians over the cases *)

(** [percent_subangrom_by_top_x] holds, for each X, a dict from the
    name of a case to its percentage. The two statements that record
    the percentage of the case [pdb_id] for one X: *)
Definition store_percentage (pdb_id : string) (d : gmap Z (gmap string Q))
    (entry : Z * Q) : gmap Z (gmap string Q) :=
  let '(top_x_var, percent_subangstrom) := entry in
  let d := <[top_x_var := default ∅ (d !! top_x_var)]> d in
  <[top_x_var := <[pdb_id := percent_subangstrom]> (default ∅ (d !! top_x_var))]> d.

(** The dict after the cases have recorded their values, one case
    after the other, each for X = 1, 2, ... in this order. *)
Definition record_percentages (pdb_ids : list string) (results : list case_analysis)
    : gmap Z (gmap string Q) :=
  foldl (λ d '(pdb_id, r),
           foldl (store_percentage pdb_id) d (percent_subangstrom_by_top_x r))
        ∅ (zip pdb_ids results).

(** The closing loop over the items of the dict in the order of X: the
    check that every case has recorded a value, and the median of the
    values, which are the lines of the plot input that start with
    'Median'. *)
Definition median_percentages (pdb_ids : list string) (d : gmap Z (gmap string Q))
    : result (list (Z * Q)) :=
  map_result (λ '(top_x_var, values_by_pdb),
      assert (bool_decide (sorted_strings (map_to_list values_by_pdb).*1
                           = sorted_strings pdb_ids));;
      median_value ← list_getitem (sorted_floats (map_to_list values_by_pdb).*2)
                                  (Z.of_nat (length pdb_ids) / 2);
      Ok (top_x_var, median_value))
    ((λ top_x_var, (top_x_var, default ∅ (d !! top_x_var)))
     <$> sorted (map_to_list d).*1).

(** ** The script *)

(** The options after [docopt] has parsed the command line. For the
    output directory the record holds whether the expanded path exists,
    and for the two numbers what [int] makes of the text of the option
    ([None] when [int] raises). *)
Record arguments := {
  output_directory_exists : bool;
  opt_expectn : option Z;
  opt_topx : option Z;
  opt_prefix : string;
  opt_data_extraction_method : string;
  opt_dataset : string;
  opt_test_mode : bool
}.

Definition data_extraction_methods : list string := ["KIC"].

Definition allowed_datasets : list (string * string) :=
  [("12_res", "../input/short_loops.pdbs");
   ("14_17_res", "../input/long_loops.pdbs")].

(** A character that the prefix keeps. *)
Definition prefix_character (c : Ascii.ascii) : bool :=
  isalpha c || isdigit c
  || bool_decide (c ∈ String.list_ascii_of_string " _-@#%^&()[]<>=+").

Definition sanitize_prefix (prefix : string) : string :=
  String.string_of_list_ascii
    (strip (List.filter prefix_character (String.list_ascii_of_string prefix))).

(** [int(text)] followed by the assertion that the number is
    positive, inside a [try] whose handler leaves with [sys.exit(1)]. *)
Definition positive_int (n : option Z) : result Z :=
  match n with
  | Some n => if 0 <? n then Ok n else Raise (SystemExit 1)
  | None => Raise (SystemExit 1)
  end.

(** The validation of the options. Every failure ends in
    [sys.exit(1)]: directly, or, for the empty prefix (whose message
    names an undefined variable) and for the dataset, through the
    handler of the enclosing [try]. The result is the dataset list
    file, [expectn], [topx], the prefix and the test mode. *)
Definition parse_arguments (a : arguments)
    : result (string * Z * Z * string * bool) :=
  (if output_directory_exists a then Ok tt else Raise (SystemExit 1));;
  expectn ← positive_int (opt_expectn a);
  topx ← positive_int (opt_topx a);
  let prefix := sanitize_prefix (opt_prefix a) in
  (if String.eqb prefix "" then Raise (SystemExit 1) else Ok tt);;
  (if bool_decide (opt_data_extraction_method a ∈ data_extraction_methods)
   then Ok tt else Raise (SystemExit 1));;
  dataset_list_file ←
    match list_find (λ entry, entry.1 = opt_dataset a) allowed_datasets with
    | Some (_, (_, file)) => Ok file
    | None => Raise (SystemExit 1)
    end;
  let expectn := if opt_test_mode a then 10 else expectn in
  Ok (dataset_list_file, expectn, topx, prefix, opt_test_mode a).

(** The script: the validation, then the analysis of the sets read in
    for the cases. *)
Definition main (a : arguments) (cases : list LoopPredictionSet)
    : result (list case_analysis) :=
  '(_, expectn, topx, _, _) ← parse_arguments a;
  extract_analysis_data expectn topx cases.

(** ** The invariants of a prediction set *)

(** A prediction that passes its own type check, as every prediction
    does when it is constructed. *)
Definition well_typed (lp : LoopPrediction) : Prop := _check_types lp = Ok tt.

Definition keyed (l : list LoopPrediction) : list (Z * LoopPrediction) :=
  (λ lp, (id lp, lp)) <$> l.

(** Unique ids, and a lookup mapping that holds exactly the records of
    the sequence under their ids. *)
Definition consistent (s : LoopPredictionSet) : Prop :=
  NoDup (id <$> loop_predictions s)
  ∧ loop_prediction_map s = list_to_map (keyed (loop_predictions s)).

(** A record none of whose numbers is [nan]. *)
Definition no_nan (lp : LoopPrediction) : Prop :=
  score lp ≠ NaN ∧ rmsd lp ≠ Some NaN.

(** The orders the comparators implement, as relations: on numbers the
    order of the rationals, to which [nan] is foreign. *)
Definition num_lt (a b : number) : Prop :=
  match a, b with
  | Num x, Num y => (x < y)%Q
  | _, _ => False
  end.

Definition num_eq (a b : number) : Prop :=
  match a, b with
  | Num x, Num y => (x == y)%Q
  | _, _ => False
  end.

Definition num_le (a b : number) : Prop := num_lt a b ∨ num_eq a b.

Definition rmsd_lt (a b : option number) : Prop :=
  match a, b with
  | None, Some _ => True
  | Some x, Some y => num_lt x y
  | _, None => False
  end.

Definition rmsd_eq (a b : option number) : Prop :=
  match a, b with
  | None, None => True
  | Some x, Some y => num_eq x y
  | _, _ => False
  end.

Definition rmsd_le (a b : option number) : Prop := rmsd_lt a b ∨ rmsd_eq a b.

Definition before_by_score (a b : LoopPrediction) : Prop :=
  num_lt (score a) (score b)
  ∨ num_eq (score a) (score b)
    ∧ (rmsd_lt (rmsd a) (rmsd b) ∨ rmsd_eq (rmsd a) (rmsd b) ∧ id a < id b).

Definition before_by_rmsd (a b : LoopPrediction) : Prop :=
  rmsd_lt (rmsd a) (rmsd b)
  ∨ rmsd_eq (rmsd a) (rmsd b)
    ∧ (num_lt (score a) (score b) ∨ num_eq (score a) (score b) ∧ id a < id b).

(** ** Notions used by the properties *)

(** A comparator [f] decides the order [R] on a pair. *)
Definition decides (f : LoopPrediction → LoopPrediction → result Z)
    (R : relation LoopPrediction) (a b : LoopPrediction) : Prop :=
  R a b ∧ f a b = Ok (-1) ∨ R b a ∧ f a b = Ok 1.

(** An in-place sort run on a given set. *)
Definition with_loop_predictions (l : list LoopPrediction) (s : LoopPredictionSet)
    : LoopPredictionSet :=
  {| loop_predictions := l; loop_prediction_map := loop_prediction_map s |}.

(** The mapping after the records of [l] have been stored one by one. *)
Definition store_all (m : gmap Z LoopPrediction) (l : list LoopPrediction)
    : gmap Z LoopPrediction :=
  foldl (λ m lp, <[id lp := lp]> m) m l.

(** A record whose deviation is present and below the threshold:
    strictly below, or below or equal when [strict] is off. *)
Definition deviation_below (x : Q) (strict : bool) (lp : LoopPrediction) : Prop :=
  ∃ d : Q, rmsd lp = Some (Num d) ∧ if strict then (d < x)%Q else (d <= x)%Q.

#[global] Instance deviation_below_dec x strict lp :
  Decision (deviation_below x strict lp).
Proof.
  unfold deviation_below. destruct (rmsd lp) as [[d|]|].
  - destruct strict.
    + destruct (Qlt_le_dec d x); [left; eauto|right].
      intros (d' & [= <-] & ?). lra.
    + destruct (Qlt_le_dec x d); [right|left; eauto].
      intros (d' & [= <-] & ?). lra.
  - right. by intros (d' & ? & _).
  - right. by intros (d' & ? & _).
Defined.

(** What the loop of [fraction_with_rmsd_lt] counts: a record without
    deviation passes the comparison with the threshold as well. *)
Definition counted (x : Q) (strict : bool) (lp : LoopPrediction) : Prop :=
  rmsd lp = None ∨ deviation_below x strict lp.

#[global] Instance counted_dec x strict lp : Decision (counted x strict lp).
Proof. unfold counted. apply _. Defined.


(** The state of a set whose sequence is [l], with the mapping that
    agrees with it. *)
Definition set_of (l : list LoopPrediction) : LoopPredictionSet :=
  {| loop_predictions := l; loop_prediction_map := list_to_map (keyed l) |}.

(** The set that a slice builds for the records [l]. *)
Definition slice_of (l : list LoopPrediction) : LoopPredictionSet :=
  {| loop_predictions := l; loop_prediction_map := store_all ∅ l |}.

(** The order of the scan on pairs of a deviation and a score. *)
Definition pair_le (p q : option number * number) : Prop :=
  rmsd_lt p.1 q.1 ∨ rmsd_eq p.1 q.1 ∧ num_le p.2 q.2.

(** The percentage of the records of [l] with a deviation below 1.0. *)
Definition percent_below (l : list LoopPrediction) : Q :=
  (100 * (inject_Z (Z.of_nat (length (filter (deviation_below 1 true) l)))
          / inject_Z (Z.of_nat (length l))))%Q.

(** A record with a matrix from which the deviation from the reference
    [ref] can be computed, and the record with that deviation. *)
Definition measurable (ref : residue_matrix) (lp : LoopPrediction) : Prop :=
  ∃ matrix r, pdb_loop_residue_matrix lp = Some matrix
              ∧ compute_rmsd_by_matrix ref matrix = Ok r.

Definition with_computed_rmsd (ref : residue_matrix) (lp : LoopPrediction)
    : LoopPrediction :=
  match pdb_loop_residue_matrix lp with
  | Some matrix =>
      match compute_rmsd_by_matrix ref matrix with
      | Ok r => set_rmsd lp (Some (Num r))
      | Raise _ => lp
      end
  | None => lp
  end.

(** A record that passes [check_rmsds]: it has a matrix and a
    deviation, and the deviation equals the one computed from [ref]. *)
Definition agrees (ref : residue_matrix) (lp : LoopPrediction) : Prop :=
  ∃ matrix r d, pdb_loop_residue_matrix lp = Some matrix
                ∧ compute_rmsd_by_matrix ref matrix = Ok r
                ∧ rmsd lp = Some (Num d) ∧ (d == r)%Q.

(** A record whose matrix has the same deviation from two references. *)
Definition same_deviation (ref1 ref2 : residue_matrix) (lp : LoopPrediction) : Prop :=
  ∃ matrix r1 r2, pdb_loop_residue_matrix lp = Some matrix
                  ∧ compute_rmsd_by_matrix ref1 matrix = Ok r1
                  ∧ compute_rmsd_by_matrix ref2 matrix = Ok r2
                  ∧ (r1 == r2)%Q.

(** The upper median of a list of values: one of the values, with at
    most half of the values below it and more than half of them below
    or equal to it. *)
Definition upper_median (m : Q) (vals : list Q) : Prop :=
  m ∈ vals
  ∧ (length (filter (λ v, (v < m)%Q) vals) ≤ length vals / 2)%nat
  ∧ (length vals / 2 < length (filter (λ v, (v <= m)%Q) vals))%nat.

(** What the cases have recorded for the X = [k]: the name of each
    case with a value for [k], and that value, in the order of the
    cases. *)
Definition entries_at (k : Z) (cases : list (string * case_analysis))
    : list (string * Q) :=
  omap (λ '(pdb_id, r),
          (λ v, (pdb_id, v))
          <$> (list_to_map (percent_subangstrom_by_top_x r) : gmap Z Q) !! k)
       cases.

(** The record that [add] builds for an entry of the run details. *)
Definition prediction_of (pdb_id : string) (d : details.t) : LoopPrediction :=
  {| id := details.id d; score := details.score d; pdb_id := Some pdb_id;
     rmsd := None; pdb_path := Some (details.predicted_structure d);
     pdb_loop_residue_matrix := Some (details.pdb_loop_residue_matrix d) |}.

(** ** Example data *)

Definition all_paths_exist : string → bool := λ _, true.

Definition prediction (i : Z) (sc : number) (r : option number) : LoopPrediction :=
  {| id := i; score := sc; pdb_id := None; rmsd := r; pdb_path := None;
     pdb_loop_residue_matrix := None |}.

(** Four records with deviations 0.5, 1.0, 1.5 and 0.9. *)
Definition four_records : LoopPredictionSet :=
  set_of [prediction 1 1 (Some 0.5%Q); prediction 2 1 (Some 1.0%Q);
          prediction 3 1 (Some 1.5%Q); prediction 4 1 (Some 0.9%Q)].

(** Ten records with scores 10 down to 1 in insertion order; of the
    three best scoring ones (ids 10, 9, 8) the third has the lowest
    deviation. *)
Definition ten_records : LoopPredictionSet :=
  set_of ((λ i, prediction i (inject_Z (11 - i))
                  (Some (inject_Z (if i =? 8 then 1 else i) / 2)%Q))
          <$> seqZ 1 10).

Definition one_record_without_rmsd : LoopPredictionSet :=
  set_of [prediction 1 1 None].

(** Three records with a deviation, the first with the score [nan]
    (what [float] makes of the text nan in a score file), and a record
    whose deviation is [nan]. *)
Definition with_nan_score : LoopPrediction := prediction 1 NaN (Some 2%Q).

Definition with_score_1 : LoopPrediction := prediction 2 1 (Some 1%Q).

Definition with_score_0 : LoopPrediction := prediction 3 0 (Some 3%Q).


(** An RMSD function for the examples: the squared distance of the
    first X coordinates. *)
Definition example_rmsd (ref m : residue_matrix) : result Q :=
  match ref, m with
  | (_, (x, _, _)) :: _, (_, (y, _, _)) :: _ => Ok ((y - x) * (y - x))%Q
  | _, _ => Raise (ValueError "empty matrix")
  end.

Definition example_reference : residue_matrix := [("N", (0, 0, 0)%Q)].

(** The details of three runs, with scores 3, 2, 1. *)
Definition example_details : list details.t :=
  (λ i, {| details.id := i; details.score := inject_Z (4 - i);
           details.predicted_structure := "model.pdb";
           details.pdb_loop_residue_matrix := [("N", (inject_Z i, 0, 0)%Q)] |})
  <$> seqZ 1 3.

(** The details of two runs, the first with the score [nan]. *)
Definition details_with_nan_score : list details.t :=
  [ {| details.id := 1; details.score := NaN;
       details.predicted_structure := "model.pdb";
       details.pdb_loop_residue_matrix := [("N", (1, 0, 0)%Q)] |};
    {| details.id := 2; details.score := 0;
       details.predicted_structure := "model.pdb";
       details.pdb_loop_residue_matrix := [("N", (2, 0, 0)%Q)] |} ].

(** The set of these three runs as it is read in. *)
Definition three_models : LoopPredictionSet :=
  set_of (prediction_of "1abc" <$> example_details).

(** The analysis of a case, reduced to the percentages it records for
    the plot. *)
Definition case_with_percentages (by_top_x : list (Z * Q)) : case_analysis :=
  {| top_x_loop_prediction_set := LoopPredictionSet_init;
     median_scoring_structure := prediction 0 0 None;
     best_scoring_structure := prediction 0 0 None;
     worst_scoring_structure := prediction 0 0 None;
     percent_subangstrom_by_top_x := by_top_x;
     total_percent_subangstrom := 0;
     top_x_percent_subangstrom := 0;
     closest_rmsd := None;
     closest_score := 0;
     top_1_rmsd := None;
     top_x_rmsd := None;
     top_x_score := 0 |}.

(** Three cases with their percentages for X = 1 and X = 2. *)
Definition three_cases : list string := ["1abc"; "2xyz"; "3pqr"].

Definition three_results : list case_analysis :=
  [case_with_percentages [(1, 0%Q); (2, 50%Q)];
   case_with_percentages [(1, 100%Q); (2, 50%Q)];
   case_with_percentages [(1, 100%Q); (2, 100%Q)]].

(** ** Tactics *)

Ltac no_test t :=
  lazymatch t with
  | context [if _ then _ else _] => fail
  | _ => idtac
  end.

Ltac case_compare :=
  repeat (match goal with
          | |- context [?x <? ?y] =>
              no_test x; no_test y; destruct (Z.ltb_spec x y)
          | |- context [?x >=? ?y] =>
              no_test x; no_test y; destruct (Z.geb_spec x y)
          | |- context [?x =? ?y] =>
              no_test x; no_test y; destruct (Z.eqb_spec x y)
          | |- context [?x <=? ?y] =>
              no_test x; no_test y; destruct (Z.leb_spec x y)
          end; try lia).

Ltac run :=
  unfold set_loop_predictions, set_loop_prediction_map, on;
  unfold mbind, M_bind, mret, M_ret, read, write, raise, lift; simpl.

(** ** Numbers and the orders of the comparators *)

Lemma Qlt_bool_iff (a b : Q) : Qlt_bool a b = true ↔ (a < b)%Q.
Proof. unfold Qlt_bool, Qlt. apply Z.ltb_lt. Qed.

Lemma num_ltb_iff (a b : number) : num_ltb a b = true ↔ num_lt a b.
Proof.
  destruct a, b; simpl; try apply Qlt_bool_iff; intuition discriminate.
Qed.

Lemma num_eqb_iff (a b : number) : num_eqb a b = true ↔ num_eq a b.
Proof.
  destruct a, b; simpl; try apply Qeq_bool_iff; intuition discriminate.
Qed.

Lemma num_leb_iff (a b : number) : num_leb a b = true ↔ num_le a b.
Proof.
  unfold num_le. destruct a, b; simpl; try (intuition discriminate).
  rewrite Qle_bool_iff, Qle_lteq. tauto.
Qed.

Lemma py_lt_iff (a b : option number) : py_lt a b = true ↔ rmsd_lt a b.
Proof.
  destruct a, b; simpl; try apply num_ltb_iff; intuition discriminate.
Qed.

Lemma py_eq_iff (a b : option number) : py_eq a b = true ↔ rmsd_eq a b.
Proof.
  destruct a, b; simpl; try apply num_eqb_iff; intuition discriminate.
Qed.

Lemma py_le_iff (a b : option number) : py_le a b = true ↔ rmsd_le a b.
Proof.
  unfold rmsd_le. destruct a, b; simpl; try (intuition discriminate).
  apply num_leb_iff.
Qed.

(** Any two numbers other than [nan] are comparable. *)
Lemma num_trichotomy (a b : number) :
  a ≠ NaN → b ≠ NaN → num_lt a b ∨ num_eq a b ∨ num_lt b a.
Proof.
  destruct a as [x|], b as [y|]; simpl; try done. intros _ _.
  destruct (Q_dec x y) as [[?|?]|?]; auto.
Qed.

Lemma num_eq_refl (a : number) : a ≠ NaN → num_eq a a.
Proof. destruct a; simpl; [reflexivity|done]. Qed.

Lemma num_lt_not_eq (a b : number) : num_lt a b → ¬ num_eq a b.
Proof. destruct a, b; simpl; try tauto. intros ? ?. lra. Qed.

Lemma num_lt_asym (a b : number) : num_lt a b → ¬ num_lt b a.
Proof. destruct a, b; simpl; try tauto. intros ? ?. lra. Qed.

Lemma num_eq_sym (a b : number) : num_eq a b → num_eq b a.
Proof. destruct a, b; simpl; try tauto. intros ?. lra. Qed.

Lemma num_lt_trans (a b c : number) : num_lt a b → num_lt b c → num_lt a c.
Proof. destruct a, b, c; simpl; try tauto. intros ? ?. lra. Qed.

Lemma num_eq_trans (a b c : number) : num_eq a b → num_eq b c → num_eq a c.
Proof. destruct a, b, c; simpl; try tauto. intros ? ?. lra. Qed.

Lemma num_lt_eq_trans (a b c : number) : num_lt a b → num_eq b c → num_lt a c.
Proof. destruct a, b, c; simpl; try tauto. intros ? ?. lra. Qed.

Lemma num_eq_lt_trans (a b c : number) : num_eq a b → num_lt b c → num_lt a c.
Proof. destruct a, b, c; simpl; try tauto. intros ? ?. lra. Qed.

Lemma num_le_trans (a b c : number) : num_le a b → num_le b c → num_le a c.
Proof.
  unfold num_le.
  intros [?|?] [?|?];
    eauto using num_lt_trans, num_eq_trans, num_lt_eq_trans, num_eq_lt_trans.
Qed.

Lemma num_le_iff (a b : Q) : num_le a b ↔ (a <= b)%Q.
Proof. unfold num_le. simpl. rewrite Qle_lteq. tauto. Qed.

Lemma rmsd_trichotomy (a b : option number) :
  a ≠ Some NaN → b ≠ Some NaN → rmsd_lt a b ∨ rmsd_eq a b ∨ rmsd_lt b a.
Proof.
  destruct a as [x|], b as [y|]; simpl; auto.
  intros Ha Hb. apply num_trichotomy; congruence.
Qed.

Lemma rmsd_eq_refl (a : option number) : a ≠ Some NaN → rmsd_eq a a.
Proof.
  destruct a as [x|]; simpl; [|done]. intros Ha. apply num_eq_refl. congruence.
Qed.

Lemma rmsd_lt_not_eq (a b : option number) : rmsd_lt a b → ¬ rmsd_eq a b.
Proof. destruct a, b; simpl; try tauto. apply num_lt_not_eq. Qed.

Lemma rmsd_lt_asym (a b : option number) : rmsd_lt a b → ¬ rmsd_lt b a.
Proof. destruct a, b; simpl; try tauto. apply num_lt_asym. Qed.

Lemma rmsd_eq_sym (a b : option number) : rmsd_eq a b → rmsd_eq b a.
Proof. destruct a, b; simpl; try tauto. apply num_eq_sym. Qed.

Lemma rmsd_lt_trans (a b c : option number) :
  rmsd_lt a b → rmsd_lt b c → rmsd_lt a c.
Proof. destruct a, b, c; simpl; try tauto. apply num_lt_trans. Qed.

Lemma rmsd_eq_trans (a b c : option number) :
  rmsd_eq a b → rmsd_eq b c → rmsd_eq a c.
Proof. destruct a, b, c; simpl; try tauto. apply num_eq_trans. Qed.

Lemma rmsd_lt_eq_trans (a b c : option number) :
  rmsd_lt a b → rmsd_eq b c → rmsd_lt a c.
Proof. destruct a, b, c; simpl; try tauto. apply num_lt_eq_trans. Qed.

Lemma rmsd_eq_lt_trans (a b c : option number) :
  rmsd_eq a b → rmsd_lt b c → rmsd_lt a c.
Proof. destruct a, b, c; simpl; try tauto. apply num_eq_lt_trans. Qed.

Lemma rmsd_le_trans (a b c : option number) :
  rmsd_le a b → rmsd_le b c → rmsd_le a c.
Proof.
  unfold rmsd_le.
  intros [?|?] [?|?];
    eauto using rmsd_lt_trans, rmsd_eq_trans, rmsd_lt_eq_trans, rmsd_eq_lt_trans.
Qed.

Create HintDb order.
#[local] Hint Resolve rmsd_lt_trans rmsd_eq_trans rmsd_lt_eq_trans
  rmsd_eq_lt_trans rmsd_eq_sym num_lt_trans num_eq_trans num_lt_eq_trans
  num_eq_lt_trans num_eq_sym : order.

(** Two facts of the order that cannot hold together. *)
Ltac order_absurd :=
  exfalso;
  solve [ eapply num_lt_asym; eassumption
        | eapply num_lt_not_eq; [eassumption|]; eauto using num_eq_sym
        | eapply rmsd_lt_asym; eassumption
        | eapply rmsd_lt_not_eq; [eassumption|]; eauto using rmsd_eq_sym
        | lia
        | done ].

#[global] Instance before_by_score_trans : Transitive before_by_score.
Proof.
  intros a b c. unfold before_by_score.
  intros [?|[? [?|[? ?]]]] [?|[? [?|[? ?]]]];
    first [ left; eauto with order; fail
          | right; split; [eauto with order|];
            first [ left; eauto with order; fail
                  | right; split; [eauto with order|lia] ] ].
Qed.

#[global] Instance before_by_rmsd_trans : Transitive before_by_rmsd.
Proof.
  intros a b c. unfold before_by_rmsd.
  intros [?|[? [?|[? ?]]]] [?|[? [?|[? ?]]]];
    first [ left; eauto with order; fail
          | right; split; [eauto with order|];
            first [ left; eauto with order; fail
                  | right; split; [eauto with order|lia] ] ].
Qed.

Lemma before_by_score_asym (a b : LoopPrediction) :
  before_by_score a b → ¬ before_by_score b a.
Proof.
  unfold before_by_score.
  intros [?|[? [?|[? ?]]]] [?|[? [?|[? ?]]]]; order_absurd.
Qed.

Lemma before_by_rmsd_asym (a b : LoopPrediction) :
  before_by_rmsd a b → ¬ before_by_rmsd b a.
Proof.
  unfold before_by_rmsd.
  intros [?|[? [?|[? ?]]]] [?|[? [?|[? ?]]]]; order_absurd.
Qed.

#[global] Instance before_by_score_antisym : AntiSymm (=) before_by_score.
Proof. intros a b H1 H2. destruct (before_by_score_asym a b H1 H2). Qed.

#[global] Instance before_by_rmsd_antisym : AntiSymm (=) before_by_rmsd.
Proof. intros a b H1 H2. destruct (before_by_rmsd_asym a b H1 H2). Qed.

Lemma before_by_score_total (a b : LoopPrediction) :
  id a ≠ id b → no_nan a → no_nan b → before_by_score a b ∨ before_by_score b a.
Proof.
  intros Hid [Hsa Hra] [Hsb Hrb]. unfold before_by_score.
  destruct (num_trichotomy (score a) (score b)) as [?|[He|?]]; auto.
  pose proof (num_eq_sym _ _ He).
  destruct (rmsd_trichotomy (rmsd a) (rmsd b)) as [?|[?|?]]; auto.
  destruct (Z.lt_total (id a) (id b)) as [?|[?|?]]; [|done|].
  - left. right. auto.
  - right. right. split; [done|]. right. split; [by apply rmsd_eq_sym|lia].
Qed.

Lemma before_by_rmsd_total (a b : LoopPrediction) :
  id a ≠ id b → no_nan a → no_nan b → before_by_rmsd a b ∨ before_by_rmsd b a.
Proof.
  intros Hid [Hsa Hra] [Hsb Hrb]. unfold before_by_rmsd.
  destruct (rmsd_trichotomy (rmsd a) (rmsd b)) as [?|[Hr|?]]; auto.
  pose proof (rmsd_eq_sym _ _ Hr).
  destruct (num_trichotomy (score a) (score b)) as [?|[He|?]]; auto.
  pose proof (num_eq_sym _ _ He).
  destruct (Z.lt_total (id a) (id b)) as [?|[?|?]]; [|done|].
  - left. right. auto.
  - right. right. split; [done|]. right. split; [done|lia].
Qed.

Lemma Qeq_bool_false (a b : Q) : Qeq_bool a b = false ↔ ¬ (a == b)%Q.
Proof. rewrite <- Qeq_bool_iff. destruct (Qeq_bool a b); intuition congruence. Qed.

Lemma Qlt_bool_false (a b : Q) : Qlt_bool a b = false ↔ ¬ (a < b)%Q.
Proof. rewrite <- Qlt_bool_iff. destruct (Qlt_bool a b); intuition congruence. Qed.

Lemma num_eqb_false (a b : number) : num_eqb a b = false ↔ ¬ num_eq a b.
Proof. rewrite <- num_eqb_iff. destruct (num_eqb a b); intuition congruence. Qed.

Lemma num_ltb_false (a b : number) : num_ltb a b = false ↔ ¬ num_lt a b.
Proof. rewrite <- num_ltb_iff. destruct (num_ltb a b); intuition congruence. Qed.

Lemma py_eq_false (a b : option number) : py_eq a b = false ↔ ¬ rmsd_eq a b.
Proof. rewrite <- py_eq_iff. destruct (py_eq a b); intuition congruence. Qed.

Lemma py_lt_false (a b : option number) : py_lt a b = false ↔ ¬ rmsd_lt a b.
Proof. rewrite <- py_lt_iff. destruct (py_lt a b); intuition congruence. Qed.

(** The answer of a comparator on two records that pass its
    assertions: -1 or 1, whatever their numbers. *)
Lemma sort_by_score_answers (a b : LoopPrediction) :
  id a ≠ id b → well_typed a → well_typed b →
  LoopPrediction_sort_by_score a b = Ok (-1)
  ∨ LoopPrediction_sort_by_score a b = Ok 1.
Proof.
  intros Hid Ha Hb. unfold LoopPrediction_sort_by_score.
  unfold well_typed in *. rewrite Ha, Hb.
  destruct (Z.eqb_spec (id a) (id b)) as [|_]; [done|]. simpl.
  destruct (num_eqb (score a) (score b)), (num_ltb (score a) (score b)),
    (py_eq (rmsd a) (rmsd b)), (py_lt (rmsd a) (rmsd b)),
    (id a <? id b); simpl; auto.
Qed.

Lemma sort_by_rmsd_answers (a b : LoopPrediction) :
  id a ≠ id b → well_typed a → well_typed b →
  LoopPrediction_sort_by_rmsd a b = Ok (-1)
  ∨ LoopPrediction_sort_by_rmsd a b = Ok 1.
Proof.
  intros Hid Ha Hb. unfold LoopPrediction_sort_by_rmsd.
  unfold well_typed in *. rewrite Ha, Hb.
  destruct (Z.eqb_spec (id a) (id b)) as [|_]; [done|]. simpl.
  destruct (num_eqb (score a) (score b)), (num_ltb (score a) (score b)),
    (py_eq (rmsd a) (rmsd b)), (py_lt (rmsd a) (rmsd b)),
    (id a <? id b); simpl; auto.
Qed.

Lemma sort_by_score_decides (a b : LoopPrediction) :
  id a ≠ id b → well_typed a ∧ no_nan a → well_typed b ∧ no_nan b →
  decides LoopPrediction_sort_by_score before_by_score a b.
Proof.
  intros Hid [Ha Hna] [Hb Hnb]. unfold decides, LoopPrediction_sort_by_score.
  unfold well_typed in *. rewrite Ha, Hb.
  destruct (Z.eqb_spec (id a) (id b)) as [|_]; [done|]. simpl.
  destruct (before_by_score_total a b Hid Hna Hnb) as [H|H];
    [left|right]; (split; [done|]); pose proof (before_by_score_asym _ _ H) as Hn;
    unfold before_by_score in H, Hn.
  - destruct (num_eqb (score a) (score b)) eqn:E1; simpl.
    + apply num_eqb_iff in E1.
      destruct (py_eq (rmsd a) (rmsd b)) eqn:E2; simpl.
      * apply py_eq_iff in E2.
        destruct (Z.ltb_spec (id a) (id b)); [done|].
        destruct H as [?|[_ [?|[_ ?]]]]; order_absurd.
      * apply py_eq_false in E2.
        destruct (py_lt (rmsd a) (rmsd b)) eqn:E3; [done|].
        apply py_lt_false in E3.
        destruct H as [?|[_ [?|[? ?]]]]; [order_absurd|done|done].
    + apply num_eqb_false in E1.
      destruct (num_ltb (score a) (score b)) eqn:E3; [done|].
      apply num_ltb_false in E3. destruct H as [?|[? _]]; done.
  - destruct (num_eqb (score a) (score b)) eqn:E1; simpl.
    + apply num_eqb_iff in E1.
      destruct (py_eq (rmsd a) (rmsd b)) eqn:E2; simpl.
      * apply py_eq_iff in E2.
        destruct (Z.ltb_spec (id a) (id b)); [|done].
        destruct Hn. right. split; [done|]. right. split; [done|lia].
      * apply py_eq_false in E2.
        destruct (py_lt (rmsd a) (rmsd b)) eqn:E3; [|done].
        apply py_lt_iff in E3. destruct Hn. right. split; [done|]. by left.
    + apply num_eqb_false in E1.
      destruct (num_ltb (score a) (score b)) eqn:E3; [|done].
      apply num_ltb_iff in E3. destruct Hn. by left.
Qed.

Lemma sort_by_rmsd_decides (a b : LoopPrediction) :
  id a ≠ id b → well_typed a ∧ no_nan a → well_typed b ∧ no_nan b →
  decides LoopPrediction_sort_by_rmsd before_by_rmsd a b.
Proof.
  intros Hid [Ha Hna] [Hb Hnb]. unfold decides, LoopPrediction_sort_by_rmsd.
  unfold well_typed in *. rewrite Ha, Hb.
  destruct (Z.eqb_spec (id a) (id b)) as [|_]; [done|]. simpl.
  destruct (before_by_rmsd_total a b Hid Hna Hnb) as [H|H];
    [left|right]; (split; [done|]); pose proof (before_by_rmsd_asym _ _ H) as Hn;
    unfold before_by_rmsd in H, Hn.
  - destruct (py_eq (rmsd a) (rmsd b)) eqn:E1; simpl.
    + apply py_eq_iff in E1.
      destruct (num_eqb (score a) (score b)) eqn:E2; simpl.
      * apply num_eqb_iff in E2.
        destruct (Z.ltb_spec (id a) (id b)); [done|].
        destruct H as [?|[_ [?|[_ ?]]]]; order_absurd.
      * apply num_eqb_false in E2.
        destruct (num_ltb (score a) (score b)) eqn:E3; [done|].
        apply num_ltb_false in E3.
        destruct H as [?|[_ [?|[? ?]]]]; [order_absurd|done|done].
    + apply py_eq_false in E1.
      destruct (py_lt (rmsd a) (rmsd b)) eqn:E3; [done|].
      apply py_lt_false in E3. destruct H as [?|[? _]]; done.
  - destruct (py_eq (rmsd a) (rmsd b)) eqn:E1; simpl.
    + apply py_eq_iff in E1.
      destruct (num_eqb (score a) (score b)) eqn:E2; simpl.
      * apply num_eqb_iff in E2.
        destruct (Z.ltb_spec (id a) (id b)); [|done].
        destruct Hn. right. split; [done|]. right. split; [done|lia].
      * apply num_eqb_false in E2.
        destruct (num_ltb (score a) (score b)) eqn:E3; [|done].
        apply num_ltb_iff in E3. destruct Hn. right. split; [done|]. by left.
    + apply py_eq_false in E1.
      destruct (py_lt (rmsd a) (rmsd b)) eqn:E3; [|done].
      apply py_lt_iff in E3. destruct Hn. by left.
Qed.

(** ** [list.sort] with a comparator that answers *)

Lemma middle_bounds (l r : nat) :
  (l < r)%nat → (l ≤ l + (r - l) / 2 < r)%nat ∧ (2 * ((r - l) / 2) ≤ r - l)%nat.
Proof.
  intros Hlr.
  pose proof (Nat.div_lt (r - l) 2 ltac:(lia) ltac:(lia)).
  pose proof (Nat.Div0.mul_div_le (r - l) 2). lia.
Qed.

Lemma bisect_fuel {A} (f : A → A → result Z) (pivot : A) (sorted : list A) :
  ∀ fuel fuel' l r,
    (r - l ≤ fuel)%nat → (r - l ≤ fuel')%nat →
    bisect f pivot sorted l r fuel = bisect f pivot sorted l r fuel'.
Proof.
  induction fuel as [|fuel IH]; intros [|fuel'] l r H1 H2; cbn [bisect]; try done.
  - destruct (Nat.ltb_spec l r); [lia|done].
  - destruct (Nat.ltb_spec l r); [lia|done].
  - destruct (Nat.ltb_spec l r) as [Hlt|]; [|done].
    destruct (middle_bounds l r Hlt) as [Hp Hhalf].
    destruct (sorted !! _); [|done].
    destruct (islt f pivot _) as [[]|]; cbn [mbind result_bind]; [| |done];
      apply IH; lia.
Qed.

Lemma insert_at_permutation (i : nat) (x : LoopPrediction) (l : list LoopPrediction) :
  take i l ++ x :: drop i l ≡ₚ x :: l.
Proof. by rewrite <- Permutation_middle, take_drop. Qed.

Section Permuting.

Context (f : LoopPrediction → LoopPrediction → result Z).
Context (P : LoopPrediction → Prop).
Hypothesis f_answers :
  ∀ a b, id a ≠ id b → P a → P b → ∃ c, f a b = Ok c.

Lemma islt_answers (a b : LoopPrediction) :
  id a ≠ id b → P a → P b → ∃ less, islt f a b = Ok less.
Proof.
  intros Hid Ha Hb. destruct (f_answers a b Hid Ha Hb) as [c Hc].
  unfold islt. rewrite Hc. simpl. eauto.
Qed.

Lemma run_after_perm (descending : bool) (l : list LoopPrediction) :
  ∀ prev, P prev → Forall P l → NoDup (id <$> prev :: l) →
  ∃ run rest, run_after f descending prev l = Ok (run, rest) ∧ l = run ++ rest.
Proof.
  induction l as [|x l IH]; intros prev Hprev Hl Hnd.
  - by exists [], [].
  - apply Forall_cons in Hl as [Hx Hl].
    rewrite !fmap_cons in Hnd. apply NoDup_cons in Hnd as [Hid Hnd].
    rewrite not_elem_of_cons in Hid. destruct Hid as [Hid _].
    cbn [run_after].
    destruct (islt_answers x prev) as [less ->]; [done..|]. simpl.
    destruct (Bool.eqb less descending).
    + destruct (IH x Hx Hl) as (run & rest & -> & ->); [done|]. simpl.
      by exists (x :: run), rest.
    + by exists [], (x :: l).
Qed.

Lemma count_run_perm (l : list LoopPrediction) :
  Forall P l → NoDup (id <$> l) →
  ∃ run rest, count_run f l = Ok (run, rest) ∧ run ++ rest ≡ₚ l.
Proof.
  intros Hl Hnd. destruct l as [|x [|y l]].
  - by exists [], [].
  - by exists [x], [].
  - apply Forall_cons in Hl as [Hx Hl]. pose proof Hl as [Hy Hl']%Forall_cons.
    pose proof Hnd as Hnd'. rewrite fmap_cons in Hnd'.
    apply NoDup_cons in Hnd' as [Hid Hnd'].
    rewrite fmap_cons, not_elem_of_cons in Hid. destruct Hid as [Hid _].
    cbn [count_run].
    destruct (islt_answers y x) as [descending ->]; [done..|]. simpl.
    destruct (run_after_perm descending l y) as (run & rest & -> & ->); [done..|].
    simpl. eexists _, _. split; [done|].
    destruct descending; [|done].
    by rewrite reverse_Permutation.
Qed.

Lemma bisect_answers (pivot : LoopPrediction) (sorted : list LoopPrediction) :
  P pivot → Forall P sorted → id pivot ∉ id <$> sorted →
  ∀ fuel l r, ∃ i, bisect f pivot sorted l r fuel = Ok i.
Proof.
  intros Hpivot Hsorted Hid. induction fuel as [|fuel IH]; intros l r.
  - by exists l.
  - cbn [bisect]. destruct (l <? r)%nat; [|by exists l].
    destruct (sorted !! (l + (r - l) / 2)%nat) as [y|] eqn:Hy; [|by exists l].
    apply list_elem_of_lookup_2 in Hy.
    destruct (islt_answers pivot y) as [less ->]; [|done|..].
    + intros Heq. apply Hid. rewrite Heq. apply list_elem_of_fmap. by exists y.
    + by apply (proj1 (Forall_forall _ _) Hsorted).
    + simpl. destruct less; apply IH.
Qed.

Lemma binarysort_perm (rest : list LoopPrediction) :
  ∀ sorted, Forall P (sorted ++ rest) → NoDup (id <$> sorted ++ rest) →
  ∃ l', binarysort f sorted rest = Ok l' ∧ l' ≡ₚ sorted ++ rest.
Proof.
  induction rest as [|pivot rest IH]; intros sorted Hall Hnd.
  - exists sorted. by rewrite app_nil_r.
  - assert (sorted ++ pivot :: rest ≡ₚ pivot :: sorted ++ rest) as Hp
      by (by rewrite Permutation_middle).
    rewrite Hp in Hall, Hnd. rewrite fmap_cons in Hnd.
    apply Forall_cons in Hall as [Hpivot Hall].
    apply NoDup_cons in Hnd as [Hid Hnd].
    cbn [binarysort].
    destruct (bisect_answers pivot sorted) with
      (fuel := length sorted) (l := 0%nat) (r := length sorted) as [i ->].
    { done. }
    { by apply Forall_app in Hall as [? _]. }
    { rewrite fmap_app in Hid. intros Hin. apply Hid, elem_of_app. by left. }
    simpl.
    destruct (IH (take i sorted ++ pivot :: drop i sorted)) as (l' & -> & Hp').
    { rewrite insert_at_permutation. by constructor. }
    { rewrite insert_at_permutation, <- app_comm_cons, fmap_cons. by constructor. }
    exists l'. split; [done|].
    by rewrite Hp', insert_at_permutation, Hp.
Qed.

Lemma list_sort_perm (l : list LoopPrediction) :
  Forall P l → NoDup (id <$> l) →
  ∃ l', list_sort f l = Ok l' ∧ l' ≡ₚ l.
Proof.
  intros Hall Hnd. unfold list_sort.
  destruct (count_run_perm l Hall Hnd) as (run & rest & -> & Hp). simpl.
  destruct (binarysort_perm rest run) as (l' & -> & Hp').
  - by rewrite Hp.
  - by rewrite Hp.
  - exists l'. split; [done|]. by rewrite Hp'.
Qed.

End Permuting.

(** ** [list.sort] with a comparator that decides a strict order *)

Section Sorting.

Context (f : LoopPrediction → LoopPrediction → result Z).
Context (P : LoopPrediction → Prop).
Context (R : relation LoopPrediction) `{!Transitive R}.
Hypothesis f_decides :
  ∀ a b, id a ≠ id b → P a → P b → decides f R a b.

Lemma islt_decides (a b : LoopPrediction) :
  id a ≠ id b → P a → P b →
  R a b ∧ islt f a b = Ok true ∨ R b a ∧ islt f a b = Ok false.
Proof.
  intros Hid Ha Hb. unfold islt.
  destruct (f_decides a b Hid Ha Hb) as [[HR ->]|[HR ->]]; [by left|by right].
Qed.

Lemma run_after_ok (descending : bool) (l : list LoopPrediction) :
  ∀ prev, P prev → Forall P l → NoDup (id <$> prev :: l) →
  ∃ run rest,
    run_after f descending prev l = Ok (run, rest) ∧ l = run ++ rest
    ∧ Sorted (if descending then flip R else R) (prev :: run).
Proof.
  induction l as [|x l IH]; intros prev Hprev Hl Hnd.
  - exists [], []. split; [done|]. split; [done|]. repeat constructor.
  - apply Forall_cons in Hl as [Hx Hl].
    rewrite !fmap_cons in Hnd. apply NoDup_cons in Hnd as [Hid Hnd].
    rewrite not_elem_of_cons in Hid. destruct Hid as [Hid _].
    cbn [run_after].
    destruct (IH x Hx Hl) as (run & rest & Hrun & -> & Hs); [done|].
    destruct (islt_decides x prev) as [[HR ->]|[HR ->]]; [done..| |];
      simpl; destruct descending; simpl.
    + rewrite Hrun. simpl. exists (x :: run), rest.
      split; [done|]. split; [done|]. constructor; [done|]. by constructor.
    + exists [], (x :: run ++ rest). split; [done|]. split; [done|]. repeat constructor.
    + exists [], (x :: run ++ rest). split; [done|]. split; [done|]. repeat constructor.
    + rewrite Hrun. simpl. exists (x :: run), rest.
      split; [done|]. split; [done|]. constructor; [done|]. by constructor.
Qed.

Lemma count_run_ok (l : list LoopPrediction) :
  Forall P l → NoDup (id <$> l) →
  ∃ run rest, count_run f l = Ok (run, rest) ∧ run ++ rest ≡ₚ l ∧ Sorted R run.
Proof.
  intros Hl Hnd. destruct l as [|x [|y l]].
  - exists [], []. split; [done|]. split; [done|]. constructor.
  - exists [x], []. split; [done|]. split; [done|]. repeat constructor.
  - apply Forall_cons in Hl as [Hx Hl]. pose proof Hl as [Hy Hl']%Forall_cons.
    pose proof Hnd as Hnd'. rewrite fmap_cons in Hnd'.
    apply NoDup_cons in Hnd' as [Hid Hnd'].
    rewrite fmap_cons, not_elem_of_cons in Hid. destruct Hid as [Hid _].
    cbn [count_run].
    destruct (islt_decides y x) as [[HR ->]|[HR ->]]; [done..| |]; simpl.
    + destruct (run_after_ok true l y) as (run & rest & -> & -> & Hs); [done..|].
      simpl. eexists _, _. split; [done|]. split.
      * by rewrite reverse_Permutation.
      * apply (Sorted_reverse (flip R)). constructor; [done|]. by constructor.
    + destruct (run_after_ok false l y) as (run & rest & -> & -> & Hs); [done..|].
      simpl. eexists _, _. split; [done|]. split; [done|].
      constructor; [done|]. by constructor.
Qed.

Lemma sorted_around (sorted : list LoopPrediction) (p : nat) (y : LoopPrediction) :
  StronglySorted R sorted → sorted !! p = Some y →
  Forall (λ z, R z y) (take p sorted) ∧ Forall (R y) (drop (S p) sorted).
Proof.
  intros Hs Hy. rewrite <- (take_drop_middle sorted p y Hy) in Hs.
  apply StronglySorted_app in Hs as (Hcross & _ & Hs).
  apply StronglySorted_inv in Hs as [_ Hafter]. split; [|done].
  apply Forall_forall. intros z Hz. apply Hcross; [done|by left].
Qed.

Lemma bisect_ok (pivot : LoopPrediction) (sorted : list LoopPrediction) :
  StronglySorted R sorted → P pivot → Forall P sorted → id pivot ∉ id <$> sorted →
  ∀ fuel l r,
    (l ≤ r ≤ length sorted)%nat → (r - l ≤ fuel)%nat →
    Forall (λ y, R y pivot) (take l sorted) → Forall (R pivot) (drop r sorted) →
    ∃ i, bisect f pivot sorted l r fuel = Ok i
         ∧ Forall (λ y, R y pivot) (take i sorted)
         ∧ Forall (R pivot) (drop i sorted).
Proof.
  intros Hs Hpivot Hsorted Hid.
  induction fuel as [|fuel IH]; intros l r Hlr Hfuel Hbefore Hafter.
  - exists l. split; [done|]. split; [done|].
    by replace l with r by lia.
  - cbn [bisect]. destruct (Nat.ltb_spec l r) as [Hlt|Hge].
    2:{ exists l. split; [done|]. split; [done|]. by replace l with r by lia. }
    destruct (middle_bounds l r Hlt) as [Hp Hhalf].
    set (p := (l + (r - l) / 2)%nat) in *.
    destruct (lookup_lt_is_Some_2 sorted p) as [y Hy]; [lia|]. rewrite Hy.
    destruct (sorted_around sorted p y Hs Hy) as [Hsmaller Hgreater].
    pose proof (list_elem_of_lookup_2 _ _ _ Hy) as Hin.
    destruct (islt_decides pivot y) as [[HR ->]|[HR ->]]; simpl.
    + intros Heq. apply Hid. rewrite Heq. apply list_elem_of_fmap. by exists y.
    + done.
    + by apply (proj1 (Forall_forall _ _) Hsorted).
    + apply IH; [lia|lia|done|].
      rewrite (drop_S _ _ _ Hy). constructor; [done|].
      eapply Forall_impl; [exact Hgreater|]. intros z Hz. by transitivity y.
    + apply IH; [lia|lia| |done].
      rewrite (take_S_r _ _ _ Hy). apply Forall_app. split.
      * eapply Forall_impl; [exact Hsmaller|]. intros z Hz. by transitivity y.
      * by constructor.
Qed.

Lemma insert_at_sorted (i : nat) (pivot : LoopPrediction) (sorted : list LoopPrediction) :
  StronglySorted R sorted →
  Forall (λ y, R y pivot) (take i sorted) → Forall (R pivot) (drop i sorted) →
  StronglySorted R (take i sorted ++ pivot :: drop i sorted).
Proof.
  intros Hs Hbefore Hafter. rewrite <- (take_drop i sorted) in Hs.
  apply StronglySorted_app in Hs as (Hcross & Hs1 & Hs2).
  apply StronglySorted_app. split; [|split; [done|by constructor]].
  intros x1 x2 Hx1 [->|Hx2]%elem_of_cons.
  - by apply (proj1 (Forall_forall _ _) Hbefore).
  - by apply Hcross.
Qed.

Lemma binarysort_ok (rest : list LoopPrediction) :
  ∀ sorted, StronglySorted R sorted → Forall P (sorted ++ rest) →
  NoDup (id <$> sorted ++ rest) →
  ∃ l', binarysort f sorted rest = Ok l' ∧ l' ≡ₚ sorted ++ rest
        ∧ StronglySorted R l'.
Proof.
  induction rest as [|pivot rest IH]; intros sorted Hs Hall Hnd.
  - exists sorted. by rewrite app_nil_r.
  - assert (sorted ++ pivot :: rest ≡ₚ pivot :: sorted ++ rest) as Hp
      by (by rewrite Permutation_middle).
    rewrite Hp in Hall, Hnd. rewrite fmap_cons in Hnd.
    apply Forall_cons in Hall as [Hpivot Hall].
    apply NoDup_cons in Hnd as [Hid Hnd].
    cbn [binarysort].
    destruct (bisect_ok pivot sorted) with
      (fuel := length sorted) (l := 0%nat) (r := length sorted)
      as (i & -> & Hbefore & Hafter); try done.
    { by apply Forall_app in Hall as [? _]. }
    { rewrite fmap_app in Hid. intros Hin. apply Hid, elem_of_app. by left. }
    { lia. }
    { lia. }
    { by rewrite drop_all. }
    simpl.
    destruct (IH (take i sorted ++ pivot :: drop i sorted))
      as (l' & -> & Hp' & Hs').
    { by apply insert_at_sorted. }
    { rewrite insert_at_permutation. by constructor. }
    { rewrite insert_at_permutation, <- app_comm_cons, fmap_cons. by constructor. }
    exists l'. split; [done|]. split; [|done].
    by rewrite Hp', insert_at_permutation, Hp.
Qed.

Lemma list_sort_ok (l : list LoopPrediction) :
  Forall P l → NoDup (id <$> l) →
  ∃ l', list_sort f l = Ok l' ∧ l' ≡ₚ l ∧ Sorted R l'.
Proof.
  intros Hall Hnd. unfold list_sort.
  destruct (count_run_ok l Hall Hnd) as (run & rest & -> & Hp & Hs). simpl.
  destruct (binarysort_ok rest run) as (l' & -> & Hp' & Hs').
  - by apply (Sorted_StronglySorted R).
  - by rewrite Hp.
  - by rewrite Hp.
  - exists l'. split; [done|]. split; [by rewrite Hp'|].
    by apply StronglySorted_Sorted.
Qed.

End Sorting.

Lemma Forall_and_2 {A} (P Q : A → Prop) (l : list A) :
  Forall P l → Forall Q l → Forall (λ x, P x ∧ Q x) l.
Proof. intros HP HQ. apply Forall_and. done. Qed.

(** The two sorts return on a set with unique ids whose records pass
    their type check. They leave the records in the order of their
    comparator when no number is [nan]. *)
Lemma sort_by_score_ok (s : LoopPredictionSet) :
  Forall well_typed (loop_predictions s) → NoDup (id <$> loop_predictions s) →
  ∃ l', sort_by_score s = (Ok tt, with_loop_predictions l' s)
        ∧ l' ≡ₚ loop_predictions s
        ∧ (Forall no_nan (loop_predictions s) → Sorted before_by_score l').
Proof.
  intros Hwt Hnd.
  destruct (list_sort_perm LoopPrediction_sort_by_score well_typed) with
    (l := loop_predictions s) as (l' & Hl' & Hp); [|done..|].
  { intros a b Hid Ha Hb.
    destruct (sort_by_score_answers a b Hid Ha Hb) as [->| ->]; eauto. }
  exists l'. split; [|split; [done|]].
  - unfold sort_by_score, mbind, M_bind, read, lift. simpl. by rewrite Hl'.
  - intros Hnn.
    destruct (list_sort_ok _ _ before_by_score sort_by_score_decides
                (loop_predictions s)) as (l'' & Hl'' & _ & Hs); [|done|].
    { by apply Forall_and_2. }
    rewrite Hl' in Hl''. by injection Hl'' as ->.
Qed.

Lemma sort_by_rmsd_ok (s : LoopPredictionSet) :
  Forall well_typed (loop_predictions s) → NoDup (id <$> loop_predictions s) →
  ∃ l', sort_by_rmsd s = (Ok tt, with_loop_predictions l' s)
        ∧ l' ≡ₚ loop_predictions s
        ∧ (Forall no_nan (loop_predictions s) → Sorted before_by_rmsd l').
Proof.
  intros Hwt Hnd.
  destruct (list_sort_perm LoopPrediction_sort_by_rmsd well_typed) with
    (l := loop_predictions s) as (l' & Hl' & Hp); [|done..|].
  { intros a b Hid Ha Hb.
    destruct (sort_by_rmsd_answers a b Hid Ha Hb) as [->| ->]; eauto. }
  exists l'. split; [|split; [done|]].
  - unfold sort_by_rmsd, mbind, M_bind, read, lift. simpl. by rewrite Hl'.
  - intros Hnn.
    destruct (list_sort_ok _ _ before_by_rmsd sort_by_rmsd_decides
                (loop_predictions s)) as (l'' & Hl'' & _ & Hs); [|done|].
    { by apply Forall_and_2. }
    rewrite Hl' in Hl''. by injection Hl'' as ->.
Qed.

(** ** Indexing and slicing of the built-in list *)

Lemma list_getitem_lookup {A} (l : list A) (i : nat) (x : A) :
  l !! i = Some x → list_getitem l (Z.of_nat i) = Ok x.
Proof.
  intros Hx. pose proof (lookup_lt_Some _ _ _ Hx) as Hlt.
  unfold list_getitem.
  destruct (Z.ltb_spec (Z.of_nat i) 0); [lia|].
  destruct (Z.ltb_spec (Z.of_nat i) 0); [lia|].
  destruct (Z.geb_spec (Z.of_nat i) (Z.of_nat (length l))); [lia|]. simpl.
  by rewrite Nat2Z.id, Hx.
Qed.

Lemma map_result_getitem_seq {A} (l : list A) (k s : nat) :
  (s + k ≤ length l)%nat →
  map_result (list_getitem l) ((λ i : nat, Z.of_nat s + Z.of_nat i * 1) <$> seq 0 k)
  = Ok (take k (drop s l)).
Proof.
  revert s. induction k as [|k IH]; intros s Hlen; [done|].
  destruct (lookup_lt_is_Some_2 l s) as [x Hx]; [lia|].
  rewrite (drop_S _ _ _ Hx). cbn [seq fmap list_fmap map_result take].
  replace (Z.of_nat s + Z.of_nat 0 * 1) with (Z.of_nat s) by lia.
  rewrite (list_getitem_lookup _ _ _ Hx). simpl.
  rewrite <- fmap_S_seq, <- list_fmap_compose.
  rewrite (list_fmap_ext _ (λ i : nat, Z.of_nat (S s) + Z.of_nat i * 1) (seq 0 k))
    by (intros; simpl; lia).
  rewrite IH by lia. done.
Qed.

Lemma map_result_getitem_xrange {A} (l : list A) (s e : Z) :
  0 ≤ s → e ≤ Z.of_nat (length l) →
  map_result (list_getitem l) (xrange s e 1)
  = Ok (take (Z.to_nat (e - s)) (drop (Z.to_nat s) l)).
Proof.
  intros Hs He. unfold xrange. simpl.
  destruct (Z.ltb_spec s e) as [Hlt|Hge].
  - rewrite Z.div_1_r. replace (e - s - 1 + 1) with (e - s) by lia.
    rewrite <- (map_result_getitem_seq l _ (Z.to_nat s)) by lia.
    f_equal. apply list_fmap_ext. intros. lia.
  - by replace (Z.to_nat (e - s)) with 0%nat by lia.
Qed.

Lemma list_getslice_from {A} (l : list A) (n : Z) :
  0 ≤ n →
  list_getslice l {| start := Some n; stop := None; step := None |}
  = Ok (drop (Z.to_nat n) l).
Proof.
  intros Hn. unfold list_getslice, slice_indices. simpl.
  case_compare; rewrite map_result_getitem_xrange by lia.
  - rewrite !drop_ge by lia. by rewrite take_nil.
  - rewrite take_ge; [done|]. rewrite length_drop. lia.
Qed.

Lemma list_getslice_upto {A} (l : list A) (n : Z) :
  0 ≤ n →
  list_getslice l {| start := None; stop := Some n; step := None |}
  = Ok (take (Z.to_nat n) l).
Proof.
  intros Hn. unfold list_getslice, slice_indices. simpl.
  case_compare; rewrite map_result_getitem_xrange by lia;
    rewrite Z.sub_0_r; change (Z.to_nat 0) with 0%nat; rewrite drop_0; [|done].
  rewrite !take_ge by lia. done.
Qed.

Lemma list_getslice_range {A} (l : list A) (a b : Z) (st : option Z) :
  0 ≤ a ≤ b → b ≤ Z.of_nat (length l) → st = None ∨ st = Some 1 →
  list_getslice l {| start := Some a; stop := Some b; step := st |}
  = Ok (take (Z.to_nat (b - a)) (drop (Z.to_nat a) l)).
Proof.
  intros Ha Hb Hst. unfold list_getslice, slice_indices.
  destruct Hst as [->| ->]; simpl;
    case_compare; rewrite map_result_getitem_xrange by lia; simpl;
    repeat f_equal; lia.
Qed.

(** ** Construction, insertion and lookup *)

Lemma obj_in_id_false (i : Z) (l : list LoopPrediction) :
  obj_in (PyInt i) (PyLoopPrediction <$> l) = false.
Proof. induction l; simpl; auto. Qed.

Lemma from_list_loop (l : list LoopPrediction) (s : LoopPredictionSet) :
  for_each (λ loop_prediction,
              assert_id_not_in_loop_predictions (id loop_prediction);;
              append_and_map (id loop_prediction) loop_prediction) l s
  = (Ok tt, {| loop_predictions := loop_predictions s ++ l;
               loop_prediction_map := store_all (loop_prediction_map s) l |}).
Proof.
  revert s. induction l as [|x l IH]; intros s.
  - destruct s. simpl. by rewrite app_nil_r.
  - cbn [for_each]. unfold assert_id_not_in_loop_predictions, append_and_map at 1.
    run. rewrite obj_in_id_false. simpl. rewrite IH. simpl.
    by rewrite <- app_assoc.
Qed.

Lemma from_list_eq (l : list LoopPrediction) :
  from_list l = Ok {| loop_predictions := l;
                      loop_prediction_map := store_all ∅ l |}.
Proof. unfold from_list. by rewrite from_list_loop. Qed.

Lemma store_all_union (m : gmap Z LoopPrediction) (l : list LoopPrediction) :
  store_all m l = list_to_map (keyed (reverse l)) ∪ m.
Proof.
  revert m. induction l as [|x l IH]; intros m; simpl.
  - by rewrite (left_id_L ∅ (∪)).
  - rewrite IH, reverse_cons. unfold keyed. rewrite fmap_app, list_to_map_app.
    simpl. rewrite <- (assoc_L (∪)). f_equal.
    by rewrite <- insert_union_l, (left_id_L ∅ (∪)).
Qed.

Lemma keyed_fst (l : list LoopPrediction) : (keyed l).*1 = id <$> l.
Proof. unfold keyed. rewrite <- list_fmap_compose. done. Qed.

Lemma store_all_unique (l : list LoopPrediction) :
  NoDup (id <$> l) → store_all ∅ l = list_to_map (keyed l).
Proof.
  intros Hnd. rewrite store_all_union, (right_id_L ∅ (∪)).
  apply list_to_map_proper.
  - by rewrite keyed_fst, fmap_reverse, reverse_Permutation.
  - unfold keyed. by rewrite fmap_reverse, reverse_Permutation.
Qed.

Lemma store_all_dom (l : list LoopPrediction) (i : Z) :
  i ∈ dom (store_all ∅ l) ↔ i ∈ id <$> l.
Proof.
  rewrite store_all_union, (right_id_L ∅ (∪)), dom_list_to_map_L.
  rewrite elem_of_list_to_set, keyed_fst, fmap_reverse, elem_of_reverse. done.
Qed.

Lemma consistent_lookup (s : LoopPredictionSet) (lp : LoopPrediction) :
  consistent s → lp ∈ loop_predictions s →
  loop_prediction_map s !! id lp = Some lp.
Proof.
  intros [Hnd ->] Hin. apply elem_of_list_to_map.
  - by rewrite keyed_fst.
  - unfold keyed. apply list_elem_of_fmap. by exists lp.
Qed.

Lemma consistent_lookup_inv (s : LoopPredictionSet) (i : Z) (lp : LoopPrediction) :
  consistent s → loop_prediction_map s !! i = Some lp →
  lp ∈ loop_predictions s ∧ id lp = i.
Proof.
  intros [Hnd ->] Hin. apply elem_of_list_to_map in Hin; [|by rewrite keyed_fst].
  unfold keyed in Hin. apply list_elem_of_fmap in Hin as (x & [= -> ->] & ?). done.
Qed.

Lemma add_eq (i : Z) (sc : number) (pid : option string) (r : option number)
    (path : option string) (mx : option residue_matrix) (s : LoopPredictionSet) :
  add i sc pid r path mx s =
  match LoopPrediction_init i sc pid r path mx with
  | Ok lp => (Ok lp, {| loop_predictions := loop_predictions s ++ [lp];
                        loop_prediction_map := <[i := lp]> (loop_prediction_map s) |})
  | Raise e => (Raise e, s)
  end.
Proof.
  unfold add, assert_id_not_in_loop_predictions, append_and_map. run.
  rewrite obj_in_id_false. simpl.
  by destruct (LoopPrediction_init i sc pid r path mx).
Qed.

Lemma get_eq (i : Z) (s : LoopPredictionSet) :
  get i s = (Ok (loop_prediction_map s !! i), s).
Proof. done. Qed.

Lemma len_eq (s : LoopPredictionSet) :
  len s = (Ok (Z.of_nat (length (loop_predictions s))), s).
Proof. done. Qed.

(** ** Truncation *)

Lemma delete_keyed (l1 d : list LoopPrediction) (x : LoopPrediction) :
  NoDup (id <$> (l1 ++ x :: d)) →
  delete (id x) (list_to_map (keyed (l1 ++ x :: d)) : gmap Z LoopPrediction)
  = list_to_map (keyed (l1 ++ d)).
Proof.
  intros Hnd.
  assert (l1 ++ x :: d ≡ₚ x :: (l1 ++ d)) as Hp by (by rewrite Permutation_middle).
  rewrite (list_to_map_proper _ (keyed (x :: (l1 ++ d)))).
  - simpl. apply delete_insert_id, not_elem_of_list_to_map_1.
    rewrite keyed_fst. rewrite Hp, fmap_cons in Hnd. by apply NoDup_cons in Hnd as [? _].
  - by rewrite keyed_fst.
  - unfold keyed. by rewrite Hp.
Qed.

Lemma lookup_keyed (l1 d : list LoopPrediction) (x : LoopPrediction) :
  NoDup (id <$> (l1 ++ x :: d)) →
  (list_to_map (keyed (l1 ++ x :: d)) : gmap Z LoopPrediction) !! id x = Some x.
Proof.
  intros Hnd. apply elem_of_list_to_map; [by rewrite keyed_fst|].
  unfold keyed. apply list_elem_of_fmap. exists x. split; [done|].
  apply elem_of_app. right. by left.
Qed.

Lemma for_each_cons {St A} (body : A → M St unit) (x : A) (l : list A) (s : St) :
  for_each body (x :: l) s =
  match body x s with
  | (Ok _, s') => for_each body l s'
  | (Raise e, s') => (Raise e, s')
  end.
Proof. done. Qed.

Lemma del_loop_prediction_map_eq (i : Z) (s : LoopPredictionSet) :
  del_loop_prediction_map i s =
  match loop_prediction_map s !! i with
  | Some _ => (Ok tt, {| loop_predictions := loop_predictions s;
                         loop_prediction_map := delete i (loop_prediction_map s) |})
  | None => (Raise (KeyError i), s)
  end.
Proof.
  unfold del_loop_prediction_map. run. by destruct (loop_prediction_map s !! i).
Qed.

Lemma truncate_delete_loop (d l1 : list LoopPrediction) (s : LoopPredictionSet) :
  NoDup (id <$> (l1 ++ d)) →
  loop_prediction_map s = list_to_map (keyed (l1 ++ d)) →
  for_each (λ lp, del_loop_prediction_map (id lp)) d s
  = (Ok tt, {| loop_predictions := loop_predictions s;
               loop_prediction_map := list_to_map (keyed l1) |}).
Proof.
  revert s. induction d as [|x d IH]; intros s Hnd Hm.
  - rewrite app_nil_r in Hm. destruct s; simpl in *. by rewrite Hm.
  - rewrite for_each_cons, del_loop_prediction_map_eq.
    rewrite Hm, lookup_keyed by done.
    rewrite IH; [done| |].
    + rewrite <- Permutation_middle, fmap_cons in Hnd.
      by apply NoDup_cons in Hnd as [_ ?].
    + simpl. by apply delete_keyed.
Qed.

Lemma sorted_unique (l1 l2 : list Z) : l1 ≡ₚ l2 → sorted l1 = sorted l2.
Proof.
  intros Hp. unfold sorted.
  apply (Sorted_unique Z.le); try apply (Sorted_merge_sort Z.le).
  by rewrite !merge_sort_Permutation.
Qed.

Lemma NoDup_take_ids (n : nat) (l : list LoopPrediction) :
  NoDup (id <$> l) → NoDup (id <$> take n l).
Proof.
  intros Hnd. rewrite fmap_take.
  eapply sublist_NoDup; [|apply sublist_take]. done.
Qed.

Lemma truncate_ok (n : Z) (s : LoopPredictionSet) :
  consistent s → 0 ≤ n →
  truncate n s
  = (Ok tt, {| loop_predictions := take (Z.to_nat n) (loop_predictions s);
               loop_prediction_map :=
                 list_to_map (keyed (take (Z.to_nat n) (loop_predictions s))) |}).
Proof.
  intros [Hnd Hm] Hn. unfold truncate. run.
  rewrite list_getslice_from by done. simpl.
  rewrite (truncate_delete_loop _ (take (Z.to_nat n) (loop_predictions s)));
    [|by rewrite take_drop..]. simpl.
  rewrite list_getslice_upto by done. simpl.
  unfold assert. rewrite bool_decide_eq_true_2; [done|].
  apply sorted_unique. rewrite <- keyed_fst.
  apply fmap_Permutation. symmetry. apply map_to_list_to_map.
  rewrite keyed_fst. by apply NoDup_take_ids.
Qed.

Lemma consistent_take (n : nat) (s : LoopPredictionSet) :
  consistent s →
  consistent {| loop_predictions := take n (loop_predictions s);
                loop_prediction_map := list_to_map (keyed (take n (loop_predictions s))) |}.
Proof.
  intros [Hnd _]. split; [|done]. simpl. by apply NoDup_take_ids.
Qed.

(** ** Indexed access *)

Lemma getitem_int_eq (i : Z) (s : LoopPredictionSet) :
  getitem_int i s =
  (if i >=? Z.of_nat (length (loop_predictions s))
   then Raise (IndexError (SetIndexMessage (Z.of_nat (length (loop_predictions s))) i))
   else list_getitem (loop_predictions s) i, s).
Proof.
  unfold getitem_int. run.
  by destruct (i >=? Z.of_nat (length (loop_predictions s))).
Qed.

Lemma getitem_int_lookup (i : nat) (x : LoopPrediction) (s : LoopPredictionSet) :
  loop_predictions s !! i = Some x → getitem_int (Z.of_nat i) s = (Ok x, s).
Proof.
  intros Hx. pose proof (lookup_lt_Some _ _ _ Hx).
  rewrite getitem_int_eq. case_compare. by rewrite (list_getitem_lookup _ _ x).
Qed.

Lemma list_getitem_negative {A} (l : list A) (i : Z) (x : A) :
  - Z.of_nat (length l) ≤ i < 0 →
  l !! Z.to_nat (Z.of_nat (length l) + i) = Some x →
  list_getitem l i = Ok x.
Proof.
  intros Hi Hx. unfold list_getitem. case_compare. simpl.
  by rewrite Z.add_comm, Hx.
Qed.

Lemma getitem_int_negative (i : Z) (x : LoopPrediction) (s : LoopPredictionSet) :
  - Z.of_nat (length (loop_predictions s)) ≤ i < 0 →
  loop_predictions s !! Z.to_nat (Z.of_nat (length (loop_predictions s)) + i) = Some x →
  getitem_int i s = (Ok x, s).
Proof.
  intros Hi Hx. rewrite getitem_int_eq. case_compare.
  by rewrite (list_getitem_negative _ _ x).
Qed.

Lemma list_getitem_not_set_message {A} (l : list A) (i n k : Z) :
  list_getitem l i ≠ Raise (IndexError (SetIndexMessage n k)).
Proof.
  unfold list_getitem.
  destruct (_ || _); [done|]. by destruct (l !! _).
Qed.

Lemma getitem_slice_eq (k : slice) (s : LoopPredictionSet) :
  getitem_slice k s =
  (picked ← list_getslice (loop_predictions s) k; from_list picked, s).
Proof.
  unfold getitem_slice, list_getslice, len. run.
  destruct (slice_indices k _) as [[[a b] c]|]; simpl; [|done].
  destruct (map_result _ _); simpl; [|done].
  by destruct (from_list _).
Qed.

Lemma getitem_slice_upto (n : Z) (s : LoopPredictionSet) :
  0 ≤ n →
  getitem_slice {| start := None; stop := Some n; step := None |} s =
  (Ok {| loop_predictions := take (Z.to_nat n) (loop_predictions s);
         loop_prediction_map := store_all ∅ (take (Z.to_nat n) (loop_predictions s)) |},
   s).
Proof.
  intros Hn. rewrite getitem_slice_eq, list_getslice_upto by done. simpl.
  by rewrite from_list_eq.
Qed.

Lemma getitem_slice_range (a b : Z) (st : option Z) (s : LoopPredictionSet) :
  0 ≤ a ≤ b → b ≤ Z.of_nat (length (loop_predictions s)) →
  st = None ∨ st = Some 1 →
  getitem_slice {| start := Some a; stop := Some b; step := st |} s =
  (Ok {| loop_predictions :=
           take (Z.to_nat (b - a)) (drop (Z.to_nat a) (loop_predictions s));
         loop_prediction_map :=
           store_all ∅ (take (Z.to_nat (b - a)) (drop (Z.to_nat a) (loop_predictions s))) |},
   s).
Proof.
  intros Ha Hb Hst. rewrite getitem_slice_eq, list_getslice_range by done. simpl.
  by rewrite from_list_eq.
Qed.

(** ** The fraction of predictions below a threshold *)

Lemma counted_test (x : Q) (strict : bool) (lp : LoopPrediction) :
  (strict && py_lt (rmsd lp) (Some x)) || (negb strict && py_le (rmsd lp) (Some x))
  = bool_decide (counted x strict lp).
Proof.
  destruct (decide (counted x strict lp)) as [Hc|Hc].
  - rewrite bool_decide_eq_true_2 by done.
    destruct Hc as [->|(d & -> & Hd)]; [by destruct strict|].
    destruct strict; simpl; rewrite ?orb_false_r.
    + by apply Qlt_bool_iff.
    + by apply Qle_bool_iff.
  - rewrite bool_decide_eq_false_2 by done.
    unfold counted, deviation_below in Hc.
    destruct (rmsd lp) as [[d|]|]; [|by destruct strict|destruct Hc; by left].
    destruct strict; simpl; rewrite ?orb_false_r.
    + apply Qlt_bool_false. intros ?. apply Hc. right. by exists d.
    + destruct (Qle_bool d x) eqn:E; [|done].
      apply Qle_bool_iff in E. destruct Hc. right. by exists d.
Qed.

Lemma count_rmsd_lt_counted (x : Q) (allow_failure strict : bool)
    (l : list LoopPrediction) (c : Z) :
  allow_failure = true ∨ Forall (λ lp, rmsd lp ≠ None) l →
  count_rmsd_lt x allow_failure strict l c
  = Ok (c + Z.of_nat (length (filter (counted x strict) l))).
Proof.
  revert c. induction l as [|lp l IH]; intros c Hok.
  - simpl. f_equal. lia.
  - cbn [count_rmsd_lt].
    assert (py_eq (rmsd lp) None && negb allow_failure = false) as ->.
    { destruct Hok as [->|Hall]; [by rewrite andb_false_r|].
      apply Forall_cons in Hall as [Hlp _]. by destruct (rmsd lp). }
    assert (allow_failure = true ∨ Forall (λ lp, rmsd lp ≠ None) l) as Hok'.
    { destruct Hok as [?|Hall]; [by left|right]. by apply Forall_cons in Hall as [_ ?]. }
    rewrite counted_test, filter_cons.
    destruct (decide (counted x strict lp)) as [Hc|Hc].
    + rewrite bool_decide_eq_true_2 by done. rewrite IH by done. simpl. f_equal. lia.
    + rewrite bool_decide_eq_false_2 by done. by rewrite IH.
Qed.

Lemma filter_counted_present (x : Q) (strict : bool) (l : list LoopPrediction) :
  Forall (λ lp, rmsd lp ≠ None) l →
  filter (counted x strict) l = filter (deviation_below x strict) l.
Proof.
  induction 1 as [|lp l Hlp _ IH]; [done|].
  rewrite !filter_cons, IH.
  destruct (decide (counted x strict lp)) as [[?|?]|Hc]; [done| |].
  - by rewrite decide_True.
  - rewrite decide_False; [done|]. intros ?. apply Hc. by right.
Qed.

Lemma count_rmsd_lt_missing (x : Q) (strict : bool) (l : list LoopPrediction) (c : Z) :
  Exists (λ lp, rmsd lp = None) l →
  count_rmsd_lt x false strict l c = Raise (Exception_ missing_rmsd_message).
Proof.
  revert c. induction l as [|lp l IH]; intros c Hex.
  - by apply Exists_nil in Hex.
  - cbn [count_rmsd_lt]. destruct (rmsd lp) as [d|] eqn:Hd; simpl; [|done].
    apply Exists_cons in Hex as [Hex|Hex]; [congruence|].
    destruct (_ || _); by apply IH.
Qed.

Lemma fraction_with_rmsd_lt_eq (x : Q) (allow_failure strict : bool)
    (s : LoopPredictionSet) :
  fraction_with_rmsd_lt x allow_failure strict s =
  (c ← count_rmsd_lt x allow_failure strict (loop_predictions s) 0;
   float_div c (Z.of_nat (length (loop_predictions s))), s).
Proof.
  unfold fraction_with_rmsd_lt. run.
  destruct (count_rmsd_lt _ _ _ _ _); simpl; [|done].
  by destruct (float_div _ _).
Qed.

Lemma fraction_in_unit_interval (c n : nat) :
  (c ≤ n)%nat → (0 < n)%nat →
  (0 <= inject_Z (Z.of_nat c) / inject_Z (Z.of_nat n) <= 1)%Q.
Proof.
  intros Hc Hn.
  assert (0 < inject_Z (Z.of_nat n))%Q as Hpos.
  { change 0%Q with (inject_Z 0). rewrite <- Zlt_Qlt. lia. }
  split.
  - apply Qle_shift_div_l; [done|]. rewrite Qmult_0_l.
    change 0%Q with (inject_Z 0). rewrite <- Zle_Qle. lia.
  - apply Qle_shift_div_r; [done|]. rewrite Qmult_1_l, <- Zle_Qle. lia.
Qed.

Lemma fraction_with_rmsd_lt_ok (x : Q) (allow_failure strict : bool)
    (s : LoopPredictionSet) :
  loop_predictions s ≠ [] →
  allow_failure = true ∨ Forall (λ lp, rmsd lp ≠ None) (loop_predictions s) →
  fraction_with_rmsd_lt x allow_failure strict s =
  (Ok (inject_Z (Z.of_nat (length (filter (counted x strict) (loop_predictions s))))
       / inject_Z (Z.of_nat (length (loop_predictions s))))%Q, s).
Proof.
  intros Hne Hok. rewrite fraction_with_rmsd_lt_eq, count_rmsd_lt_counted by done.
  simpl. unfold float_div. case_compare; [|done].
  destruct (loop_predictions s); [done|simpl in *; lia].
Qed.

(** ** The comparators and the two sorts *)



Lemma sort_by_score_of_permutation (s s2 : LoopPredictionSet) (l1 : list LoopPrediction) :
  Forall well_typed (loop_predictions s) → NoDup (id <$> loop_predictions s) →
  Forall no_nan (loop_predictions s) →
  Sorted before_by_score l1 → l1 ≡ₚ loop_predictions s →
  loop_predictions s2 ≡ₚ loop_predictions s →
  sort_by_score s2 = (Ok tt, with_loop_predictions l1 s2).
Proof.
  intros Hwt Hnd Hnn Hs1 Hp1 Hp2.
  destruct (sort_by_score_ok s2) as (l2 & -> & Hp & Hs2).
  - by rewrite Hp2.
  - by rewrite Hp2.
  - f_equal. f_equal. apply (Sorted_unique before_by_score); [|done|].
    + apply Hs2. by rewrite Hp2.
    + by rewrite Hp, Hp2, Hp1.
Qed.

(** C4, amended: without [nan]. On a set with unique ids none of
    whose scores and deviations is [nan], [sort_by_score], then
    [sort_by_rmsd], then [sort_by_score] again leaves the sequence that
    one [sort_by_score] leaves; that sequence is the one sorted
    arrangement of the records, whatever the order of the sequence
    before. *)
Theorem sort_by_score_is_canonical (s : LoopPredictionSet) :
  Forall well_typed (loop_predictions s) → NoDup (id <$> loop_predictions s) →
  Forall no_nan (loop_predictions s) →
  ∃ l1,
    sort_by_score s = (Ok tt, with_loop_predictions l1 s)
    ∧ (sort_by_score;; sort_by_rmsd;; sort_by_score) s
      = (Ok tt, with_loop_predictions l1 s)
    ∧ Sorted before_by_score l1 ∧ l1 ≡ₚ loop_predictions s
    ∧ ∀ s2, loop_predictions s2 ≡ₚ loop_predictions s →
            sort_by_score s2 = (Ok tt, with_loop_predictions l1 s2).
Proof.
  intros Hwt Hnd Hnn.
  destruct (sort_by_score_ok s Hwt Hnd) as (l1 & H1 & Hp1 & Hs1).
  specialize (Hs1 Hnn).
  exists l1. split; [done|]. split; [|split; [done|split; [done|]]].
  - unfold mbind at 1 2, M_bind. rewrite H1.
    destruct (sort_by_rmsd_ok (with_loop_predictions l1 s)) as (l2 & -> & Hp2 & _).
    { simpl. by rewrite Hp1. }
    { simpl. by rewrite Hp1. }
    rewrite (sort_by_score_of_permutation s _ l1); try done.
    simpl. by rewrite Hp2.
  - intros s2 Hp. by apply (sort_by_score_of_permutation s).
Qed.

(** ** Insertion *)

(** C1 (the code departs from the claim). [add] looks for the id in the
    list of predictions, where no id is ever found, so an id that is
    already present is accepted: the call returns the new record, the
    sequence grows by it and the mapping entry of the id is replaced. *)
Theorem add_accepts_present_id (i : Z) (sc : number) (pid : option string)
    (r : option number) (path : option string) (mx : option residue_matrix)
    (s : LoopPredictionSet) (lp : LoopPrediction) :
  i ∈ id <$> loop_predictions s →
  LoopPrediction_init i sc pid r path mx = Ok lp →
  add i sc pid r path mx s
  = (Ok lp, {| loop_predictions := loop_predictions s ++ [lp];
               loop_prediction_map := <[i := lp]> (loop_prediction_map s) |})
  ∧ length (loop_predictions s ++ [lp]) = S (length (loop_predictions s)).
Proof.
  intros _ Hinit. rewrite add_eq, Hinit. split; [done|].
  rewrite length_app. simpl. lia.
Qed.

(** ** Truncation *)

(** C5. On a set with unique ids whose mapping agrees with its
    sequence, [truncate(n)] with n >= 0 passes its closing check, keeps
    exactly the first n records, so that min(n, length) are left, drops
    the ids of the discarded records from the mapping, and leaves every
    remaining record retrievable by [get]. *)
Theorem truncate_keeps_first_n (n : Z) (s : LoopPredictionSet) :
  consistent s → 0 ≤ n →
  ∃ s',
    truncate n s = (Ok tt, s')
    ∧ loop_predictions s' = take (Z.to_nat n) (loop_predictions s)
    ∧ Z.of_nat (length (loop_predictions s'))
      = Z.min n (Z.of_nat (length (loop_predictions s)))
    ∧ (∀ lp, lp ∈ drop (Z.to_nat n) (loop_predictions s) →
             get (id lp) s' = (Ok None, s'))
    ∧ (∀ lp, lp ∈ loop_predictions s' → get (id lp) s' = (Ok (Some lp), s'))
    ∧ consistent s'.
Proof.
  intros Hc Hn. eexists. split; [by apply truncate_ok|]. simpl.
  pose proof (consistent_take (Z.to_nat n) s Hc) as Hc'.
  split; [done|]. split; [rewrite length_take; lia|].
  split; [|split; [|done]].
  - intros lp Hin. rewrite get_eq. simpl. f_equal. f_equal.
    apply not_elem_of_list_to_map_1. rewrite keyed_fst.
    destruct Hc as [Hnd _].
    rewrite <- (take_drop (Z.to_nat n) (loop_predictions s)), fmap_app in Hnd.
    apply NoDup_app in Hnd as (_ & Hdisj & _).
    intros Hin'. apply (Hdisj _ Hin'). apply list_elem_of_fmap. by exists lp.
  - intros lp Hin. rewrite get_eq. f_equal. f_equal.
    by apply (consistent_lookup _ _ Hc').
Qed.

(** ** Slices and single indices *)

(** C7. A slice over a range within bounds returns a new set: its
    sequence is the records of the source at the indices of the range,
    in the same order, its length is the length of the range, and its
    mapping holds exactly the ids of these records; the source set is
    left as it was. *)
Theorem slice_is_the_range (a b : Z) (st : option Z) (s : LoopPredictionSet) :
  0 ≤ a ≤ b → b ≤ Z.of_nat (length (loop_predictions s)) →
  st = None ∨ st = Some 1 →
  ∃ s',
    getitem (KSlice {| start := Some a; stop := Some b; step := st |}) s
    = (Ok (ItemSet s'), s)
    ∧ loop_predictions s'
      = take (Z.to_nat (b - a)) (drop (Z.to_nat a) (loop_predictions s))
    ∧ Z.of_nat (length (loop_predictions s')) = b - a
    ∧ (∀ k : nat, Z.of_nat k < b - a →
         loop_predictions s' !! k = loop_predictions s !! (Z.to_nat a + k)%nat)
    ∧ (∀ i, i ∈ dom (loop_prediction_map s') ↔ i ∈ id <$> loop_predictions s').
Proof.
  intros Ha Hb Hst. eexists. split.
  { unfold getitem. unfold mbind, M_bind.
    by rewrite getitem_slice_range by done. }
  simpl. split; [done|]. split; [|split].
  - rewrite length_take, length_drop. lia.
  - intros k Hk. rewrite lookup_take_lt by lia. by rewrite lookup_drop.
  - intros i. apply store_all_dom.
Qed.

(** C10. A negative index from -L on reads from the end of the
    sequence without an error, -1 giving the last record; the
    [IndexError] that [__getitem__] raises itself comes exactly for the
    indices from L on. *)
Theorem negative_index_reads_from_the_end (i : Z) (s : LoopPredictionSet) :
  let L := Z.of_nat (length (loop_predictions s)) in
  (- L ≤ i < 0 →
   ∃ lp, getitem (KInt i) s = (Ok (ItemPrediction lp), s)
         ∧ loop_predictions s !! Z.to_nat (L + i) = Some lp
         ∧ (i = -1 → last (loop_predictions s) = Some lp))
  ∧ ((∃ n k, (getitem (KInt i) s).1 = Raise (IndexError (SetIndexMessage n k)))
     ↔ L ≤ i).
Proof.
  intros L. split.
  - intros Hi.
    destruct (lookup_lt_is_Some_2 (loop_predictions s) (Z.to_nat (L + i)))
      as [lp Hlp]; [unfold L in *; lia|].
    exists lp. split; [|split; [done|]].
    + unfold getitem, mbind, M_bind.
      by rewrite (getitem_int_negative _ lp).
    + intros ->. rewrite last_lookup, <- Hlp. f_equal. unfold L. lia.
  - unfold getitem, mbind, M_bind. rewrite getitem_int_eq. fold L.
    destruct (Z.geb_spec i L) as [Hge|Hlt]; simpl.
    + split; [done|]. intros _. by exists L, i.
    + split; [|lia]. intros (n & k & H). exfalso.
      destruct (list_getitem (loop_predictions s) i) eqn:E; simpl in H; [done|].
      injection H as ->. by apply list_getitem_not_set_message in E.
Qed.

(** ** The fraction below a threshold: what is counted *)

Lemma length_filter_counted (x : Q) (strict : bool) (l : list LoopPrediction) :
  length (filter (counted x strict) l)
  = (length (filter (λ lp, rmsd lp = None) l)
     + length (filter (deviation_below x strict) l))%nat.
Proof.
  induction l as [|lp l IH]; [done|].
  rewrite !filter_cons.
  destruct (decide (rmsd lp = None)) as [Hn|Hn].
  - rewrite decide_True by (by left).
    rewrite (decide_False (P := deviation_below x strict lp)).
    + simpl. by rewrite IH.
    + intros (d & ? & _). congruence.
  - destruct (decide (deviation_below x strict lp)) as [Hb|Hb].
    + rewrite decide_True by (by right). simpl. rewrite IH. lia.
    + rewrite decide_False; [done|]. by intros [?|?].
Qed.

(** C2 (the code departs from the claim). With [allow_failure] set the
    call on a non-empty set does not fail, and the total count is the
    divisor, but a record without deviation is counted: Python 2 orders
    [None] below the threshold, so the numerator is the number of
    records without deviation plus the number of records below. *)
Theorem allow_failure_counts_missing (x : Q) (strict : bool) (s : LoopPredictionSet) :
  loop_predictions s ≠ [] →
  fraction_with_rmsd_lt x true strict s
  = (Ok (inject_Z (Z.of_nat
                     (length (filter (λ lp, rmsd lp = None) (loop_predictions s))
                      + length (filter (deviation_below x strict) (loop_predictions s))))
         / inject_Z (Z.of_nat (length (loop_predictions s))))%Q, s).
Proof.
  intros Hne. rewrite fraction_with_rmsd_lt_ok by auto.
  by rewrite length_filter_counted.
Qed.

Lemma counted_present (x : Q) (strict : bool) (lp : LoopPrediction) (d : Q) :
  rmsd lp = Some (Num d) →
  counted x strict lp ↔ if strict then (d < x)%Q else (d <= x)%Q.
Proof.
  intros Hd. unfold counted, deviation_below. rewrite Hd. split.
  - by intros [?|(d' & [= <-] & ?)].
  - intros ?. right. by exists d.
Qed.

(** C6, amended: on a non-empty set whose records all have a deviation
    the call returns the number of records with deviation below the
    threshold (strictly, or with equality when [strict] is off) divided
    by the number of records, a value between 0 and 1; on four records
    with deviations 0.5, 1.0, 1.5, 0.9 and threshold 1.0 that is 0.5, and
    0.75 with [strict] off; and when a record lacks a deviation and
    [allow_failure] is off the call raises the missing-RMSD exception. *)
Theorem fraction_with_rmsd_lt_counts_below (x : Q) (allow_failure strict : bool)
    (s : LoopPredictionSet) :
  (loop_predictions s ≠ [] →
   Forall (λ lp, rmsd lp ≠ None) (loop_predictions s) →
   ∃ q, fraction_with_rmsd_lt x allow_failure strict s = (Ok q, s)
        ∧ q = (inject_Z (Z.of_nat (length (filter (deviation_below x strict)
                                                  (loop_predictions s))))
               / inject_Z (Z.of_nat (length (loop_predictions s))))%Q
        ∧ (0 <= q <= 1)%Q)
  ∧ (Forall2 (λ lp (d : Q), rmsd_eq (rmsd lp) (Some (Num d))) (loop_predictions s)
       [0.5; 1.0; 1.5; 0.9]%Q →
     ∃ q q', fraction_with_rmsd_lt 1.0 allow_failure true s = (Ok q, s)
             ∧ (q == 0.5)%Q
             ∧ fraction_with_rmsd_lt 1.0 allow_failure false s = (Ok q', s)
             ∧ (q' == 0.75)%Q)
  ∧ (Exists (λ lp, rmsd lp = None) (loop_predictions s) →
     fraction_with_rmsd_lt x false strict s
     = (Raise (Exception_ missing_rmsd_message), s)).
Proof.
  split; [|split].
  - intros Hne Hall. eexists. split; [|split; [reflexivity|]].
    + rewrite fraction_with_rmsd_lt_ok by auto.
      by rewrite filter_counted_present.
    + apply fraction_in_unit_interval; [apply length_filter|].
      destruct (loop_predictions s); [done|simpl; lia].
  - intros H.
    apply Forall2_cons_inv_r in H as (r1 & l1 & ? & H & El).
    apply Forall2_cons_inv_r in H as (r2 & l2 & ? & H & ->).
    apply Forall2_cons_inv_r in H as (r3 & l3 & ? & H & ->).
    apply Forall2_cons_inv_r in H as (r4 & l4 & ? & H & ->).
    apply Forall2_nil_inv_r in H as ->.
    assert (∀ r (d : Q), rmsd_eq (rmsd r) (Some (Num d)) →
                   ∃ d' : Q, rmsd r = Some (Num d') ∧ (d' == d)%Q)
      as Hsome.
    { intros r d Hr. destruct (rmsd r) as [[d'|]|]; [|done..]. by exists d'. }
    destruct (Hsome r1 _ H0) as (d1 & E1 & ?), (Hsome r2 _ H1) as (d2 & E2 & ?),
      (Hsome r3 _ H2) as (d3 & E3 & ?), (Hsome r4 _ H3) as (d4 & E4 & ?).
    rewrite !fraction_with_rmsd_lt_ok, El;
      try (rewrite El; by auto);
      try (right; rewrite El; repeat constructor; congruence).
    rewrite !filter_cons, !filter_nil.
    rewrite (decide_True (P := counted 1.0%Q true r1)),
      (decide_False (P := counted 1.0%Q true r2)),
      (decide_False (P := counted 1.0%Q true r3)),
      (decide_True (P := counted 1.0%Q true r4)),
      (decide_True (P := counted 1.0%Q false r1)),
      (decide_True (P := counted 1.0%Q false r2)),
      (decide_False (P := counted 1.0%Q false r3)),
      (decide_True (P := counted 1.0%Q false r4));
      try (rewrite counted_present by eassumption; simpl; lra).
    eexists _, _. repeat split; by vm_compute.
  - intros Hex. rewrite fraction_with_rmsd_lt_eq.
    by rewrite count_rmsd_lt_missing.
Qed.

(** ** The per-case analysis *)

Lemma consistent_permutation (s : LoopPredictionSet) (l' : list LoopPrediction) :
  consistent s → l' ≡ₚ loop_predictions s →
  consistent (with_loop_predictions l' s).
Proof.
  intros [Hnd Hm] Hp. split; simpl.
  - by rewrite Hp.
  - rewrite Hm. apply list_to_map_proper; [by rewrite keyed_fst|].
    unfold keyed. by rewrite Hp.
Qed.

Lemma Sorted_take (R : relation LoopPrediction) `{!Transitive R}
    (n : nat) (l : list LoopPrediction) :
  Sorted R l → Sorted R (take n l).
Proof.
  intros Hs. apply StronglySorted_Sorted.
  apply (Sorted_StronglySorted R) in Hs.
  rewrite <- (take_drop n l) in Hs. by apply StronglySorted_app_1_l in Hs.
Qed.

Lemma map_result_repr (l : list LoopPrediction) :
  Forall well_typed l → ∃ us, map_result LoopPrediction_repr l = Ok us.
Proof.
  induction 1 as [|lp l Hlp _ [us IH]]; [by exists []|].
  exists (tt :: us). cbn [map_result].
  change (LoopPrediction_repr lp) with (_check_types lp).
  unfold well_typed in Hlp. rewrite Hlp. simpl. by rewrite IH.
Qed.

Lemma LoopPredictionSet_repr_ok (s : LoopPredictionSet) :
  Forall well_typed (loop_predictions s) → LoopPredictionSet_repr s = (Ok tt, s).
Proof.
  intros Hwt. destruct (map_result_repr _ Hwt) as [us Hus].
  unfold LoopPredictionSet_repr. run. by rewrite Hus.
Qed.

Lemma on_eq {A} (obj : LoopPredictionSet) (m : M LoopPredictionSet A)
    (s : LoopPredictionSet) :
  on obj m s = ((m obj).1, s).
Proof. done. Qed.

Lemma lift_eq {St A} (r : result A) (s : St) : lift r s = (r, s).
Proof. done. Qed.

Lemma bind_eq {St A B} (m : M St A) (f : A → M St B) (s : St) :
  (m ≫= f) s =
  match m s with
  | (Ok a, s') => f a s'
  | (Raise e, s') => (Raise e, s')
  end.
Proof. done. Qed.

Lemma select_structures_ok (expectn top_x : Z) (s : LoopPredictionSet) :
  consistent s → Forall well_typed (loop_predictions s) →
  1 ≤ top_x → 0 < expectn ≤ Z.of_nat (length (loop_predictions s)) →
  ∃ l1 median best worst,
    (Forall no_nan (loop_predictions s) → Sorted before_by_score l1)
    ∧ l1 ≡ₚ loop_predictions s
    ∧ select_structures expectn top_x s
      = (Ok (slice_of (take (Z.to_nat top_x) (take (Z.to_nat expectn) l1)),
             median, best, worst),
         set_of (take (Z.to_nat expectn) l1))
    ∧ take (Z.to_nat expectn) l1 !! Z.to_nat (expectn / 2) = Some median
    ∧ head (take (Z.to_nat expectn) l1) = Some best
    ∧ last (take (Z.to_nat expectn) l1) = Some worst.
Proof.
  intros Hc Hwt Htop Hn. pose proof Hc as [Hnd _].
  destruct (sort_by_score_ok s Hwt Hnd) as (l1 & Hsort & Hp & Hs).
  assert (length l1 = length (loop_predictions s)) as Hlen by (by rewrite Hp).
  set (l2 := take (Z.to_nat expectn) l1).
  assert (length l2 = Z.to_nat expectn) as Hlen2
    by (unfold l2; rewrite length_take; lia).
  assert (Forall well_typed l2) as Hwt2.
  { unfold l2. apply Forall_take. by rewrite Hp. }
  destruct (lookup_lt_is_Some_2 l2 (Z.to_nat (expectn / 2))) as [median Hmed].
  { rewrite Hlen2. apply Z2Nat.inj_lt; [apply Z.div_pos; lia|lia|].
    apply Z.div_lt; lia. }
  destruct (lookup_lt_is_Some_2 l2 0) as [best Hbest]; [lia|].
  destruct (lookup_lt_is_Some_2 l2 (pred (length l2))) as [worst Hworst]; [lia|].
  exists l1, median, best, worst. split; [done|]. split; [done|].
  split; [|split; [done|split; [by rewrite head_lookup|by rewrite last_lookup]]].
  unfold select_structures.
  rewrite bind_eq, Hsort.
  rewrite bind_eq, truncate_ok by (by apply consistent_permutation || lia).
  cbn [loop_predictions with_loop_predictions]. fold l2. fold (set_of l2).
  rewrite bind_eq, len_eq. cbn [loop_predictions set_of].
  rewrite Hlen2, Z2Nat.id, Z.eqb_refl by lia. cbn [negb].
  rewrite bind_eq. cbn [mret M_ret].
  rewrite bind_eq, getitem_slice_upto by lia.
  cbn [loop_predictions set_of]. fold (slice_of (take (Z.to_nat top_x) l2)).
  rewrite bind_eq.
  rewrite <- (Z2Nat.id (expectn / 2)) by (apply Z.div_pos; lia).
  rewrite (getitem_int_lookup _ median) by done.
  rewrite bind_eq. rewrite (getitem_int_lookup 0 best) by done.
  rewrite bind_eq. rewrite (getitem_int_negative _ worst);
    [|cbn [loop_predictions set_of]; lia
     |cbn [loop_predictions set_of]; rewrite <- Hworst; f_equal; lia].
  rewrite bind_eq, on_eq. rewrite (getitem_int_lookup 0 best);
    [|cbn [loop_predictions slice_of]; rewrite lookup_take_lt by lia; done].
  cbn [fst]. rewrite bind_eq, lift_eq. cbn [obj_eq].
  rewrite bool_decide_eq_true_2 by done. cbn [assert].
  rewrite bind_eq, on_eq, LoopPredictionSet_repr_ok
    by (cbn [loop_predictions slice_of]; by apply Forall_take).
  cbn [fst].
  assert (∀ x, x ∈ l2 → LoopPrediction_repr x = Ok tt) as Hrepr.
  { intros x Hx. by apply (proj1 (Forall_forall _ _) Hwt2). }
  rewrite bind_eq, lift_eq, Hrepr by (by eapply list_elem_of_lookup_2).
  rewrite bind_eq, lift_eq, Hrepr by (by eapply list_elem_of_lookup_2).
  rewrite bind_eq, lift_eq, Hrepr by (by eapply list_elem_of_lookup_2).
  done.
Qed.

(** C8. On a set with at least [expectn] records, sorted by score and
    truncated to [expectn] by the analysis, the median scoring structure
    that the analysis selects is the record at index floor(expectn / 2)
    of the score order; for [expectn] = 10 it is the record at index 5.
    The sequence [l1] that the sort leaves is in score order when no
    score and no deviation is [nan]; the index of the median is the
    same with [nan] among them. *)
Theorem median_is_at_half_of_expectn (expectn top_x : Z) (s : LoopPredictionSet) :
  consistent s → Forall well_typed (loop_predictions s) →
  1 ≤ top_x → 0 < expectn ≤ Z.of_nat (length (loop_predictions s)) →
  ∃ l1 top_x_set median best worst s',
    select_structures expectn top_x s = (Ok (top_x_set, median, best, worst), s')
    ∧ (Forall no_nan (loop_predictions s) → Sorted before_by_score l1)
    ∧ l1 ≡ₚ loop_predictions s
    ∧ loop_predictions s' = take (Z.to_nat expectn) l1
    ∧ Z.of_nat (length (loop_predictions s')) = expectn
    ∧ loop_predictions s' !! Z.to_nat (expectn / 2) = Some median
    ∧ (expectn = 10 → loop_predictions s' !! 5%nat = Some median).
Proof.
  intros Hc Hwt Htop Hn.
  destruct (select_structures_ok expectn top_x s Hc Hwt Htop Hn)
    as (l1 & median & best & worst & Hs & Hp & Hsel & Hmed & _ & _).
  eexists l1, _, median, best, worst, _. split; [exact Hsel|].
  split; [done|]. split; [done|]. simpl. split; [done|].
  split; [|split; [done|]].
  - rewrite length_take. rewrite Hp. lia.
  - intros ->. exact Hmed.
Qed.

(** ** The TopX scan *)

Lemma pair_le_refl (p : option number * number) :
  p.1 ≠ Some NaN → p.2 ≠ NaN → pair_le p p.
Proof.
  intros H1 H2. right. split; [by apply rmsd_eq_refl|].
  right. by apply num_eq_refl.
Qed.

Lemma pair_le_trans (p q r : option number * number) :
  pair_le p q → pair_le q r → pair_le p r.
Proof.
  unfold pair_le. intros [?|[? ?]] [?|[? ?]]; eauto with order.
  right. split; [eauto with order|by eapply num_le_trans].
Qed.

Lemma top_x_scan_spec (l : list LoopPrediction) (r0 : option number) (sc0 : number) :
  r0 ≠ Some NaN → sc0 ≠ NaN → Forall no_nan l →
  (top_x_scan l r0 sc0 = (r0, sc0)
   ∨ ∃ lp, lp ∈ l ∧ top_x_scan l r0 sc0 = (rmsd lp, score lp))
  ∧ pair_le (top_x_scan l r0 sc0) (r0, sc0)
  ∧ ∀ lp, lp ∈ l → pair_le (top_x_scan l r0 sc0) (rmsd lp, score lp).
Proof.
  revert r0 sc0. induction l as [|s l IH]; intros r0 sc0 Hr0 Hsc0 Hnn.
  { simpl. split; [by left|]. split; [by apply pair_le_refl|].
    intros lp Hin. by apply elem_of_nil in Hin. }
  apply Forall_cons in Hnn as [[Hss Hrs] Hnn].
  cbn [top_x_scan].
  destruct (py_lt (rmsd s) r0 || py_eq (rmsd s) r0 && num_ltb (score s) sc0) eqn:E.
  - assert (pair_le (rmsd s, score s) (r0, sc0)) as Hnew.
    { apply orb_true_iff in E as [E|E].
      - left. by apply py_lt_iff.
      - apply andb_true_iff in E as [E1 E2]. right.
        apply py_eq_iff in E1. apply num_ltb_iff in E2. simpl. split; [done|by left]. }
    destruct (IH (rmsd s) (score s)) as (Hwho & Hle & Hall); [done..|].
    split; [|split].
    + right. destruct Hwho as [->|(lp & ? & ->)].
      * exists s. split; [by left|done].
      * exists lp. split; [by right|done].
    + by eapply pair_le_trans.
    + intros lp [->|Hin]%elem_of_cons; auto.
  - assert (pair_le (r0, sc0) (rmsd s, score s)) as Hold.
    { apply orb_false_iff in E as [E1 E2].
      apply py_lt_false in E1.
      destruct (rmsd_trichotomy (rmsd s) r0) as [?|[Heq|?]]; [done..| |by left].
      right. simpl. split; [by apply rmsd_eq_sym|].
      apply py_eq_iff in Heq. rewrite Heq in E2. simpl in E2.
      apply num_ltb_false in E2. unfold num_le.
      destruct (num_trichotomy sc0 (score s)) as [?|[?|?]]; auto; done. }
    destruct (IH r0 sc0) as (Hwho & Hle & Hall); [done..|].
    split; [|split; [done|]].
    + destruct Hwho as [->|(lp & ? & ->)]; [by left|].
      right. exists lp. split; [by right|done].
    + intros lp [->|Hin]%elem_of_cons; auto.
      by eapply pair_le_trans.
Qed.

Lemma before_by_score_le (a b : LoopPrediction) :
  before_by_score a b → num_le (score a) (score b).
Proof. intros [?|[? _]]; [by left|by right]. Qed.

Lemma sorted_last_is_worst (l : list LoopPrediction) (w x : LoopPrediction) :
  Sorted before_by_score l → Forall no_nan l → last l = Some w → x ∈ l →
  num_le (score x) (score w).
Proof.
  intros Hs Hnn Hw Hx. apply (Sorted_StronglySorted before_by_score) in Hs.
  apply last_Some in Hw as [l' ->].
  apply elem_of_app in Hx as [Hx|Hx].
  - apply before_by_score_le.
    eapply StronglySorted_app_1_elem_of; [done..|by left].
  - apply list_elem_of_singleton in Hx as ->.
    apply Forall_app in Hnn as [_ Hw]. apply Forall_singleton in Hw as [Hw _].
    right. by apply num_eq_refl.
Qed.

Lemma top_x_metrics_ok (l2 : list LoopPrediction) (top_x : Z)
    (best worst : LoopPrediction) :
  Sorted before_by_score l2 → Forall no_nan l2 →
  head l2 = Some best → last l2 = Some worst →
  1 ≤ top_x →
  ∃ r sc,
    top_x_metrics best (score worst) (slice_of (take (Z.to_nat top_x) l2)) = Ok (r, sc)
    ∧ (∃ lp, lp ∈ take (Z.to_nat top_x) l2 ∧ (r, sc) = (rmsd lp, score lp))
    ∧ (∀ lp, lp ∈ take (Z.to_nat top_x) l2 → pair_le (r, sc) (rmsd lp, score lp))
    ∧ rmsd_le r (rmsd best)
    ∧ num_le sc (score worst).
Proof.
  intros Hs Hnn Hbest Hworst Htop.
  set (tx := take (Z.to_nat top_x) l2).
  assert (best ∈ tx) as Hin.
  { apply list_elem_of_lookup. exists 0%nat. unfold tx.
    rewrite lookup_take_lt by lia. by rewrite <- head_lookup. }
  assert (Forall no_nan tx) as Hnntx by (by apply Forall_take).
  assert (no_nan best) as [Hbs Hbr]
    by (by apply (proj1 (Forall_forall _ _) Hnntx)).
  destruct (top_x_scan_spec tx (rmsd best) (score best)) as (Hwho & Hle & Hall);
    [done..|].
  unfold top_x_metrics. cbn [loop_predictions slice_of]. fold tx.
  destruct (top_x_scan tx (rmsd best) (score best)) as [r sc] eqn:Escan.
  assert (∃ lp, lp ∈ tx ∧ (r, sc) = (rmsd lp, score lp)) as (lp & Hlp & Heq).
  { destruct Hwho as [->|?]; [by exists best|done]. }
  assert (num_le sc (score worst)) as Hsc.
  { injection Heq as -> ->. apply (sorted_last_is_worst l2); [done..|].
    by apply (subseteq_take (Z.to_nat top_x)). }
  assert (rmsd_le r (rmsd best)) as Hr.
  { destruct Hle as [?|[? _]]; [by left|by right]. }
  exists r, sc.
  rewrite (proj2 (num_leb_iff _ _) Hsc), (proj2 (py_le_iff _ _) Hr). simpl.
  split; [done|]. split; [by exists lp|]. split; [done|]. done.
Qed.

Lemma map_M_ok {St A B} (f : A → M St B) (l : list A) (s : St) :
  (∀ x, x ∈ l → ∃ y, f x s = (Ok y, s)) → ∃ ys, map_M f l s = (Ok ys, s).
Proof.
  induction l as [|x l IH]; intros Hf; [by exists []|].
  destruct (Hf x) as [y Hy]; [by left|].
  destruct IH as [ys Hys]; [intros; apply Hf; by right|].
  exists (y :: ys). cbn [map_M]. rewrite bind_eq, Hy, bind_eq, Hys. done.
Qed.

Lemma elem_of_xrange_from_1 (k n : Z) : k ∈ xrange 1 (n + 1) 1 → 1 ≤ k ≤ n.
Proof.
  unfold xrange. simpl. intros Hk.
  apply list_elem_of_fmap in Hk as (i & -> & Hi). apply elem_of_seq in Hi.
  destruct (Z.ltb_spec 1 (n + 1)).
  - rewrite Z.div_1_r in Hi. lia.
  - simpl in Hi. lia.
Qed.

Lemma take_nonempty {A} (k : Z) (l : list A) : 1 ≤ k → l ≠ [] → take (Z.to_nat k) l ≠ [].
Proof.
  intros Hk Hl. destruct l as [|x l]; [done|].
  destruct (Z.to_nat k) eqn:E; [lia|done].
Qed.

Lemma subangstrom_percentages_ok (l2 : list LoopPrediction) (top_x : Z) :
  Sorted before_by_score l2 → NoDup (id <$> l2) → Forall well_typed l2 →
  Forall no_nan l2 →
  Forall (λ lp, rmsd lp ≠ None) l2 → l2 ≠ [] → 1 ≤ top_x →
  ∃ r, subangstrom_percentages (slice_of (take (Z.to_nat top_x) l2)) (set_of l2)
       = (Ok r, set_of l2).
Proof.
  intros Hs Hnd Hwt Hnn Hr Hne Htop. unfold subangstrom_percentages.
  rewrite bind_eq, (sort_by_score_of_permutation (set_of l2) (set_of l2) l2) by done.
  change (with_loop_predictions l2 (set_of l2)) with (set_of l2).
  rewrite bind_eq, len_eq.
  rewrite bind_eq.
  match goal with
  | |- context [map_M ?f ?l ?s] => destruct (map_M_ok f l s) as [ys ->]
  end.
  { intros k Hk%elem_of_xrange_from_1.
    rewrite bind_eq, getitem_slice_upto by lia.
    rewrite bind_eq, on_eq, fraction_with_rmsd_lt_ok.
    - cbn [fst]. eexists. reflexivity.
    - simpl. apply take_nonempty; [lia|done].
    - right. simpl. by apply Forall_take. }
  rewrite bind_eq, fraction_with_rmsd_lt_ok by auto.
  rewrite bind_eq, on_eq, fraction_with_rmsd_lt_ok.
  - cbn [fst]. eexists. reflexivity.
  - simpl. by apply take_nonempty.
  - right. simpl. by apply Forall_take.
Qed.

Lemma closest_model_ok (l2 : list LoopPrediction) :
  NoDup (id <$> l2) → Forall well_typed l2 → l2 ≠ [] →
  ∃ r s', closest_model (set_of l2) = (Ok r, s').
Proof.
  intros Hnd Hwt Hne. unfold closest_model.
  destruct (sort_by_rmsd_ok (set_of l2)) as (l3 & Hsort & Hp & _); [done..|].
  rewrite bind_eq, Hsort.
  destruct (lookup_lt_is_Some_2 l3 0) as [c Hc].
  { rewrite Hp. simpl. destruct l2; [done|simpl; lia]. }
  rewrite bind_eq, (getitem_int_lookup 0 c) by done.
  rewrite bind_eq, (getitem_int_lookup 0 c) by done.
  eexists _, _. reflexivity.
Qed.

(** C9, amended: without [nan]. On a set with unique ids whose
    records all have a deviation, no score and no deviation being
    [nan], the analysis with 1 <= top_x <= expectn runs to its end, and
    the TopX deviation and score that its scan finds are those of a
    record of the TopX subset (the first [top_x] records in score order)
    that is least in deviation, with score as tie-break; the TopX
    deviation is at most the deviation of the best scoring record, the
    TopX score is at most the score of the worst scoring record, and the
    first record of the TopX subset is the first record of the full
    set. *)
Theorem top_x_scan_finds_the_minimum (expectn top_x : Z) (s : LoopPredictionSet) :
  consistent s → Forall well_typed (loop_predictions s) →
  Forall no_nan (loop_predictions s) →
  Forall (λ lp, rmsd lp ≠ None) (loop_predictions s) →
  1 ≤ top_x ≤ expectn → expectn ≤ Z.of_nat (length (loop_predictions s)) →
  ∃ r s' l1,
    analyze_case expectn top_x s = (Ok r, s')
    ∧ Sorted before_by_score l1 ∧ l1 ≡ₚ loop_predictions s
    ∧ loop_predictions (top_x_loop_prediction_set r)
      = take (Z.to_nat top_x) (take (Z.to_nat expectn) l1)
    ∧ (∃ lp, lp ∈ loop_predictions (top_x_loop_prediction_set r)
             ∧ top_x_rmsd r = rmsd lp ∧ top_x_score r = score lp)
    ∧ (∀ lp, lp ∈ loop_predictions (top_x_loop_prediction_set r) →
             pair_le (top_x_rmsd r, top_x_score r) (rmsd lp, score lp))
    ∧ top_1_rmsd r = rmsd (best_scoring_structure r)
    ∧ head l1 = Some (best_scoring_structure r)
    ∧ last (take (Z.to_nat expectn) l1) = Some (worst_scoring_structure r)
    ∧ rmsd_le (top_x_rmsd r) (top_1_rmsd r)
    ∧ num_le (top_x_score r) (score (worst_scoring_structure r))
    ∧ head (loop_predictions (top_x_loop_prediction_set r))
      = Some (best_scoring_structure r).
Proof.
  intros Hc Hwt Hnn Hr Htop Hn.
  destruct (select_structures_ok expectn top_x s)
    as (l1 & median & best & worst & Hs & Hp & Hsel & Hmed & Hbest & Hworst);
    [done|done|lia|lia|].
  specialize (Hs Hnn).
  set (l2 := take (Z.to_nat expectn) l1) in *.
  assert (Forall no_nan l2) as Hnn2
    by (unfold l2; apply Forall_take; by rewrite Hp).
  assert (Sorted before_by_score l2) as Hs2
    by (unfold l2; by apply (Sorted_take before_by_score)).
  assert (NoDup (id <$> l2)) as Hnd2.
  { unfold l2. apply NoDup_take_ids. rewrite Hp. by destruct Hc. }
  assert (Forall well_typed l2) as Hwt2
    by (unfold l2; apply Forall_take; by rewrite Hp).
  assert (Forall (λ lp, rmsd lp ≠ None) l2) as Hr2
    by (unfold l2; apply Forall_take; by rewrite Hp).
  assert (l2 ≠ []) as Hne2.
  { unfold l2. apply take_nonempty; [lia|].
    intros ->. apply Permutation_nil in Hp. rewrite Hp in Hn. simpl in Hn. lia. }
  destruct (subangstrom_percentages_ok l2 top_x) as [[[by_top_x total] txp] Hsub];
    [done..|lia|].
  destruct (closest_model_ok l2) as ([c_rmsd c_score] & s' & Hclosest); [done..|].
  destruct (top_x_metrics_ok l2 top_x best worst)
    as (r & sc & Hmetrics & (lp & Hlp & Heq) & Hall & Hle & Hsc); [done..|lia|].
  eexists _, s', l1. split.
  { unfold analyze_case. rewrite bind_eq, Hsel. cbn beta iota.
    rewrite bind_eq, Hsub. cbn beta iota.
    rewrite bind_eq, Hclosest. cbn beta iota.
    rewrite bind_eq, lift_eq, Hmetrics. reflexivity. }
  cbn [top_x_loop_prediction_set top_x_rmsd top_x_score top_1_rmsd
       best_scoring_structure worst_scoring_structure loop_predictions slice_of].
  injection Heq as -> ->.
  repeat split; try done.
  - by exists lp.
  - rewrite head_lookup. rewrite head_lookup in Hbest. unfold l2 in Hbest.
    rewrite lookup_take_lt in Hbest by lia. done.
  - rewrite head_lookup, lookup_take_lt by lia. by rewrite <- head_lookup.
Qed.


(** ** Further properties of construction and insertion *)

Lemma store_all_snoc (m : gmap Z LoopPrediction) (l : list LoopPrediction)
    (x : LoopPrediction) :
  store_all m (l ++ [x]) = <[id x := x]> (store_all m l).
Proof. unfold store_all. by rewrite foldl_snoc. Qed.

Lemma store_all_lookup (l : list LoopPrediction) (i : Z) :
  store_all ∅ l !! i = last (filter (λ lp, id lp = i) l).
Proof.
  induction l as [|x l IH] using rev_ind; [done|].
  rewrite store_all_snoc, filter_app, filter_cons, filter_nil.
  destruct (decide (id x = i)) as [<-|Hne].
  - by rewrite lookup_insert_eq, last_snoc.
  - by rewrite lookup_insert_ne, app_nil_r.
Qed.

(** X1. [from_list] never fails, whatever the ids: the set it returns
    has the given list as its sequence, and [get] on it answers, for an
    id, the last record of the list with that id ([None] when there is
    none). *)
Theorem from_list_keeps_the_last_of_an_id (l : list LoopPrediction) :
  ∃ s, from_list l = Ok s
       ∧ loop_predictions s = l
       ∧ ∀ i, get i s = (Ok (last (filter (λ lp, id lp = i) l)), s).
Proof.
  eexists. split; [apply from_list_eq|]. split; [done|].
  intros i. rewrite get_eq. simpl. by rewrite store_all_lookup.
Qed.

(** X2. [from_list] on records with pairwise distinct ids returns a set
    with unique ids whose mapping agrees with its sequence, and every
    record of the list is retrievable by its id. *)
Theorem from_list_of_distinct_ids_is_consistent (l : list LoopPrediction) :
  NoDup (id <$> l) →
  ∃ s, from_list l = Ok s
       ∧ loop_predictions s = l
       ∧ consistent s
       ∧ ∀ lp, lp ∈ l → get (id lp) s = (Ok (Some lp), s).
Proof.
  intros Hnd. eexists. split; [apply from_list_eq|]. split; [done|].
  assert (consistent {| loop_predictions := l; loop_prediction_map := store_all ∅ l |})
    as Hc by (split; [done|by apply store_all_unique]).
  split; [done|]. intros lp Hin. rewrite get_eq. f_equal. f_equal.
  by apply (consistent_lookup _ _ Hc).
Qed.

(** X3. [add] of a new id to a set with unique ids and an agreeing
    mapping keeps both: the record is appended at the end, the length
    grows by one, the new record is retrievable by its id, and the
    lookup of every other id is as before. *)
Theorem add_of_a_new_id_keeps_the_set_consistent (i : Z) (sc : number)
    (pid : option string) (r : option number) (path : option string)
    (mx : option residue_matrix) (s : LoopPredictionSet) (lp : LoopPrediction) :
  consistent s → i ∉ id <$> loop_predictions s →
  LoopPrediction_init i sc pid r path mx = Ok lp →
  ∃ s', add i sc pid r path mx s = (Ok lp, s')
        ∧ loop_predictions s' = loop_predictions s ++ [lp]
        ∧ consistent s'
        ∧ get i s' = (Ok (Some lp), s')
        ∧ ∀ j, j ≠ i → (get j s').1 = (get j s).1.
Proof.
  intros [Hnd Hm] Hnew Hinit.
  assert (id lp = i) as Hid.
  { unfold LoopPrediction_init in Hinit.
    destruct (_check_types _); simpl in Hinit; [|done]. by injection Hinit as <-. }
  assert (NoDup (id <$> (loop_predictions s ++ [lp]))) as Hnd'.
  { rewrite fmap_app. apply NoDup_app. split; [done|]. split.
    - intros j Hj Hj'. simpl in Hj'. apply list_elem_of_singleton in Hj'.
      rewrite Hid in Hj'. by subst.
    - simpl. apply NoDup_singleton. }
  eexists. split; [by rewrite add_eq, Hinit|]. split; [done|].
  split; [|split].
  - split; [done|]. simpl. rewrite Hm, <- Hid. symmetry.
    rewrite (list_to_map_proper _ (keyed (lp :: loop_predictions s))); [done| |].
    + by rewrite keyed_fst.
    + unfold keyed. by rewrite <- Permutation_cons_append.
  - rewrite get_eq. simpl. by rewrite lookup_insert_eq.
  - intros j Hj. rewrite !get_eq. simpl. by rewrite lookup_insert_ne.
Qed.

(** X4. [add] with a path to a file that does not exist raises the
    [AssertionError] of the record's type check and leaves the set as it
    was: nothing is appended and nothing is stored. *)
Theorem add_with_a_missing_file_changes_nothing (i : Z) (sc : number)
    (pid : option string) (r : option number) (p : string)
    (mx : option residue_matrix) (s : LoopPredictionSet) :
  p ≠ "" → os_path_exists p = false →
  add i sc pid r (Some p) mx s = (Raise AssertionError, s).
Proof.
  intros Hp Hex. rewrite add_eq.
  unfold LoopPrediction_init, _check_types. simpl.
  destruct (number_truth r); simpl;
    (destruct (String.eqb_spec p ""); [done|]); simpl; by rewrite Hex.
Qed.


(** ** Further properties of truncation *)

Lemma list_getslice_from_negative {A} (l : list A) (n : Z) :
  n < 0 →
  list_getslice l {| start := Some n; stop := None; step := None |}
  = Ok (drop (Z.to_nat (Z.of_nat (length l) + n)) l).
Proof.
  intros Hn. unfold list_getslice, slice_indices. simpl.
  case_compare; rewrite map_result_getitem_xrange by lia;
    (rewrite take_ge by (rewrite length_drop; lia)); f_equal; f_equal; lia.
Qed.

Lemma list_getslice_upto_negative {A} (l : list A) (n : Z) :
  n < 0 →
  list_getslice l {| start := None; stop := Some n; step := None |}
  = Ok (take (Z.to_nat (Z.of_nat (length l) + n)) l).
Proof.
  intros Hn. unfold list_getslice, slice_indices. simpl.
  case_compare; rewrite map_result_getitem_xrange by lia;
    change (Z.to_nat 0) with 0%nat; rewrite drop_0, Z.sub_0_r;
    first [ f_equal; f_equal; lia | rewrite !take_ge by lia; done ].
Qed.

Lemma truncate_to (k : nat) (n : Z) (s : LoopPredictionSet) :
  consistent s →
  list_getslice (loop_predictions s) {| start := Some n; stop := None; step := None |}
  = Ok (drop k (loop_predictions s)) →
  list_getslice (loop_predictions s) {| start := None; stop := Some n; step := None |}
  = Ok (take k (loop_predictions s)) →
  truncate n s = (Ok tt, set_of (take k (loop_predictions s))).
Proof.
  intros [Hnd Hm] Hfrom Hupto. unfold truncate. run.
  rewrite Hfrom. simpl.
  rewrite (truncate_delete_loop _ (take k (loop_predictions s)));
    [|by rewrite take_drop..]. simpl.
  rewrite Hupto. simpl.
  unfold assert. rewrite bool_decide_eq_true_2; [done|].
  apply sorted_unique. rewrite <- keyed_fst.
  apply fmap_Permutation. symmetry. apply map_to_list_to_map.
  rewrite keyed_fst. by apply NoDup_take_ids.
Qed.

Lemma consistent_set_of (s : LoopPredictionSet) :
  consistent s → set_of (loop_predictions s) = s.
Proof. intros [_ Hm]. destruct s. simpl in *. unfold set_of. simpl. by rewrite Hm. Qed.

(** X5. On a set with unique ids and an agreeing mapping, [truncate(n)]
    with n at least the length changes nothing. *)
Theorem truncate_beyond_the_length_changes_nothing (n : Z) (s : LoopPredictionSet) :
  consistent s → Z.of_nat (length (loop_predictions s)) ≤ n →
  truncate n s = (Ok tt, s).
Proof.
  intros Hc Hn.
  rewrite (truncate_to (Z.to_nat n)); [| done | apply list_getslice_from; lia
                                       | apply list_getslice_upto; lia].
  rewrite take_ge by lia. by rewrite consistent_set_of.
Qed.

(** X6. With a negative n, [truncate(n)] does not keep "the first n"
    records: the two slices count from the end, so the last -n records
    are discarded and the first L + n are kept (none when n <= -L); the
    mapping follows and the closing check passes. *)
Theorem truncate_with_a_negative_count_drops_from_the_end (n : Z)
    (s : LoopPredictionSet) :
  consistent s → n < 0 →
  truncate n s
  = (Ok tt, set_of (take (Z.to_nat (Z.of_nat (length (loop_predictions s)) + n))
                         (loop_predictions s))).
Proof.
  intros Hc Hn. apply truncate_to; [done|..].
  - by apply list_getslice_from_negative.
  - by apply list_getslice_upto_negative.
Qed.

(** X7. Two truncations in a row amount to one truncation to the
    smaller count. *)
Theorem truncate_twice_is_truncate_to_the_minimum (n m : Z) (s : LoopPredictionSet) :
  consistent s → 0 ≤ n → 0 ≤ m →
  (truncate n;; truncate m) s = truncate (Z.min n m) s.
Proof.
  intros Hc Hn Hm. rewrite bind_eq, (truncate_ok n s) by done.
  rewrite (truncate_ok m) by (by apply consistent_take || lia).
  rewrite (truncate_ok (Z.min n m) s) by (done || lia). simpl.
  rewrite take_take.
  replace (Z.to_nat m `min` Z.to_nat n)%nat with (Z.to_nat (Z.min n m)) by lia.
  done.
Qed.


(** ** Further properties of indexed access and of slices *)

Lemma list_getitem_below (A : Type) (l : list A) (i : Z) :
  i < - Z.of_nat (length l) →
  list_getitem l i = Raise (IndexError ListIndexOutOfRange).
Proof. intros Hi. unfold list_getitem. by case_compare. Qed.

(** X8. An index below -L is answered by the built-in list, not by the
    set: the error is the list's own [IndexError], with its own message,
    and the set is left as it was. A non-negative index below L reads
    the record at that position. *)
Theorem index_below_minus_length_is_left_to_the_list (i : Z) (s : LoopPredictionSet) :
  let L := Z.of_nat (length (loop_predictions s)) in
  (i < - L → getitem (KInt i) s = (Raise (IndexError ListIndexOutOfRange), s))
  ∧ (0 ≤ i < L →
     ∃ lp, loop_predictions s !! Z.to_nat i = Some lp
           ∧ getitem (KInt i) s = (Ok (ItemPrediction lp), s)).
Proof.
  intros L. split.
  - intros Hi. unfold getitem. rewrite bind_eq, getitem_int_eq. fold L.
    case_compare. by rewrite list_getitem_below.
  - intros Hi.
    destruct (lookup_lt_is_Some_2 (loop_predictions s) (Z.to_nat i)) as [lp Hlp];
      [unfold L in Hi; lia|].
    exists lp. split; [done|]. unfold getitem.
    rewrite bind_eq, <- (Z2Nat.id i) by lia.
    by rewrite (getitem_int_lookup _ lp).
Qed.

Lemma slice_indices_bounds (k : slice) (len s e st : Z) :
  0 ≤ len → slice_indices k len = Ok (s, e, st) →
  st ≠ 0
  ∧ (0 < st → 0 ≤ s ≤ len ∧ 0 ≤ e ≤ len)
  ∧ (st < 0 → -1 ≤ s ≤ len - 1 ∧ -1 ≤ e ≤ len - 1).
Proof.
  intros Hlen. unfold slice_indices.
  destruct (Z.eqb_spec (default 1 (step k)) 0) as [|Hst]; [done|].
  intros [= <- <- <-]. split; [done|].
  destruct (start k) as [a|], (stop k) as [b|];
    split; intros ?; case_compare; lia.
Qed.

Lemma elem_of_xrange (s e st j : Z) :
  j ∈ xrange s e st →
  (0 < st → s ≤ j < e) ∧ (st < 0 → e < j ≤ s).
Proof.
  unfold xrange. intros Hj.
  apply list_elem_of_fmap in Hj as (i & -> & Hi). apply elem_of_seq in Hi.
  split; intros Hst.
  - destruct (Z.ltb_spec 0 st); [|lia].
    destruct (Z.ltb_spec s e); [|simpl in Hi; lia].
    pose proof (Z.mul_div_le (e - s - 1) st). nia.
  - destruct (Z.ltb_spec 0 st); [lia|].
    destruct (Z.ltb_spec e s); [|simpl in Hi; lia].
    pose proof (Z.mul_div_le (s - e - 1) (- st)). nia.
Qed.

Lemma map_result_getitem_in_range (A : Type) (l : list A) (js : list Z) :
  Forall (λ j, 0 ≤ j < Z.of_nat (length l)) js →
  ∃ picked, map_result (list_getitem l) js = Ok picked
            ∧ Forall2 (λ j x, l !! Z.to_nat j = Some x) js picked.
Proof.
  induction 1 as [|j js Hj _ (picked & IH & Hall)]; [by exists []|].
  destruct (lookup_lt_is_Some_2 l (Z.to_nat j)) as [x Hx]; [lia|].
  exists (x :: picked). cbn [map_result].
  rewrite <- (Z2Nat.id j) at 1 by lia.
  rewrite (list_getitem_lookup _ _ x Hx). simpl. rewrite IH. simpl.
  split; [done|]. by constructor.
Qed.

Lemma list_getslice_ok (A : Type) (l : list A) (k : slice) :
  step k ≠ Some 0 →
  ∃ picked, list_getslice l k = Ok picked ∧ picked ⊆ l.
Proof.
  intros Hstep. unfold list_getslice.
  destruct (slice_indices k (Z.of_nat (length l))) as [[[s e] st]|err] eqn:E.
  - apply slice_indices_bounds in E as (Hst & Hpos & Hneg); [|lia]. simpl.
    destruct (map_result_getitem_in_range A l (xrange s e st)) as (picked & -> & Hall).
    { apply Forall_forall. intros j Hj. apply elem_of_xrange in Hj as [Hj1 Hj2].
      destruct (Z.lt_trichotomy st 0) as [?|[?|?]]; [|done|].
      - specialize (Hj2 ltac:(done)). specialize (Hneg ltac:(done)). lia.
      - specialize (Hj1 ltac:(done)). specialize (Hpos ltac:(done)). lia. }
    exists picked. split; [done|]. intros x Hx.
    apply list_elem_of_lookup in Hx as [n Hn].
    destruct (Forall2_lookup_r _ _ _ _ _ Hall Hn) as (j & _ & Hj).
    by eapply list_elem_of_lookup_2.
  - exfalso. unfold slice_indices in E.
    destruct (Z.eqb_spec (default 1 (step k)) 0) as [H0|]; [|done].
    destruct (step k) as [st|]; simpl in H0; [|done]. by subst.
Qed.

(** X9. A slice never raises an index error, whatever its bounds: with
    any start and stop and any step other than zero, [__getitem__]
    returns a new set whose records are records of the source and whose
    mapping holds exactly their ids, and the source is left as it was.
    A zero step is refused by [slice.indices] with a [ValueError]. *)
Theorem slice_never_raises_an_index_error (k : slice) (s : LoopPredictionSet) :
  (step k ≠ Some 0 →
   ∃ s', getitem (KSlice k) s = (Ok (ItemSet s'), s)
         ∧ loop_predictions s' ⊆ loop_predictions s
         ∧ ∀ i, i ∈ dom (loop_prediction_map s') ↔ i ∈ id <$> loop_predictions s')
  ∧ (step k = Some 0 →
     getitem (KSlice k) s = (Raise (ValueError "slice step cannot be zero"), s)).
Proof.
  split.
  - intros Hstep.
    destruct (list_getslice_ok _ (loop_predictions s) k Hstep) as (picked & Hp & Hsub).
    eexists. unfold getitem. rewrite bind_eq, getitem_slice_eq, Hp. simpl.
    rewrite from_list_eq. split; [done|]. simpl. split; [done|].
    intros i. apply store_all_dom.
  - intros Hstep. unfold getitem.
    rewrite bind_eq, getitem_slice_eq. unfold list_getslice, slice_indices.
    by rewrite Hstep.
Qed.

Lemma list_getslice_reversed (A : Type) (l : list A) :
  list_getslice l {| start := None; stop := None; step := Some (-1) |}
  = Ok (reverse l).
Proof.
  destruct (list_getslice_ok A l {| start := None; stop := None; step := Some (-1) |})
    as (picked & Hp & _); [done|].
  rewrite Hp. f_equal. revert Hp. unfold list_getslice, slice_indices. simpl.
  intros Hp.
  destruct (map_result_getitem_in_range A l
              (xrange (Z.of_nat (length l) - 1) (-1) (-1))) as (picked' & Hp' & Hall).
  { apply Forall_forall. intros j Hj. apply elem_of_xrange in Hj as [_ Hj]. lia. }
  rewrite Hp' in Hp. injection Hp as ->.
  assert (length picked = length l) as Hlen.
  { rewrite <- (Forall2_length _ _ _ Hall). unfold xrange. simpl.
    rewrite length_fmap, length_seq.
    destruct (Z.ltb_spec (-1) (Z.of_nat (length l) - 1)).
    - rewrite Z.div_1_r. lia.
    - lia. }
  apply list_eq. intros i.
  destruct (decide (i < length l)%nat) as [Hi|Hi].
  - rewrite reverse_lookup by done.
    destruct (lookup_lt_is_Some_2 picked i) as [x Hx]; [lia|]. rewrite Hx.
    destruct (Forall2_lookup_r _ _ _ _ _ Hall Hx) as (j & Hj & Hjx).
    rewrite <- Hjx. f_equal.
    unfold xrange in Hj. simpl in Hj. rewrite list_lookup_fmap in Hj.
    destruct (seq 0 _ !! i) as [i'|] eqn:Ei; [|done].
    apply lookup_seq in Ei as [-> _]. simpl in Hj. injection Hj as <-. lia.
  - rewrite !lookup_ge_None_2; [done|rewrite length_reverse; lia|lia].
Qed.

(** X10. The slice with step -1 and no bounds returns the set in
    reverse order. *)
Theorem slice_with_step_minus_one_reverses (s : LoopPredictionSet) :
  getitem (KSlice {| start := None; stop := None; step := Some (-1) |}) s
  = (Ok (ItemSet (slice_of (reverse (loop_predictions s)))), s).
Proof.
  unfold getitem.
  rewrite bind_eq, getitem_slice_eq, list_getslice_reversed. simpl.
  by rewrite from_list_eq.
Qed.

(** ** Further properties of the fraction below a threshold *)

Lemma length_filter_impl (P R : LoopPrediction → Prop)
    `{!∀ lp, Decision (P lp)} `{!∀ lp, Decision (R lp)} (l : list LoopPrediction) :
  (∀ lp, P lp → R lp) → (length (filter P l) ≤ length (filter R l))%nat.
Proof.
  intros Himpl. induction l as [|lp l IH]; [done|].
  rewrite !filter_cons.
  destruct (decide (P lp)) as [Hp|Hp].
  - rewrite decide_True by auto. simpl. lia.
  - destruct (decide (R lp)); simpl; lia.
Qed.

Lemma counted_mono (x y : Q) (strict : bool) (lp : LoopPrediction) :
  (x <= y)%Q → counted x strict lp → counted y strict lp.
Proof.
  intros Hxy [?|(d & Hd & Hlt)]; [by left|right].
  exists d. split; [done|]. destruct strict; lra.
Qed.

Lemma counted_strict (x : Q) (lp : LoopPrediction) :
  counted x true lp → counted x false lp.
Proof.
  intros [?|(d & Hd & Hlt)]; [by left|right].
  exists d. split; [done|]. simpl in *. lra.
Qed.

Lemma fraction_le (c1 c2 n : nat) :
  (c1 ≤ c2)%nat → (0 < n)%nat →
  (inject_Z (Z.of_nat c1) / inject_Z (Z.of_nat n)
   <= inject_Z (Z.of_nat c2) / inject_Z (Z.of_nat n))%Q.
Proof.
  intros Hc Hn. unfold Qdiv. apply Qmult_le_compat_r.
  - rewrite <- Zle_Qle. lia.
  - apply Qinv_le_0_compat. change 0%Q with (inject_Z 0). rewrite <- Zle_Qle. lia.
Qed.

(** X11. The fraction grows with the threshold, and the comparison with
    equality counts at least what the strict comparison counts. *)
Theorem fraction_with_rmsd_lt_is_monotone (x y : Q) (allow_failure strict : bool)
    (s : LoopPredictionSet) :
  loop_predictions s ≠ [] →
  allow_failure = true ∨ Forall (λ lp, rmsd lp ≠ None) (loop_predictions s) →
  (x <= y)%Q →
  ∃ qx qy q_lt q_le,
    fraction_with_rmsd_lt x allow_failure strict s = (Ok qx, s)
    ∧ fraction_with_rmsd_lt y allow_failure strict s = (Ok qy, s)
    ∧ (qx <= qy)%Q
    ∧ fraction_with_rmsd_lt x allow_failure true s = (Ok q_lt, s)
    ∧ fraction_with_rmsd_lt x allow_failure false s = (Ok q_le, s)
    ∧ (q_lt <= q_le)%Q.
Proof.
  intros Hne Hok Hxy. eexists _, _, _, _.
  rewrite !fraction_with_rmsd_lt_ok by done.
  assert (0 < length (loop_predictions s))%nat as Hpos
    by (destruct (loop_predictions s); [done|simpl; lia]).
  repeat split.
  - apply fraction_le; [|done]. apply length_filter_impl.
    intros lp. by apply counted_mono.
  - apply fraction_le; [|done]. apply length_filter_impl.
    intros lp. by apply counted_strict.
Qed.

Lemma count_rmsd_lt_outcome (x : Q) (allow_failure strict : bool)
    (l : list LoopPrediction) (c : Z) :
  (allow_failure = false ∧ Exists (λ lp, rmsd lp = None) l
   ∧ count_rmsd_lt x allow_failure strict l c = Raise (Exception_ missing_rmsd_message))
  ∨ ((allow_failure = true ∨ Forall (λ lp, rmsd lp ≠ None) l)
     ∧ ∃ n, (n ≤ length l)%nat
            ∧ count_rmsd_lt x allow_failure strict l c = Ok (c + Z.of_nat n)).
Proof.
  destruct allow_failure.
  - right. split; [by left|]. eexists. split; [|by apply count_rmsd_lt_counted; left].
    apply length_filter.
  - destruct (decide (Exists (λ lp, rmsd lp = None) l)) as [Hex|Hall].
    + left. split; [done|]. split; [done|]. by apply count_rmsd_lt_missing.
    + right. apply not_Exists_Forall in Hall; [|intros ?; apply _].
      split; [by right|].
      eexists. split; [|by apply count_rmsd_lt_counted; right].
      apply length_filter.
Qed.

(** X12. The outcomes of [fraction_with_rmsd_lt], on any set and with
    any flags: the set is never changed; the call raises the
    missing-RMSD exception exactly when [allow_failure] is off and a
    record lacks a deviation; it raises [ZeroDivisionError] exactly on
    the empty set; it raises nothing else; and a value it returns lies
    between 0 and 1. *)
Theorem fraction_with_rmsd_lt_outcomes (x : Q) (allow_failure strict : bool)
    (s : LoopPredictionSet) :
  let r := fraction_with_rmsd_lt x allow_failure strict s in
  r.2 = s
  ∧ (r.1 = Raise (Exception_ missing_rmsd_message)
     ↔ allow_failure = false ∧ Exists (λ lp, rmsd lp = None) (loop_predictions s))
  ∧ (r.1 = Raise ZeroDivisionError ↔ loop_predictions s = [])
  ∧ (∀ e, r.1 = Raise e →
          e = Exception_ missing_rmsd_message ∨ e = ZeroDivisionError)
  ∧ (∀ q, r.1 = Ok q → (0 <= q <= 1)%Q).
Proof.
  intros r. unfold r. rewrite fraction_with_rmsd_lt_eq. cbn [fst snd].
  split; [done|].
  destruct (count_rmsd_lt_outcome x allow_failure strict (loop_predictions s) 0)
    as [(Haf & Hex & ->)|(Hok & n & Hn & ->)]; simpl.
  - split; [done|]. split; [|split; [|done]].
    + split; [done|]. intros Hnil. rewrite Hnil in Hex. by apply Exists_nil in Hex.
    + intros e [= <-]. by left.
  - unfold float_div.
    destruct (Z.eqb_spec (Z.of_nat (length (loop_predictions s))) 0) as [H0|H0].
    + assert (loop_predictions s = []) as Hnil
        by (destruct (loop_predictions s); [done|simpl in H0; lia]).
      split; [|split; [done|split; [|done]]].
      * split; [done|]. intros [_ Hex]. rewrite Hnil in Hex.
        by apply Exists_nil in Hex.
      * intros e [= <-]. by right.
    + split; [|split; [|split; [done|]]].
      * split; [done|]. intros [-> Hex]. exfalso. destruct Hok as [?|Hall]; [done|].
        apply Exists_exists in Hex as (lp & Hin & Hlp).
        by apply (proj1 (Forall_forall _ _) Hall lp Hin).
      * split; [done|]. intros Hnil. rewrite Hnil in H0. simpl in H0. lia.
      * intros q [= <-]. apply fraction_in_unit_interval; lia.
Qed.

(** ** Further properties of the comparators *)

Lemma check_types_outcome (lp : LoopPrediction) :
  _check_types lp = Ok tt ∨ _check_types lp = Raise AssertionError.
Proof.
  unfold _check_types, assert.
  destruct (number_truth _), (string_truth _); simpl; auto;
    destruct (os_path_exists _); auto.
Qed.

Lemma comparator_raises (f : LoopPrediction → LoopPrediction → result Z)
    (a b : LoopPrediction) :
  (id a ≠ id b → well_typed a → well_typed b → f a b = Ok (-1) ∨ f a b = Ok 1) →
  (id a = id b ∨ ¬ well_typed a ∨ ¬ well_typed b → f a b = Raise AssertionError) →
  (f a b = Raise AssertionError
   ↔ id a = id b ∨ ¬ well_typed a ∨ ¬ well_typed b)
  ∧ (∀ e, f a b = Raise e → e = AssertionError)
  ∧ f a b ≠ Ok 0.
Proof.
  intros Hdec Hraise.
  destruct (decide (id a = id b)) as [Hid|Hid];
    [|destruct (check_types_outcome a) as [Ha|Ha];
      [destruct (check_types_outcome b) as [Hb|Hb]|]].
  - rewrite Hraise by auto. repeat split; auto; congruence.
  - destruct (Hdec Hid Ha Hb) as [->| ->]; repeat split; try done;
      intros [?|[?|?]]; done.
  - assert (¬ well_typed b) by (unfold well_typed; congruence).
    rewrite Hraise by auto. repeat split; auto; congruence.
  - assert (¬ well_typed a) by (unfold well_typed; congruence).
    rewrite Hraise by auto. repeat split; auto; congruence.
Qed.

Lemma sort_by_score_raises (a b : LoopPrediction) :
  id a = id b ∨ ¬ well_typed a ∨ ¬ well_typed b →
  LoopPrediction_sort_by_score a b = Raise AssertionError.
Proof.
  unfold LoopPrediction_sort_by_score, well_typed.
  destruct (Z.eqb_spec (id a) (id b)); [done|]. simpl.
  destruct (check_types_outcome a) as [->| ->]; [|done]. simpl.
  destruct (check_types_outcome b) as [->| ->]; [|done].
  intros [?|[?|?]]; done.
Qed.

Lemma sort_by_rmsd_raises (a b : LoopPrediction) :
  id a = id b ∨ ¬ well_typed a ∨ ¬ well_typed b →
  LoopPrediction_sort_by_rmsd a b = Raise AssertionError.
Proof.
  unfold LoopPrediction_sort_by_rmsd, well_typed.
  destruct (Z.eqb_spec (id a) (id b)); [done|]. simpl.
  destruct (check_types_outcome a) as [->| ->]; [|done]. simpl.
  destruct (check_types_outcome b) as [->| ->]; [|done].
  intros [?|[?|?]]; done.
Qed.

(** X13. When a comparator fails: each of the two raises
    [AssertionError] exactly when the two records have the same id or
    one of them does not pass its type check (its file has gone); it
    raises nothing else, and it never answers 0, so no two records
    compare as equal. *)
Theorem comparators_raise_on_equal_ids (a b : LoopPrediction) :
  ((LoopPrediction_sort_by_score a b = Raise AssertionError
    ↔ id a = id b ∨ ¬ well_typed a ∨ ¬ well_typed b)
   ∧ (∀ e, LoopPrediction_sort_by_score a b = Raise e → e = AssertionError)
   ∧ LoopPrediction_sort_by_score a b ≠ Ok 0)
  ∧ ((LoopPrediction_sort_by_rmsd a b = Raise AssertionError
      ↔ id a = id b ∨ ¬ well_typed a ∨ ¬ well_typed b)
     ∧ (∀ e, LoopPrediction_sort_by_rmsd a b = Raise e → e = AssertionError)
     ∧ LoopPrediction_sort_by_rmsd a b ≠ Ok 0).
Proof.
  split.
  - apply comparator_raises.
    + apply sort_by_score_answers.
    + apply sort_by_score_raises.
  - apply comparator_raises.
    + apply sort_by_rmsd_answers.
    + apply sort_by_rmsd_raises.
Qed.


(** ** Further properties of the per-case analysis *)

Lemma xrange_from_1 (n : Z) : xrange 1 (n + 1) 1 = seqZ 1 n.
Proof.
  unfold xrange, seqZ. simpl.
  destruct (Z.ltb_spec 1 (n + 1)).
  - rewrite Z.div_1_r. replace (n + 1 - 1 - 1 + 1) with n by lia.
    apply list_fmap_ext. intros. lia.
  - by replace (Z.to_nat n) with 0%nat by lia.
Qed.

Lemma map_M_fmap {St A B} (f : A → M St B) (g : A → B) (l : list A) (s : St) :
  (∀ x, x ∈ l → f x s = (Ok (g x), s)) → map_M f l s = (Ok (g <$> l), s).
Proof.
  induction l as [|x l IH]; intros Hf; [done|].
  cbn [map_M]. rewrite bind_eq, Hf by (by left).
  rewrite bind_eq, IH by (intros; apply Hf; by right). done.
Qed.

Lemma fraction_below_1 (s : LoopPredictionSet) :
  loop_predictions s ≠ [] → Forall (λ lp, rmsd lp ≠ None) (loop_predictions s) →
  fraction_with_rmsd_lt 1 false true s
  = (Ok (inject_Z (Z.of_nat (length (filter (deviation_below 1 true)
                                            (loop_predictions s))))
         / inject_Z (Z.of_nat (length (loop_predictions s))))%Q, s).
Proof.
  intros Hne Hr. rewrite fraction_with_rmsd_lt_ok by auto.
  by rewrite filter_counted_present.
Qed.

Lemma subangstrom_percentages_spec (l2 : list LoopPrediction) (top_x : Z) :
  Sorted before_by_score l2 → NoDup (id <$> l2) → Forall well_typed l2 →
  Forall no_nan l2 →
  Forall (λ lp, rmsd lp ≠ None) l2 → l2 ≠ [] → 1 ≤ top_x →
  subangstrom_percentages (slice_of (take (Z.to_nat top_x) l2)) (set_of l2)
  = (Ok ((λ k, (k, percent_below (take (Z.to_nat k) l2)))
           <$> seqZ 1 (Z.of_nat (length l2)),
         percent_below l2, percent_below (take (Z.to_nat top_x) l2)),
     set_of l2).
Proof.
  intros Hs Hnd Hwt Hnn Hr Hne Htop. unfold subangstrom_percentages.
  rewrite bind_eq, (sort_by_score_of_permutation (set_of l2) (set_of l2) l2) by done.
  change (with_loop_predictions l2 (set_of l2)) with (set_of l2).
  rewrite bind_eq, len_eq.
  rewrite bind_eq.
  rewrite (map_M_fmap _ (λ k, (k, percent_below (take (Z.to_nat k) l2)))).
  - rewrite bind_eq, fraction_below_1 by done.
    rewrite bind_eq, on_eq, fraction_below_1;
      [|simpl; by apply take_nonempty|simpl; by apply Forall_take].
    cbn [fst loop_predictions set_of slice_of]. by rewrite xrange_from_1.
  - intros k Hk%elem_of_xrange_from_1.
    rewrite bind_eq, getitem_slice_upto by lia.
    rewrite bind_eq, on_eq, fraction_below_1;
      [done|simpl; apply take_nonempty; [lia|done]|simpl; by apply Forall_take].
Qed.

Lemma before_by_rmsd_le (a b : LoopPrediction) :
  before_by_rmsd a b → rmsd_le (rmsd a) (rmsd b).
Proof. intros [?|[? _]]; [by left|by right]. Qed.

Lemma closest_model_spec (l2 : list LoopPrediction) :
  NoDup (id <$> l2) → Forall well_typed l2 → Forall no_nan l2 → l2 ≠ [] →
  ∃ l3 closest,
    Sorted before_by_rmsd l3 ∧ l3 ≡ₚ l2 ∧ head l3 = Some closest
    ∧ (∀ lp, lp ∈ l2 → rmsd_le (rmsd closest) (rmsd lp))
    ∧ closest_model (set_of l2)
      = (Ok (rmsd closest, score closest), with_loop_predictions l3 (set_of l2)).
Proof.
  intros Hnd Hwt Hnn Hne. unfold closest_model.
  destruct (sort_by_rmsd_ok (set_of l2)) as (l3 & Hsort & Hp & Hs); [done..|].
  specialize (Hs Hnn). simpl in Hp.
  destruct l3 as [|c l3]; [apply Permutation_nil in Hp; by destruct Hne|].
  exists (c :: l3), c. split; [done|]. split; [done|]. split; [done|]. split.
  - intros lp Hin. rewrite <- Hp in Hin.
    apply (Sorted_StronglySorted before_by_rmsd) in Hs.
    apply StronglySorted_inv in Hs as [_ Hall].
    apply elem_of_cons in Hin as [->|Hin].
    { right. apply rmsd_eq_refl.
      apply (proj1 (Forall_forall _ _) Hnn c). rewrite <- Hp. by left. }
    apply before_by_rmsd_le. by apply (proj1 (Forall_forall _ _) Hall).
  - rewrite bind_eq, Hsort.
    rewrite bind_eq, (getitem_int_lookup 0 c) by done.
    rewrite bind_eq, (getitem_int_lookup 0 c) by done.
    done.
Qed.

Lemma analyze_case_spec (expectn top_x : Z) (s : LoopPredictionSet) :
  consistent s → Forall well_typed (loop_predictions s) →
  Forall no_nan (loop_predictions s) →
  Forall (λ lp, rmsd lp ≠ None) (loop_predictions s) →
  1 ≤ top_x ≤ expectn → expectn ≤ Z.of_nat (length (loop_predictions s)) →
  ∃ l1 l2 l3 median best worst closest r sc,
    Sorted before_by_score l1 ∧ l1 ≡ₚ loop_predictions s
    ∧ l2 = take (Z.to_nat expectn) l1
    ∧ Sorted before_by_rmsd l3 ∧ l3 ≡ₚ l2
    ∧ l2 !! Z.to_nat (expectn / 2) = Some median
    ∧ head l2 = Some best ∧ last l2 = Some worst ∧ head l3 = Some closest
    ∧ (∀ lp, lp ∈ l2 → rmsd_le (rmsd closest) (rmsd lp))
    ∧ (∃ lp, lp ∈ take (Z.to_nat top_x) l2 ∧ (r, sc) = (rmsd lp, score lp))
    ∧ (∀ lp, lp ∈ take (Z.to_nat top_x) l2 → pair_le (r, sc) (rmsd lp, score lp))
    ∧ rmsd_le r (rmsd best)
    ∧ analyze_case expectn top_x s
      = (Ok {| top_x_loop_prediction_set := slice_of (take (Z.to_nat top_x) l2);
               median_scoring_structure := median;
               best_scoring_structure := best;
               worst_scoring_structure := worst;
               percent_subangstrom_by_top_x :=
                 (λ k, (k, percent_below (take (Z.to_nat k) l2))) <$> seqZ 1 expectn;
               total_percent_subangstrom := percent_below l2;
               top_x_percent_subangstrom := percent_below (take (Z.to_nat top_x) l2);
               closest_rmsd := rmsd closest;
               closest_score := score closest;
               top_1_rmsd := rmsd best;
               top_x_rmsd := r;
               top_x_score := sc |},
         with_loop_predictions l3 (set_of l2)).
Proof.
  intros Hc Hwt Hnn Hr Htop Hn.
  destruct (select_structures_ok expectn top_x s)
    as (l1 & median & best & worst & Hs & Hp & Hsel & Hmed & Hbest & Hworst);
    [done|done|lia|lia|].
  specialize (Hs Hnn).
  set (l2 := take (Z.to_nat expectn) l1) in *.
  assert (Sorted before_by_score l2) as Hs2
    by (unfold l2; by apply (Sorted_take before_by_score)).
  assert (NoDup (id <$> l2)) as Hnd2.
  { unfold l2. apply NoDup_take_ids. rewrite Hp. by destruct Hc. }
  assert (Forall well_typed l2) as Hwt2
    by (unfold l2; apply Forall_take; by rewrite Hp).
  assert (Forall no_nan l2) as Hnn2
    by (unfold l2; apply Forall_take; by rewrite Hp).
  assert (Forall (λ lp, rmsd lp ≠ None) l2) as Hr2
    by (unfold l2; apply Forall_take; by rewrite Hp).
  assert (length l2 = Z.to_nat expectn) as Hlen2.
  { unfold l2. rewrite length_take, Hp. lia. }
  assert (l2 ≠ []) as Hne2.
  { intros Hnil. rewrite Hnil in Hlen2. simpl in Hlen2. lia. }
  pose proof (subangstrom_percentages_spec l2 top_x Hs2 Hnd2 Hwt2 Hnn2 Hr2 Hne2
                ltac:(lia)) as Hsub.
  rewrite Hlen2, Z2Nat.id in Hsub by lia.
  destruct (closest_model_spec l2) as (l3 & closest & Hs3 & Hp3 & Hc3 & Hmin & Hclosest);
    [done..|].
  destruct (top_x_metrics_ok l2 top_x best worst)
    as (r & sc & Hmetrics & Hwho & Hall & Hle & Hsc); [done..|lia|].
  exists l1, l2, l3, median, best, worst, closest, r, sc.
  do 13 (split; [done|]).
  unfold analyze_case. rewrite bind_eq, Hsel. cbn beta iota.
  rewrite bind_eq, Hsub. cbn beta iota.
  rewrite bind_eq, Hclosest. cbn beta iota.
  rewrite bind_eq, lift_eq, Hmetrics. reflexivity.
Qed.

Lemma list_getslice_nil (A : Type) (k : slice) :
  step k ≠ Some 0 → list_getslice (@nil A) k = Ok [].
Proof.
  intros Hk. destruct (list_getslice_ok A [] k Hk) as (picked & -> & Hsub).
  f_equal. destruct picked as [|x picked]; [done|].
  destruct (proj1 (elem_of_nil x)). apply Hsub. by left.
Qed.

(** X14. When the number of structures is not the expected one. On a
    set with unique ids, the analysis of a case leaves with
    [sys.exit(1)] when the set holds fewer than [expectn] records, and
    also for every negative [expectn]; the set has been sorted by score
    by then (and, for a negative [expectn], has lost its last records).
    With [expectn] = 0 the truncation empties the set, the count is the
    expected one, and the analysis fails on the median with the set's
    own [IndexError]. The sequence [l1] that the sort leaves is in score
    order when no score and no deviation is [nan]; the exits are the
    same with [nan] among them. *)
Theorem analysis_stops_on_a_wrong_number_of_structures (expectn top_x : Z)
    (s : LoopPredictionSet) :
  consistent s → Forall well_typed (loop_predictions s) →
  let L := Z.of_nat (length (loop_predictions s)) in
  ∃ l1, (Forall no_nan (loop_predictions s) → Sorted before_by_score l1)
    ∧ l1 ≡ₚ loop_predictions s
    ∧ (L < expectn →
       analyze_case expectn top_x s = (Raise (SystemExit 1), set_of l1))
    ∧ (expectn < 0 →
       analyze_case expectn top_x s
       = (Raise (SystemExit 1), set_of (take (Z.to_nat (L + expectn)) l1)))
    ∧ (expectn = 0 →
       analyze_case expectn top_x s
       = (Raise (IndexError (SetIndexMessage 0 0)), set_of [])).
Proof.
  intros Hc Hwt L. pose proof Hc as [Hnd _].
  destruct (sort_by_score_ok s Hwt Hnd) as (l1 & Hsort & Hp & Hs).
  assert (length l1 = length (loop_predictions s)) as Hlen by (by rewrite Hp).
  pose proof (consistent_permutation s l1 Hc Hp) as Hc1.
  exists l1. split; [done|]. split; [done|].
  assert (∀ r s', select_structures expectn top_x s = (Raise r, s') →
                 analyze_case expectn top_x s = (Raise r, s')) as Hstop.
  { intros r s' Hsel. unfold analyze_case. by rewrite bind_eq, Hsel. }
  split; [|split].
  - intros Hfew. apply Hstop. unfold select_structures.
    rewrite bind_eq, Hsort.
    rewrite bind_eq, truncate_ok by (done || lia).
    cbn [loop_predictions with_loop_predictions].
    rewrite take_ge by lia. fold (set_of l1).
    rewrite bind_eq, len_eq. cbn [loop_predictions set_of]. rewrite Hlen. fold L.
    destruct (Z.eqb_spec L expectn); [lia|done].
  - intros Hneg. apply Hstop. unfold select_structures.
    rewrite bind_eq, Hsort.
    rewrite bind_eq, (truncate_to (Z.to_nat (Z.of_nat (length l1) + expectn)));
      [|done|by apply list_getslice_from_negative
       |by apply list_getslice_upto_negative].
    cbn [loop_predictions with_loop_predictions]. rewrite Hlen. fold L.
    rewrite bind_eq, len_eq. cbn [loop_predictions set_of].
    destruct (Z.eqb_spec (Z.of_nat (length (take (Z.to_nat (L + expectn)) l1)))
                expectn); [lia|done].
  - intros ->. apply Hstop. unfold select_structures.
    rewrite bind_eq, Hsort.
    rewrite bind_eq, truncate_ok by (done || lia).
    cbn [loop_predictions with_loop_predictions].
    change (Z.to_nat 0) with 0%nat. rewrite take_0. fold (set_of []).
    rewrite bind_eq, len_eq. cbn [loop_predictions set_of length].
    rewrite bind_eq. change (negb (Z.of_nat 0 =? 0)) with false.
    cbn [mret M_ret]. cbn iota.
    rewrite bind_eq, getitem_slice_eq. cbn [loop_predictions set_of].
    rewrite list_getslice_nil by done. cbn [mbind result_bind].
    rewrite from_list_eq.
    by rewrite bind_eq, getitem_int_eq.
Qed.

(** X15. The three deviations that the analysis reports for a case are
    ordered, when no score and no deviation is [nan]: the closest model
    is at most the TopX model, which is at most the Top1 model. The
    records that the analysis keeps are the [expectn] best scoring ones,
    the first [expectn] of the records in score order; the closest
    deviation is the deviation of one of them, the least among them, and
    a number. The analysis leaves the set with these records, with
    unique ids and an agreeing mapping, and sorted by deviation, not by
    score. *)
Theorem closest_top_x_and_top_1_are_ordered (expectn top_x : Z)
    (s : LoopPredictionSet) :
  consistent s → Forall well_typed (loop_predictions s) →
  Forall no_nan (loop_predictions s) →
  Forall (λ lp, rmsd lp ≠ None) (loop_predictions s) →
  1 ≤ top_x ≤ expectn → expectn ≤ Z.of_nat (length (loop_predictions s)) →
  ∃ r s' l1,
    analyze_case expectn top_x s = (Ok r, s')
    ∧ Sorted before_by_score l1 ∧ l1 ≡ₚ loop_predictions s
    ∧ loop_predictions s' ≡ₚ take (Z.to_nat expectn) l1
    ∧ rmsd_le (closest_rmsd r) (top_x_rmsd r)
    ∧ rmsd_le (top_x_rmsd r) (top_1_rmsd r)
    ∧ (∃ lp, lp ∈ take (Z.to_nat expectn) l1 ∧ closest_rmsd r = rmsd lp)
    ∧ (∀ lp, lp ∈ take (Z.to_nat expectn) l1 →
             rmsd_le (closest_rmsd r) (rmsd lp))
    ∧ (∃ d : Q, closest_rmsd r = Some (Num d))
    ∧ Sorted before_by_rmsd (loop_predictions s')
    ∧ Z.of_nat (length (loop_predictions s')) = expectn
    ∧ consistent s'.
Proof.
  intros Hc Hwt Hnn Hr Htop Hn.
  destruct (analyze_case_spec expectn top_x s Hc Hwt Hnn Hr Htop Hn)
    as (l1 & l2 & l3 & median & best & worst & closest & r & sc
        & Hs1 & Hp1 & Hl2 & Hs3 & Hp3 & Hmed & Hbest & Hworst & Hclosest
        & Hmin & (lp & Hlp & Heq) & Hall & Hle & Hrun).
  eexists _, _, l1. split; [exact Hrun|].
  cbn [closest_rmsd top_x_rmsd top_1_rmsd loop_predictions with_loop_predictions].
  assert (l3 ⊆ loop_predictions s) as Hsub.
  { intros x Hx. rewrite Hp3, Hl2 in Hx. rewrite <- Hp1.
    by apply (subseteq_take (Z.to_nat expectn)). }
  assert (closest ∈ l3) as Hin3.
  { destruct l3; [done|]. injection Hclosest as ->. by left. }
  subst l2.
  split; [done|]. split; [done|]. split; [done|].
  split; [|split; [done|split; [|split; [done|split; [|split; [done|split]]]]]].
  - injection Heq as -> _. apply Hmin. by apply (subseteq_take (Z.to_nat top_x)).
  - exists closest. split; [by rewrite <- Hp3|done].
  - pose proof (proj1 (Forall_forall _ _) Hr closest (Hsub _ Hin3)) as Hsome.
    pose proof (proj1 (Forall_forall _ _) Hnn closest (Hsub _ Hin3)) as [_ Hnum].
    simpl in Hsome. destruct (rmsd closest) as [[d|]|]; [by exists d|done|done].
  - rewrite Hp3, length_take, Hp1. lia.
  - apply consistent_permutation; [|done]. split; [|done]. simpl.
    apply NoDup_take_ids. rewrite Hp1. by destruct Hc.
Qed.

(** X16. The values for the plot over X, when no score and no
    deviation is [nan]: for each X from 1 to [expectn], in this order,
    the analysis records the percentage of records with a deviation
    below 1.0 among the X best scoring ones; the value recorded for
    X = [top_x] is the TopX percentage of the case, and the value
    recorded for X = [expectn] is its total percentage. *)
Theorem percentages_over_top_x (expectn top_x : Z) (s : LoopPredictionSet) :
  consistent s → Forall well_typed (loop_predictions s) →
  Forall no_nan (loop_predictions s) →
  Forall (λ lp, rmsd lp ≠ None) (loop_predictions s) →
  1 ≤ top_x ≤ expectn → expectn ≤ Z.of_nat (length (loop_predictions s)) →
  ∃ r s' l1,
    analyze_case expectn top_x s = (Ok r, s')
    ∧ Sorted before_by_score l1 ∧ l1 ≡ₚ loop_predictions s
    ∧ percent_subangstrom_by_top_x r
      = (λ k, (k, percent_below (take (Z.to_nat k) (take (Z.to_nat expectn) l1))))
          <$> seqZ 1 expectn
    ∧ (∀ k, 1 ≤ k ≤ expectn →
            percent_subangstrom_by_top_x r !! Z.to_nat (k - 1)
            = Some (k, percent_below (take (Z.to_nat k) l1)))
    ∧ percent_subangstrom_by_top_x r !! Z.to_nat (top_x - 1)
      = Some (top_x, top_x_percent_subangstrom r)
    ∧ last (percent_subangstrom_by_top_x r)
      = Some (expectn, total_percent_subangstrom r).
Proof.
  intros Hc Hwt Hnn Hr Htop Hn.
  destruct (analyze_case_spec expectn top_x s Hc Hwt Hnn Hr Htop Hn)
    as (l1 & l2 & l3 & median & best & worst & closest & r & sc
        & Hs1 & Hp1 & Hl2 & _ & _ & _ & _ & _ & _ & _ & _ & _ & _ & Hrun).
  eexists _, _, l1. split; [exact Hrun|]. split; [done|]. split; [done|].
  cbn [percent_subangstrom_by_top_x top_x_percent_subangstrom
       total_percent_subangstrom].
  assert (∀ k, 1 ≤ k ≤ expectn →
            ((λ k, (k, percent_below (take (Z.to_nat k) l2))) <$> seqZ 1 expectn)
              !! Z.to_nat (k - 1)
            = Some (k, percent_below (take (Z.to_nat k) l2))) as Hlook.
  { intros k Hk. rewrite list_lookup_fmap, lookup_seqZ_lt by lia. simpl.
    by replace (1 + Z.of_nat (Z.to_nat (k - 1))) with k by lia. }
  assert (length l2 = Z.to_nat expectn) as Hlen2.
  { rewrite Hl2, length_take, Hp1. lia. }
  split; [by rewrite Hl2|]. split; [|split].
  - intros k Hk. rewrite Hlook by done. rewrite Hl2, take_take.
    by replace (Z.to_nat k `min` Z.to_nat expectn)%nat with (Z.to_nat k) by lia.
  - apply Hlook. lia.
  - rewrite last_lookup, length_fmap, length_seqZ.
    replace (pred (Z.to_nat expectn)) with (Z.to_nat (expectn - 1)) by lia.
    rewrite Hlook by lia. by rewrite take_ge by lia.
Qed.


(** ** Computing and checking the deviations *)

Lemma set_rmsd_well_typed (lp : LoopPrediction) (r : option number) :
  well_typed (set_rmsd lp r) ↔ well_typed lp.
Proof.
  unfold well_typed, _check_types. cbn [rmsd pdb_path set_rmsd].
  by destruct (number_truth r), (number_truth (rmsd lp)).
Qed.

Lemma with_computed_rmsd_eq (ref : residue_matrix) (lp : LoopPrediction)
    (matrix : residue_matrix) (r : Q) :
  pdb_loop_residue_matrix lp = Some matrix →
  compute_rmsd_by_matrix ref matrix = Ok r →
  with_computed_rmsd ref lp = set_rmsd lp (Some (Num r)).
Proof. intros Hm Hr. unfold with_computed_rmsd. by rewrite Hm, Hr. Qed.

Lemma with_computed_rmsd_id (ref : residue_matrix) (lp : LoopPrediction) :
  id (with_computed_rmsd ref lp) = id lp.
Proof.
  unfold with_computed_rmsd. destruct (pdb_loop_residue_matrix lp); [|done].
  by destruct (compute_rmsd_by_matrix _ _).
Qed.

Lemma with_computed_rmsd_ids (ref : residue_matrix) (l : list LoopPrediction) :
  id <$> (with_computed_rmsd ref <$> l) = id <$> l.
Proof.
  rewrite <- list_fmap_compose. apply list_fmap_ext.
  intros i lp _. apply with_computed_rmsd_id.
Qed.

Lemma with_computed_rmsd_well_typed (ref : residue_matrix) (lp : LoopPrediction) :
  well_typed (with_computed_rmsd ref lp) ↔ well_typed lp.
Proof.
  unfold with_computed_rmsd. destruct (pdb_loop_residue_matrix lp); [|done].
  destruct (compute_rmsd_by_matrix _ _); [|done]. apply set_rmsd_well_typed.
Qed.

Lemma for_each_at_cons {St A} (body : nat → A → M St unit) (k : nat) (x : A)
    (l : list A) (s : St) :
  for_each_at body k (x :: l) s =
  match body k x s with
  | (Ok _, s') => for_each_at body (S k) l s'
  | (Raise e, s') => (Raise e, s')
  end.
Proof. done. Qed.

Lemma assign_rmsd_eq (k : nat) (lp : LoopPrediction) (r : Q) (s : LoopPredictionSet) :
  assign_rmsd k lp r s
  = (Ok tt,
     {| loop_predictions := <[k := set_rmsd lp (Some (Num r))]> (loop_predictions s);
        loop_prediction_map :=
          (λ x, if bool_decide (x = lp) then set_rmsd lp (Some (Num r)) else x)
          <$> loop_prediction_map s |}).
Proof. done. Qed.

Lemma fmap_replace_other (x x' : LoopPrediction) (l : list LoopPrediction) :
  Forall (λ y, y ≠ x) l →
  (λ y, if bool_decide (y = x) then x' else y) <$> l = l.
Proof.
  induction 1 as [|y l Hy _ IH]; [done|].
  rewrite fmap_cons, IH. by rewrite bool_decide_eq_false_2.
Qed.

Lemma NoDup_ids_middle (l1 l2 : list LoopPrediction) (x : LoopPrediction) :
  NoDup (id <$> (l1 ++ x :: l2)) →
  Forall (λ y, y ≠ x) l1 ∧ Forall (λ y, y ≠ x) l2.
Proof.
  rewrite fmap_app, fmap_cons, NoDup_app, NoDup_cons.
  intros (_ & Hdisj & Hx & _).
  split; apply Forall_forall; intros y Hy ->.
  - apply (Hdisj (id x)); [|by left]. apply list_elem_of_fmap. by exists x.
  - apply Hx. apply list_elem_of_fmap. by exists x.
Qed.

Lemma assign_rmsd_middle (l1 l2 : list LoopPrediction) (x : LoopPrediction) (r : Q) :
  NoDup (id <$> (l1 ++ x :: l2)) →
  assign_rmsd (length l1) x r (set_of (l1 ++ x :: l2))
  = (Ok tt, set_of (l1 ++ set_rmsd x (Some r) :: l2)).
Proof.
  intros Hnd. destruct (NoDup_ids_middle _ _ _ Hnd) as [H1 H2].
  rewrite assign_rmsd_eq. cbn [loop_predictions loop_prediction_map set_of].
  set (f := λ y, if bool_decide (y = x) then set_rmsd x (Some r) else y).
  assert (f <$> (l1 ++ x :: l2) = l1 ++ set_rmsd x (Some r) :: l2) as Hf.
  { rewrite fmap_app, fmap_cons. unfold f.
    rewrite !fmap_replace_other by done. by rewrite bool_decide_eq_true_2. }
  unfold set_of. f_equal. f_equal.
  - rewrite insert_app_r_alt by lia. by rewrite Nat.sub_diag.
  - rewrite <- list_to_map_fmap, <- Hf. f_equal.
    unfold keyed. rewrite <- !list_fmap_compose. apply list_fmap_ext.
    intros i y _. simpl. unfold f. by case_bool_decide; subst.
Qed.

Lemma compute_rmsds_loop (ref : residue_matrix) (p : list LoopPrediction) :
  ∀ l1 q : list LoopPrediction,
    NoDup (id <$> (l1 ++ p ++ q)) → Forall (measurable ref) p →
    for_each_at (compute_rmsd ref) (length l1) (p ++ q) (set_of (l1 ++ p ++ q))
    = for_each_at (compute_rmsd ref) (length l1 + length p) q
        (set_of (l1 ++ (with_computed_rmsd ref <$> p) ++ q)).
Proof.
  induction p as [|x p IH]; intros l1 q Hnd Hm.
  - simpl. by rewrite Nat.add_0_r.
  - apply Forall_cons in Hm as [(matrix & r & Hmx & Hr) Hm].
    change ((x :: p) ++ q) with (x :: (p ++ q)) in *.
    rewrite for_each_at_cons. unfold compute_rmsd at 1.
    rewrite Hmx, bind_eq, lift_eq, Hr.
    rewrite assign_rmsd_middle by done.
    replace (l1 ++ set_rmsd x (Some r) :: p ++ q)
      with ((l1 ++ [set_rmsd x (Some r)]) ++ p ++ q) by (by rewrite <- app_assoc).
    replace (S (length l1)) with (length (l1 ++ [set_rmsd x (Some r)]))
      by (rewrite length_app; simpl; lia).
    rewrite IH.
    + rewrite length_app, <- app_assoc, fmap_cons.
      rewrite (with_computed_rmsd_eq ref x matrix r) by done.
      simpl. f_equal. lia.
    + rewrite <- app_assoc. simpl.
      rewrite fmap_app, fmap_cons in Hnd. by rewrite fmap_app, fmap_cons.
    + done.
Qed.

Lemma compute_rmsds_prefix (ref : residue_matrix) (p q : list LoopPrediction)
    (s : LoopPredictionSet) :
  consistent s → loop_predictions s = p ++ q → Forall (measurable ref) p →
  compute_rmsds ref s
  = for_each_at (compute_rmsd ref) (length p) q
      (set_of ((with_computed_rmsd ref <$> p) ++ q)).
Proof.
  intros Hc Hl Hm. rewrite <- (consistent_set_of s Hc), Hl.
  unfold compute_rmsds. rewrite bind_eq. unfold read.
  cbn [loop_predictions set_of].
  apply (compute_rmsds_loop ref p [] q); [|done].
  simpl. destruct Hc as [Hnd _]. by rewrite <- Hl.
Qed.

Lemma compute_rmsds_ok (ref : residue_matrix) (s : LoopPredictionSet) :
  consistent s → Forall (measurable ref) (loop_predictions s) →
  compute_rmsds ref s
  = (Ok tt, set_of (with_computed_rmsd ref <$> loop_predictions s)).
Proof.
  intros Hc Hm.
  rewrite (compute_rmsds_prefix ref (loop_predictions s) []);
    [|done|by rewrite app_nil_r|done].
  by rewrite app_nil_r.
Qed.

Lemma measurable_has_rmsd (ref : residue_matrix) (lp : LoopPrediction) :
  measurable ref lp → rmsd (with_computed_rmsd ref lp) ≠ None.
Proof.
  intros (matrix & r & Hm & Hr).
  by rewrite (with_computed_rmsd_eq ref lp matrix r).
Qed.

(** X17. [compute_rmsds] on a set with unique ids whose records all
    have a matrix that the RMSD function accepts: every record gets its
    deviation from the reference, in place; the order, the ids and the
    length stay, the set stays consistent, and [get] answers the records
    with their new deviations, since the mapping holds the same objects
    as the sequence. *)
Theorem compute_rmsds_gives_every_record_its_deviation (ref : residue_matrix)
    (s : LoopPredictionSet) :
  consistent s → Forall (measurable ref) (loop_predictions s) →
  ∃ s',
    compute_rmsds ref s = (Ok tt, s')
    ∧ loop_predictions s' = with_computed_rmsd ref <$> loop_predictions s
    ∧ id <$> loop_predictions s' = id <$> loop_predictions s
    ∧ Forall (λ lp, rmsd lp ≠ None) (loop_predictions s')
    ∧ consistent s'
    ∧ (∀ lp, lp ∈ loop_predictions s →
             get (id lp) s' = (Ok (Some (with_computed_rmsd ref lp)), s'))
    ∧ (Forall well_typed (loop_predictions s) →
       Forall well_typed (loop_predictions s')).
Proof.
  intros Hc Hm. eexists. split; [by apply compute_rmsds_ok|].
  cbn [loop_predictions set_of].
  assert (consistent (set_of (with_computed_rmsd ref <$> loop_predictions s))) as Hc'.
  { split; [|done]. simpl. rewrite with_computed_rmsd_ids. by destruct Hc. }
  split; [done|]. split; [apply with_computed_rmsd_ids|]. split; [|split; [done|split]].
  - apply Forall_fmap. eapply Forall_impl; [exact Hm|].
    intros lp. apply measurable_has_rmsd.
  - intros lp Hin. rewrite get_eq. f_equal. f_equal.
    rewrite <- (with_computed_rmsd_id ref lp).
    apply (consistent_lookup _ _ Hc'). simpl.
    apply list_elem_of_fmap. by exists lp.
  - intros Hwt. apply Forall_fmap. eapply Forall_impl; [exact Hwt|].
    intros lp. apply with_computed_rmsd_well_typed.
Qed.

(** X18. [compute_rmsds] stops at the first record that has no matrix
    (with [AssertionError]) or whose matrix the RMSD function refuses
    (with the exception of that function); the records before it keep
    the deviations that were already assigned, in the sequence and in
    the mapping, and the records from it on are left as they were. *)
Theorem compute_rmsds_stops_at_the_first_failure (ref : residue_matrix)
    (l1 l2 : list LoopPrediction) (x : LoopPrediction) (e : exn)
    (s : LoopPredictionSet) :
  consistent s → loop_predictions s = l1 ++ x :: l2 →
  Forall (measurable ref) l1 →
  (pdb_loop_residue_matrix x = None ∧ e = AssertionError)
  ∨ (∃ matrix, pdb_loop_residue_matrix x = Some matrix
               ∧ compute_rmsd_by_matrix ref matrix = Raise e) →
  compute_rmsds ref s
  = (Raise e, set_of ((with_computed_rmsd ref <$> l1) ++ x :: l2)).
Proof.
  intros Hc Hl Hm Hx.
  rewrite (compute_rmsds_prefix ref l1 (x :: l2)) by done.
  rewrite for_each_at_cons. unfold compute_rmsd at 1.
  destruct Hx as [[-> ->]|(matrix & -> & Hr)]; [done|].
  by rewrite bind_eq, lift_eq, Hr.
Qed.

Lemma check_rmsd_ok (ref : residue_matrix) (lp : LoopPrediction) :
  check_rmsd ref lp = Ok tt ↔ agrees ref lp.
Proof.
  unfold check_rmsd, agrees. split.
  - destruct (pdb_loop_residue_matrix lp) as [matrix|]; [|done].
    destruct (rmsd lp) as [[d|]|]; [| |done]; simpl;
      (destruct (compute_rmsd_by_matrix ref matrix) as [r|] eqn:Hr; [|done]);
      simpl; [|done].
    destruct (Qeq_bool d r) eqn:E; [|done].
    intros _. exists matrix, r, d. by apply Qeq_bool_iff in E.
  - intros (matrix & r & d & -> & Hr & -> & Hd). simpl. rewrite Hr. simpl.
    by rewrite (proj2 (Qeq_bool_iff d r) Hd).
Qed.

Lemma check_rmsd_raises (ref : residue_matrix) (lp : LoopPrediction) (e : exn) :
  measurable ref lp → check_rmsd ref lp = Raise e → e = AssertionError.
Proof.
  intros (matrix & r & Hm & Hr). unfold check_rmsd. rewrite Hm.
  destruct (rmsd lp) as [[d|]|]; simpl; [| |congruence].
  - rewrite Hr. simpl. destruct (Qeq_bool d r); simpl; congruence.
  - rewrite Hr. simpl. congruence.
Qed.

Lemma check_rmsds_loop (ref : residue_matrix) (l : list LoopPrediction)
    (s : LoopPredictionSet) :
  let r := for_each (λ lp, lift (check_rmsd ref lp)) l s in
  r.2 = s
  ∧ (r.1 = Ok tt ↔ Forall (agrees ref) l)
  ∧ (Forall (measurable ref) l → ∀ e, r.1 = Raise e → e = AssertionError).
Proof.
  induction l as [|x l IH]; cbn zeta.
  - simpl. split; [done|]. split; [|done]. split; [by constructor|done].
  - rewrite for_each_cons, lift_eq.
    destruct (check_rmsd ref x) as [[]|e'] eqn:E.
    + destruct IH as (IH1 & IH2 & IH3). split; [done|]. split.
      * rewrite IH2, Forall_cons. split; [|by intros [_ ?]].
        intros ?. split; [by apply check_rmsd_ok|done].
      * intros [_ Hm]%Forall_cons. by apply IH3.
    + cbn [fst snd]. split; [done|]. split.
      * split; [done|]. intros [Hx _]%Forall_cons.
        apply check_rmsd_ok in Hx. congruence.
      * intros [Hx _]%Forall_cons e0 [= <-]. by apply (check_rmsd_raises ref x).
Qed.

Lemma check_rmsds_eq (ref : residue_matrix) (s : LoopPredictionSet) :
  check_rmsds ref s
  = for_each (λ lp, lift (check_rmsd ref lp)) (loop_predictions s) s.
Proof. done. Qed.

Lemma check_rmsds_passes (ref : residue_matrix) (s : LoopPredictionSet) :
  Forall (agrees ref) (loop_predictions s) → check_rmsds ref s = (Ok tt, s).
Proof.
  intros H. rewrite check_rmsds_eq.
  destruct (check_rmsds_loop ref (loop_predictions s) s) as (H2 & H1 & _).
  destruct (for_each _ (loop_predictions s) s) as [r1 r2].
  simpl in *. subst r2. f_equal. by apply H1.
Qed.

(** X19. [check_rmsds] never changes the set, and it passes exactly
    when every record has a matrix and a deviation and the deviation
    equals the one that the RMSD function computes from the given
    reference; when the RMSD function accepts every matrix, the only
    exception is [AssertionError]. *)
Theorem check_rmsds_passes_exactly_on_agreement (ref : residue_matrix)
    (s : LoopPredictionSet) :
  (check_rmsds ref s).2 = s
  ∧ ((check_rmsds ref s).1 = Ok tt ↔ Forall (agrees ref) (loop_predictions s))
  ∧ (Forall (measurable ref) (loop_predictions s) →
     ∀ e, (check_rmsds ref s).1 = Raise e → e = AssertionError).
Proof. rewrite check_rmsds_eq. apply check_rmsds_loop. Qed.

Lemma agrees_with_computed_rmsd (ref1 ref2 : residue_matrix) (lp : LoopPrediction) :
  measurable ref1 lp →
  agrees ref2 (with_computed_rmsd ref1 lp) ↔ same_deviation ref1 ref2 lp.
Proof.
  intros (matrix & r1 & Hm & Hr1).
  rewrite (with_computed_rmsd_eq ref1 lp matrix r1) by done.
  unfold agrees, same_deviation. cbn [pdb_loop_residue_matrix rmsd set_rmsd]. split.
  - intros (matrix' & r2 & d & Hm' & Hr2 & [= <-] & Hd).
    exists matrix', r1, r2. rewrite Hm in Hm'. injection Hm' as <-. done.
  - intros (matrix' & r1' & r2 & Hm' & Hr1' & Hr2 & Hd).
    rewrite Hm in Hm'. injection Hm' as <-. rewrite Hr1 in Hr1'. injection Hr1' as <-.
    by exists matrix, r2, r1.
Qed.

(** X20. The check after the computation, as the analysis runs them:
    on a set with unique ids whose matrices the RMSD function accepts,
    [compute_rmsds] with one reference followed by [check_rmsds] with
    another passes exactly when every matrix has the same deviation from
    the two references; with the same reference it always passes. The
    check does not undo the computation. *)
Theorem check_after_compute_compares_the_references (ref1 ref2 : residue_matrix)
    (s : LoopPredictionSet) :
  consistent s → Forall (measurable ref1) (loop_predictions s) →
  (((compute_rmsds ref1;; check_rmsds ref2) s).1 = Ok tt
   ↔ Forall (same_deviation ref1 ref2) (loop_predictions s))
  ∧ ((compute_rmsds ref1;; check_rmsds ref2) s).2
    = set_of (with_computed_rmsd ref1 <$> loop_predictions s)
  ∧ (compute_rmsds ref1;; check_rmsds ref1) s
    = (Ok tt, set_of (with_computed_rmsd ref1 <$> loop_predictions s)).
Proof.
  intros Hc Hm.
  assert (∀ ref, Forall (agrees ref) (with_computed_rmsd ref1 <$> loop_predictions s)
                 ↔ Forall (same_deviation ref1 ref) (loop_predictions s)) as Hiff.
  { intros ref. rewrite Forall_fmap, !Forall_forall.
    split; intros H lp Hin; specialize (H lp Hin);
      apply (agrees_with_computed_rmsd ref1 ref lp);
      try done; by apply (proj1 (Forall_forall _ _) Hm). }
  assert (∀ ref, (compute_rmsds ref1;; check_rmsds ref) s
                 = check_rmsds ref
                     (set_of (with_computed_rmsd ref1 <$> loop_predictions s))) as Hrun.
  { intros ref. by rewrite bind_eq, compute_rmsds_ok. }
  rewrite !Hrun. split; [|split].
  - rewrite <- Hiff, check_rmsds_eq. apply check_rmsds_loop.
  - rewrite check_rmsds_eq. apply check_rmsds_loop.
  - apply check_rmsds_passes. cbn [loop_predictions set_of]. apply Hiff.
    eapply Forall_impl; [exact Hm|].
    intros lp (matrix & r & ? & ?). exists matrix, r, r. done.
Qed.

(** ** Reading a case *)

Lemma prediction_of_well_typed (pdb_id : string) (d : details.t) :
  well_typed (prediction_of pdb_id d)
  ↔ details.predicted_structure d = ""
    ∨ os_path_exists (details.predicted_structure d) = true.
Proof.
  unfold well_typed, _check_types, prediction_of. simpl.
  destruct (String.eqb_spec (details.predicted_structure d) "") as [->|Hne]; simpl.
  - split; [by left|done].
  - destruct (os_path_exists _); simpl; split; try done; [by right|by intros [?|?]].
Qed.

Lemma add_details_entry (pdb_id : string) (d : details.t) (s : LoopPredictionSet) :
  (add (details.id d) (details.score d) (Some pdb_id) None
       (Some (details.predicted_structure d))
       (Some (details.pdb_loop_residue_matrix d));; mret tt) s
  = match _check_types (prediction_of pdb_id d) with
    | Ok _ => (Ok tt, {| loop_predictions := loop_predictions s ++ [prediction_of pdb_id d];
                         loop_prediction_map :=
                           <[details.id d := prediction_of pdb_id d]>
                             (loop_prediction_map s) |})
    | Raise e => (Raise e, s)
    end.
Proof.
  rewrite bind_eq, add_eq. unfold LoopPrediction_init.
  fold (prediction_of pdb_id d).
  by destruct (_check_types (prediction_of pdb_id d)).
Qed.

Lemma add_details_loop (pdb_id : string) (ds : list details.t) (s : LoopPredictionSet) :
  Forall (λ d, well_typed (prediction_of pdb_id d)) ds →
  add_details pdb_id ds s
  = (Ok tt, {| loop_predictions := loop_predictions s ++ (prediction_of pdb_id <$> ds);
               loop_prediction_map :=
                 store_all (loop_prediction_map s) (prediction_of pdb_id <$> ds) |}).
Proof.
  unfold add_details. revert s. induction ds as [|d ds IH]; intros s Hwt.
  - destruct s. simpl. by rewrite app_nil_r.
  - apply Forall_cons in Hwt as [Hd Hwt].
    rewrite for_each_cons, add_details_entry. unfold well_typed in Hd. rewrite Hd.
    rewrite IH by done. simpl. by rewrite <- app_assoc.
Qed.

Lemma for_each_app {St A} (body : A → M St unit) (l1 l2 : list A) (s : St) :
  for_each body (l1 ++ l2) s =
  match for_each body l1 s with
  | (Ok _, s') => for_each body l2 s'
  | (Raise e, s') => (Raise e, s')
  end.
Proof.
  revert s. induction l1 as [|x l1 IH]; intros s; [done|].
  change ((x :: l1) ++ l2) with (x :: (l1 ++ l2)).
  rewrite !for_each_cons. destruct (body x s) as [[[]|e] s']; [|done].
  apply IH.
Qed.

Lemma prediction_of_ids (pdb_id : string) (ds : list details.t) :
  id <$> (prediction_of pdb_id <$> ds) = details.id <$> ds.
Proof. rewrite <- list_fmap_compose. by apply list_fmap_ext. Qed.

Lemma add_details_ok (pdb_id : string) (ds : list details.t) :
  NoDup (details.id <$> ds) →
  Forall (λ d, well_typed (prediction_of pdb_id d)) ds →
  add_details pdb_id ds LoopPredictionSet_init
  = (Ok tt, set_of (prediction_of pdb_id <$> ds)).
Proof.
  intros Hnd Hwt. rewrite add_details_loop by done. simpl.
  unfold set_of. by rewrite store_all_unique by (by rewrite prediction_of_ids).
Qed.

(** X21. The loop that reads the run details of a case into a new set.
    When the ids of the details are pairwise distinct and every
    structure file exists (an empty path is not looked up), the set
    holds one record per entry, in the order of the details, with the
    case's name, the path and the matrix of the entry and no deviation
    yet, and it has unique ids and an agreeing mapping. When the file of
    an entry is missing, the loop stops there with [AssertionError] and
    the set holds the records of the entries before it. *)
Theorem run_details_are_read_in_order (pdb_id : string) (ds : list details.t) :
  (NoDup (details.id <$> ds) →
   Forall (λ d, details.predicted_structure d = ""
                ∨ os_path_exists (details.predicted_structure d) = true) ds →
   add_details pdb_id ds LoopPredictionSet_init
   = (Ok tt, set_of (prediction_of pdb_id <$> ds))
   ∧ consistent (set_of (prediction_of pdb_id <$> ds))
   ∧ Forall well_typed (prediction_of pdb_id <$> ds)
   ∧ Forall (λ lp, rmsd lp = None) (prediction_of pdb_id <$> ds))
  ∧ (∀ ds1 d ds2,
       ds = ds1 ++ d :: ds2 →
       Forall (λ d, details.predicted_structure d = ""
                    ∨ os_path_exists (details.predicted_structure d) = true) ds1 →
       details.predicted_structure d ≠ "" →
       os_path_exists (details.predicted_structure d) = false →
       add_details pdb_id ds LoopPredictionSet_init
       = (Raise AssertionError,
          {| loop_predictions := prediction_of pdb_id <$> ds1;
             loop_prediction_map := store_all ∅ (prediction_of pdb_id <$> ds1) |})).
Proof.
  assert (∀ l, Forall (λ d, details.predicted_structure d = ""
                            ∨ os_path_exists (details.predicted_structure d) = true) l
               → Forall (λ d, well_typed (prediction_of pdb_id d)) l) as Hwt.
  { intros l Hl. eapply Forall_impl; [exact Hl|].
    intros d. apply prediction_of_well_typed. }
  split.
  - intros Hnd Hfiles. split; [by apply add_details_ok; auto|].
    split; [|split].
    + split; [|done]. simpl. by rewrite prediction_of_ids.
    + apply Forall_fmap. by apply Hwt.
    + apply Forall_fmap. by apply Forall_true.
  - intros ds1 d ds2 -> Hfiles Hpath Hmissing.
    unfold add_details. rewrite for_each_app.
    fold (add_details pdb_id ds1). rewrite add_details_loop by auto.
    rewrite for_each_cons, add_details_entry.
    assert (_check_types (prediction_of pdb_id d) = Raise AssertionError) as ->.
    { destruct (check_types_outcome (prediction_of pdb_id d)) as [Hok|]; [|done].
      apply prediction_of_well_typed in Hok as [?|?]; congruence. }
    done.
Qed.

Lemma with_computed_rmsd_no_nan (ref : residue_matrix) (lp : LoopPrediction) :
  measurable ref lp → score lp ≠ NaN → no_nan (with_computed_rmsd ref lp).
Proof.
  intros (matrix & r & Hm & Hr) Hsc.
  rewrite (with_computed_rmsd_eq ref lp matrix r) by done. by split.
Qed.

(** X22. A whole case, from the run details to the metrics. When the
    ids of the details are pairwise distinct, the structure files
    exist, no score is [nan], every matrix has a deviation from the RCSB
    reference and the same deviation from the Rosetta reference, and
    1 <= top_x <= expectn <= number of runs, the case is read, computed,
    checked and analysed without an error; the records that the
    analysis works on all have a deviation, so the three reported
    deviations are numbers, ordered closest <= TopX <= Top1; and the
    set is left with the [expectn] best scoring records of the run, the
    first [expectn] of the records in score order, each with its
    deviation from the RCSB reference. *)
Theorem analysis_of_a_run (pdb_id : string) (ds : list details.t)
    (rcsb rosetta : residue_matrix) (expectn top_x : Z) :
  NoDup (details.id <$> ds) →
  Forall (λ d, details.predicted_structure d = ""
               ∨ os_path_exists (details.predicted_structure d) = true) ds →
  Forall (λ d, details.score d ≠ NaN) ds →
  Forall (λ d, ∃ r1 r2,
            compute_rmsd_by_matrix rcsb (details.pdb_loop_residue_matrix d) = Ok r1
            ∧ compute_rmsd_by_matrix rosetta (details.pdb_loop_residue_matrix d) = Ok r2
            ∧ (r1 == r2)%Q) ds →
  1 ≤ top_x ≤ expectn → expectn ≤ Z.of_nat (length ds) →
  ∃ r s' l1 (d_closest d_top_x d_top_1 : Q),
    analyze_run pdb_id ds rcsb rosetta expectn top_x = (Ok r, s')
    ∧ Sorted before_by_score l1
    ∧ l1 ≡ₚ with_computed_rmsd rcsb <$> (prediction_of pdb_id <$> ds)
    ∧ loop_predictions s' ≡ₚ take (Z.to_nat expectn) l1
    ∧ closest_rmsd r = Some (Num d_closest)
    ∧ top_x_rmsd r = Some (Num d_top_x)
    ∧ top_1_rmsd r = Some (Num d_top_1)
    ∧ (d_closest <= d_top_x)%Q ∧ (d_top_x <= d_top_1)%Q
    ∧ Z.of_nat (length (loop_predictions s')) = expectn
    ∧ consistent s'.
Proof.
  intros Hnd Hfiles Hscores Hrmsd Htop Hn.
  set (l0 := prediction_of pdb_id <$> ds).
  set (l := with_computed_rmsd rcsb <$> l0).
  assert (Forall (λ d, well_typed (prediction_of pdb_id d)) ds) as Hwt.
  { eapply Forall_impl; [exact Hfiles|]. intros d. apply prediction_of_well_typed. }
  assert (consistent (set_of l0)) as Hc0.
  { split; [|done]. simpl. unfold l0. by rewrite prediction_of_ids. }
  assert (Forall (same_deviation rcsb rosetta) l0) as Hsame.
  { unfold l0. apply Forall_fmap. eapply Forall_impl; [exact Hrmsd|].
    intros d (r1 & r2 & ? & ? & ?). by exists (details.pdb_loop_residue_matrix d), r1, r2. }
  assert (Forall (measurable rcsb) l0) as Hm.
  { eapply Forall_impl; [exact Hsame|].
    intros lp (matrix & r1 & r2 & ? & ? & _). by exists matrix, r1. }
  assert (consistent (set_of l)) as Hc.
  { split; [|done]. simpl. unfold l. rewrite with_computed_rmsd_ids. by destruct Hc0. }
  assert (Forall well_typed l) as Hwtl.
  { unfold l, l0. rewrite !Forall_fmap. eapply Forall_impl; [exact Hwt|].
    intros d Hd. by apply with_computed_rmsd_well_typed. }
  assert (Forall (λ lp, rmsd lp ≠ None) l) as Hr.
  { unfold l. apply Forall_fmap. eapply Forall_impl; [exact Hm|].
    intros lp. apply measurable_has_rmsd. }
  assert (Forall no_nan l) as Hnn.
  { unfold l. apply Forall_fmap, Forall_forall. intros lp Hin.
    apply with_computed_rmsd_no_nan; [by apply (proj1 (Forall_forall _ _) Hm)|].
    unfold l0 in Hin. apply list_elem_of_fmap in Hin as (d & -> & Hd).
    by apply (proj1 (Forall_forall _ _) Hscores). }
  assert (read_case pdb_id ds rcsb rosetta LoopPredictionSet_init = (Ok tt, set_of l))
    as Hread.
  { unfold read_case. rewrite bind_eq, add_details_ok by done.
    rewrite bind_eq, compute_rmsds_ok by done. cbn [loop_predictions set_of]. fold l.
    apply check_rmsds_passes. cbn [loop_predictions set_of]. unfold l.
    rewrite Forall_fmap, Forall_forall. intros lp Hin.
    apply agrees_with_computed_rmsd;
      [by apply (proj1 (Forall_forall _ _) Hm)|by apply (proj1 (Forall_forall _ _) Hsame)]. }
  destruct (analyze_case_spec expectn top_x (set_of l))
    as (l1 & l2 & l3 & median & best & worst & closest & r & sc
        & Hs1 & Hp1 & Hl2 & Hs3 & Hp3 & Hmed & Hbest & Hworst & Hclosest
        & Hmin & (lp & Hlp & Heq) & Hall & Hle & Hrun); [done..| |].
  { simpl. unfold l, l0. rewrite !length_fmap. lia. }
  simpl in Hp1.
  assert (∀ x, x ∈ l2 → ∃ d : Q, rmsd x = Some (Num d)) as Hsome.
  { intros x Hx. rewrite Hl2 in Hx. apply (subseteq_take (Z.to_nat expectn)) in Hx.
    rewrite Hp1 in Hx. pose proof (proj1 (Forall_forall _ _) Hr x Hx) as Hx0.
    pose proof (proj1 (Forall_forall _ _) Hnn x Hx) as [_ Hx1].
    simpl in Hx0.
    destruct (rmsd x) as [[d|]|]; [by exists d|done|done]. }
  assert (closest ∈ l2) as Hin_closest.
  { rewrite <- Hp3. destruct l3; [done|]. injection Hclosest as ->. by left. }
  assert (best ∈ l2) as Hin_best.
  { destruct l2; [done|]. injection Hbest as ->. by left. }
  assert (lp ∈ l2) as Hin_lp by (by apply (subseteq_take (Z.to_nat top_x))).
  injection Heq as -> ->.
  destruct (Hsome _ Hin_closest) as [dc Hdc], (Hsome _ Hin_lp) as [dx Hdx],
    (Hsome _ Hin_best) as [d1 Hd1].
  eexists _, _, l1, dc, dx, d1. split.
  { unfold analyze_run. rewrite bind_eq, Hread. exact Hrun. }
  cbn [closest_rmsd top_x_rmsd top_1_rmsd loop_predictions with_loop_predictions].
  split; [done|]. split; [done|]. split; [by rewrite Hp3, Hl2|].
  split; [done|]. split; [done|]. split; [done|].
  assert (∀ a b (da db : Q), rmsd a = Some (Num da) → rmsd b = Some (Num db) →
                       rmsd_le (rmsd a) (rmsd b) → (da <= db)%Q) as Hle_Q.
  { intros a b da db -> ->. intros [H|H]; simpl in H; lra. }
  split; [by apply (Hle_Q closest lp); auto|].
  split; [by apply (Hle_Q lp best)|].
  split.
  - rewrite Hp3, Hl2, length_take, Hp1. unfold l, l0. rewrite !length_fmap. lia.
  - apply consistent_permutation; [|done]. split; [|done]. simpl.
    rewrite Hl2. apply NoDup_take_ids. rewrite Hp1. by destruct Hc.
Qed.


(** ** The medians over the cases *)

Lemma ascii_compare_refl (a : Ascii.ascii) : Ascii.compare a a = Eq.
Proof. unfold Ascii.compare. apply N.compare_refl. Qed.

Lemma string_compare_refl (s : string) : String.compare s s = Eq.
Proof. induction s as [|a s IH]; [done|]. simpl. by rewrite ascii_compare_refl. Qed.

Lemma string_compare_lt_trans (s1 s2 s3 : string) :
  String.compare s1 s2 = Lt → String.compare s2 s3 = Lt →
  String.compare s1 s3 = Lt.
Proof.
  revert s2 s3. induction s1 as [|a s1 IH]; intros [|b s2] [|c s3]; simpl; try done.
  destruct (Ascii.compare a b) eqn:Eab; [|..|done];
    (destruct (Ascii.compare b c) eqn:Ebc; [|..|done]).
  - apply Ascii.compare_eq_iff in Eab, Ebc. subst.
    rewrite ascii_compare_refl. apply IH.
  - apply Ascii.compare_eq_iff in Eab. subst. by rewrite Ebc.
  - apply Ascii.compare_eq_iff in Ebc. subst. by rewrite Eab.
  - intros _ _. unfold Ascii.compare in *.
    rewrite N.compare_lt_iff in Eab, Ebc.
    by rewrite (proj2 (N.compare_lt_iff _ _) (N.lt_trans _ _ _ Eab Ebc)).
Qed.

#[global] Instance string_le_trans : Transitive string_le.
Proof.
  intros a b c. unfold string_le, String.leb.
  destruct (String.compare a b) eqn:Eab; [|..|done];
    (destruct (String.compare b c) eqn:Ebc; [|..|done]); intros _ _.
  - apply String.compare_eq_iff in Eab, Ebc. subst.
    by rewrite string_compare_refl.
  - apply String.compare_eq_iff in Eab. subst. by rewrite Ebc.
  - apply String.compare_eq_iff in Ebc. subst. by rewrite Eab.
  - by rewrite (string_compare_lt_trans a b c).
Qed.

#[global] Instance string_le_antisym : AntiSymm (=) string_le.
Proof. intros a b. apply String.leb_antisym. Qed.

#[global] Instance string_le_total : Total string_le.
Proof. intros a b. apply String.leb_total. Qed.

#[global] Instance Qle_trans' : Transitive Qle.
Proof. intros a b c. apply Qle_trans. Qed.

#[global] Instance Qle_total' : Total Qle.
Proof. intros a b. destruct (Qlt_le_dec a b); [left|right]; lra. Qed.

Lemma sorted_strings_eq (l1 l2 : list string) :
  sorted_strings l1 = sorted_strings l2 ↔ l1 ≡ₚ l2.
Proof.
  unfold sorted_strings. split.
  - intros Heq. by rewrite <- (merge_sort_Permutation string_le l1), Heq,
      merge_sort_Permutation.
  - intros Hp. apply (Sorted_unique string_le); try apply (Sorted_merge_sort string_le).
    by rewrite !merge_sort_Permutation.
Qed.

Lemma Sorted_seqZ (m n : Z) : Sorted Z.le (seqZ m n).
Proof.
  destruct (Z.le_gt_cases n 0) as [?|Hn]; [rewrite seqZ_nil by done; constructor|].
  rewrite <- (Z2Nat.id n) by lia. generalize (Z.to_nat n). clear. intros k.
  revert m. induction k as [|k IH]; intros m; [constructor|].
  rewrite seqZ_cons by lia. constructor.
  - replace (Z.pred (Z.of_nat (S k))) with (Z.of_nat k) by lia. apply IH.
  - replace (Z.pred (Z.of_nat (S k))) with (Z.of_nat k) by lia.
    destruct k as [|k]; [constructor|]. rewrite seqZ_cons by lia. constructor. lia.
Qed.

Lemma sorted_seqZ (l : list Z) (m n : Z) : l ≡ₚ seqZ m n → sorted l = seqZ m n.
Proof.
  intros Hp. unfold sorted.
  apply (Sorted_unique Z.le); [apply (Sorted_merge_sort Z.le)|apply Sorted_seqZ|].
  by rewrite merge_sort_Permutation.
Qed.

Lemma filter_none {A} (P : A → Prop) `{!∀ x, Decision (P x)} (l : list A) :
  Forall (λ x, ¬ P x) l → filter P l = [].
Proof.
  induction 1 as [|x l Hx _ IH]; [done|].
  by rewrite filter_cons, decide_False.
Qed.

Lemma filter_all {A} (P : A → Prop) `{!∀ x, Decision (P x)} (l : list A) :
  Forall P l → filter P l = l.
Proof.
  induction 1 as [|x l Hx _ IH]; [done|].
  by rewrite filter_cons, decide_True, IH.
Qed.

Lemma sorted_index_is_upper_median (l vals : list Q) (m : Q) :
  Sorted Qle l → l ≡ₚ vals → l !! (length l / 2)%nat = Some m →
  upper_median m vals.
Proof.
  intros Hs Hp Hm. set (i := (length l / 2)%nat) in *.
  pose proof (lookup_lt_Some _ _ _ Hm) as Hi.
  apply (Sorted_StronglySorted Qle) in Hs.
  assert (∀ x, x ∈ take i l → (x <= m)%Q) as Hbefore.
  { intros x Hx. rewrite <- (take_drop i l) in Hs.
    apply StronglySorted_app in Hs as (Hle & _ & _). apply Hle; [done|].
    rewrite (drop_S _ _ _ Hm). by left. }
  assert (∀ x, x ∈ drop (S i) l → (m <= x)%Q) as Hafter.
  { intros x Hx. rewrite <- (take_drop (S i) l) in Hs.
    apply StronglySorted_app in Hs as (Hle & _ & _). apply Hle; [|done].
    rewrite (take_S_r _ _ _ Hm). apply elem_of_app. right. by left. }
  assert (length vals = length l) as Hlen by (by rewrite Hp).
  split; [|split].
  - rewrite <- Hp. by eapply list_elem_of_lookup_2.
  - rewrite <- Hp. fold i.
    rewrite <- (take_drop i l), filter_app, length_app.
    assert (filter (λ v, (v < m)%Q) (drop i l) = []) as ->.
    { apply filter_none, Forall_forall. intros x Hx.
      rewrite (drop_S _ _ _ Hm) in Hx.
      apply elem_of_cons in Hx as [->|Hx]; [lra|]. specialize (Hafter x Hx). lra. }
    simpl. pose proof (length_filter (λ v, (v < m)%Q) (take i l)).
    rewrite length_take in *. lia.
  - rewrite <- Hp. fold i.
    rewrite <- (take_drop (S i) l), filter_app, length_app.
    assert (filter (λ v, (v <= m)%Q) (take (S i) l) = take (S i) l) as ->.
    { apply filter_all, Forall_forall. intros x Hx.
      rewrite (take_S_r _ _ _ Hm) in Hx.
      apply elem_of_app in Hx as [Hx|Hx]; [by apply Hbefore|].
      apply list_elem_of_singleton in Hx as ->. lra. }
    rewrite length_take. lia.
Qed.

Lemma store_percentage_eq (p : string) (d : gmap Z (gmap string Q)) (k : Z) (v : Q) :
  store_percentage p d (k, v) = <[k := <[p := v]> (default ∅ (d !! k))]> d.
Proof. unfold store_percentage. by rewrite lookup_insert_eq, insert_insert_eq. Qed.

Lemma store_percentages_lookup (p : string) (es : list (Z * Q)) :
  NoDup es.*1 → ∀ (d : gmap Z (gmap string Q)) (k : Z),
    foldl (store_percentage p) d es !! k
    = match (list_to_map es : gmap Z Q) !! k with
      | Some v => Some (<[p := v]> (default ∅ (d !! k)))
      | None => d !! k
      end.
Proof.
  induction es as [|[k0 v0] es IH]; intros Hnd d k; [done|].
  rewrite fmap_cons, NoDup_cons in Hnd. destruct Hnd as [Hk0 Hnd]. simpl in Hk0.
  cbn [foldl]. rewrite IH by done. rewrite store_percentage_eq.
  cbn [list_to_map foldr uncurry]. fold (list_to_map es : gmap Z Q).
  destruct (decide (k = k0)) as [->|Hne].
  - rewrite (not_elem_of_list_to_map_1 _ k0) by done. by rewrite !lookup_insert_eq.
  - by rewrite !lookup_insert_ne by done.
Qed.

Lemma entries_at_cons (k : Z) (p : string) (r : case_analysis)
    (cs : list (string * case_analysis)) :
  entries_at k ((p, r) :: cs)
  = match (list_to_map (percent_subangstrom_by_top_x r) : gmap Z Q) !! k with
    | Some v => (p, v) :: entries_at k cs
    | None => entries_at k cs
    end.
Proof. unfold entries_at. simpl. by destruct (_ !! k). Qed.

Lemma record_lookup (cs : list (string * case_analysis)) :
  Forall (λ c, NoDup (percent_subangstrom_by_top_x c.2).*1) cs →
  ∀ (d : gmap Z (gmap string Q)) (k : Z),
    foldl (λ d '(pdb_id, r),
             foldl (store_percentage pdb_id) d (percent_subangstrom_by_top_x r))
          d cs !! k
    = match entries_at k cs with
      | [] => d !! k
      | es => Some (foldl (λ m '(p, v), <[p := v]> m) (default ∅ (d !! k)) es)
      end.
Proof.
  induction 1 as [|[p r] cs Hr _ IH]; intros d k; [done|].
  cbn [foldl]. rewrite IH, entries_at_cons. simpl in Hr.
  rewrite (store_percentages_lookup p _ Hr).
  destruct (_ !! k) as [v|]; [|done].
  by destruct (entries_at k cs).
Qed.

Lemma entries_at_zip (k expectn : Z) (pdb_ids : list string) :
  ∀ results : list case_analysis,
    length results = length pdb_ids →
    Forall (λ r, (percent_subangstrom_by_top_x r).*1 = seqZ 1 expectn) results →
    (k ∈ seqZ 1 expectn →
     (entries_at k (zip pdb_ids results)).*1 = pdb_ids
     ∧ Forall2 (λ r v, (k, v) ∈ percent_subangstrom_by_top_x r) results
         (entries_at k (zip pdb_ids results)).*2)
    ∧ (k ∉ seqZ 1 expectn → entries_at k (zip pdb_ids results) = []).
Proof.
  induction pdb_ids as [|p pdb_ids IH]; intros [|r results] Hlen Hkeys;
    try done.
  simpl in Hlen. apply Forall_cons in Hkeys as [Hr Hkeys].
  destruct (IH results) as [IHin IHout]; [lia|done|].
  cbn [zip zip_with]. rewrite entries_at_cons.
  assert (NoDup (percent_subangstrom_by_top_x r).*1) as Hnd
    by (rewrite Hr; apply NoDup_seqZ).
  split.
  - intros Hk. destruct (IHin Hk) as [H1 H2].
    assert (∃ v, (k, v) ∈ percent_subangstrom_by_top_x r) as [v Hv].
    { rewrite <- Hr in Hk. apply list_elem_of_fmap in Hk as ([k' v] & -> & ?).
      by exists v. }
    rewrite (proj1 (elem_of_list_to_map _ _ _ Hnd) Hv).
    rewrite !fmap_cons. cbn [fst snd].
    rewrite H1. split; [done|]. by constructor.
  - intros Hk. rewrite not_elem_of_list_to_map_1 by (by rewrite Hr). by apply IHout.
Qed.

Lemma foldl_insert_unique (es : list (string * Q)) :
  NoDup es.*1 →
  foldl (λ (m : gmap string Q) '(p, v), <[p := v]> m) ∅ es = list_to_map es.
Proof.
  induction es as [|[p v] es IH] using rev_ind; intros Hnd; [done|].
  rewrite fmap_app, NoDup_app in Hnd. destruct Hnd as (Hnd & Hdisj & _).
  rewrite foldl_snoc, IH, list_to_map_app by done. simpl.
  rewrite insert_empty. apply insert_union_singleton_r.
  apply not_elem_of_list_to_map_1. intros Hin. apply (Hdisj p Hin). by left.
Qed.

Lemma record_percentages_lookup (pdb_ids : list string) (results : list case_analysis)
    (expectn k : Z) :
  pdb_ids ≠ [] → length results = length pdb_ids →
  Forall (λ r, (percent_subangstrom_by_top_x r).*1 = seqZ 1 expectn) results →
  record_percentages pdb_ids results !! k
  = if decide (k ∈ seqZ 1 expectn)
    then Some (foldl (λ (m : gmap string Q) '(p, v), <[p := v]> m) ∅
                 (entries_at k (zip pdb_ids results)))
    else None.
Proof.
  intros Hne Hlen Hkeys. unfold record_percentages. rewrite record_lookup.
  - destruct (entries_at_zip k expectn pdb_ids results Hlen Hkeys) as [Hin Hout].
    destruct (decide (k ∈ seqZ 1 expectn)) as [Hk|Hk].
    + destruct (Hin Hk) as [H1 _].
      destruct (entries_at k (zip pdb_ids results)) eqn:E; [by destruct pdb_ids|].
      by rewrite lookup_empty.
    + by rewrite (Hout Hk), lookup_empty.
  - apply Forall_forall. intros [p r] Hin. simpl.
    apply elem_of_zip_r in Hin.
    rewrite (proj1 (Forall_forall _ _) Hkeys r Hin). apply NoDup_seqZ.
Qed.

Lemma record_percentages_keys (pdb_ids : list string) (results : list case_analysis)
    (expectn : Z) :
  pdb_ids ≠ [] → length results = length pdb_ids →
  Forall (λ r, (percent_subangstrom_by_top_x r).*1 = seqZ 1 expectn) results →
  sorted (map_to_list (record_percentages pdb_ids results)).*1 = seqZ 1 expectn.
Proof.
  intros Hne Hlen Hkeys. apply sorted_seqZ.
  apply NoDup_Permutation; [apply NoDup_fst_map_to_list|apply NoDup_seqZ|].
  intros k. rewrite list_elem_of_fmap. split.
  - intros ([k' inner] & -> & Hin). apply elem_of_map_to_list in Hin. simpl.
    rewrite (record_percentages_lookup _ _ expectn) in Hin by done.
    by destruct (decide (k' ∈ seqZ 1 expectn)).
  - intros Hk. eexists (k, _). split; [done|]. apply elem_of_map_to_list.
    rewrite (record_percentages_lookup _ _ expectn) by done.
    by rewrite decide_True.
Qed.

Lemma map_result_Forall2 {A B} (f : A → result B) (P : A → B → Prop) (l : list A) :
  (∀ x, x ∈ l → ∃ y, f x = Ok y ∧ P x y) →
  ∃ ys, map_result f l = Ok ys ∧ Forall2 P l ys.
Proof.
  induction l as [|x l IH]; intros Hf; [by exists []|].
  destruct (Hf x) as (y & Hy & HP); [by left|].
  destruct IH as (ys & Hys & Hall); [intros; apply Hf; by right|].
  exists (y :: ys). cbn [map_result]. rewrite Hy. simpl. rewrite Hys. simpl.
  split; [done|]. by constructor.
Qed.

(** X23. The medians that close the plot input. When the names of the
    cases are pairwise distinct and every case has recorded a value
    for X = 1, ..., [expectn], the closing loop passes its check for
    every X and yields one median for each X, in the order of X; the
    median is the upper median of the values of the cases for that X:
    one of these values, with at most half of them below it and more
    than half of them below or equal to it. *)
Theorem medians_over_the_cases (pdb_ids : list string) (results : list case_analysis)
    (expectn : Z) :
  NoDup pdb_ids → pdb_ids ≠ [] → length results = length pdb_ids →
  Forall (λ r, (percent_subangstrom_by_top_x r).*1 = seqZ 1 expectn) results →
  ∃ medians,
    median_percentages pdb_ids (record_percentages pdb_ids results) = Ok medians
    ∧ medians.*1 = seqZ 1 expectn
    ∧ ∀ k m, (k, m) ∈ medians →
        ∃ vals,
          Forall2 (λ r v, (k, v) ∈ percent_subangstrom_by_top_x r) results vals
          ∧ upper_median m vals.
Proof.
  intros Hnd Hne Hlen Hkeys. unfold median_percentages.
  rewrite (record_percentages_keys _ _ expectn) by done.
  set (d := record_percentages pdb_ids results).
  set (P := λ (x : Z * gmap string Q) (y : Z * Q),
         y.1 = x.1
         ∧ ∃ vals,
             Forall2 (λ r v, (x.1, v) ∈ percent_subangstrom_by_top_x r) results vals
             ∧ upper_median y.2 vals).
  match goal with
  | |- ∃ _, map_result ?f ?l = _ ∧ _ =>
      destruct (map_result_Forall2 f P l) as (medians & -> & Hall)
  end.
  { intros [k' inner] Hx. apply list_elem_of_fmap in Hx as (k & [= -> ->] & Hk).
    unfold d. rewrite (record_percentages_lookup _ _ expectn) by done.
    rewrite decide_True by done. cbn [default].
    destruct (entries_at_zip k expectn pdb_ids results Hlen Hkeys) as [Hin _].
    destruct (Hin Hk) as [H1 H2].
    set (es := entries_at k (zip pdb_ids results)) in *.
    rewrite foldl_insert_unique by (by rewrite H1).
    pose proof (map_to_list_to_map es ltac:(by rewrite H1)) as Hp.
    rewrite (proj2 (sorted_strings_eq _ pdb_ids)) by (by rewrite Hp, H1).
    rewrite bool_decide_eq_true_2 by done. cbn [assert mbind result_bind].
    set (l := sorted_floats (map_to_list (list_to_map es : gmap string Q)).*2).
    assert (l ≡ₚ es.*2) as Hl.
    { unfold l, sorted_floats. by rewrite merge_sort_Permutation, Hp. }
    assert (length l = length pdb_ids) as Hlen_l.
    { rewrite Hl, length_fmap, <- H1, length_fmap. done. }
    destruct (lookup_lt_is_Some_2 l (length l / 2)%nat) as [m Hm].
    { destruct pdb_ids; [done|]. simpl in Hlen_l.
      apply Nat.div_lt; lia. }
    exists (k, m). split.
    - replace (Z.of_nat (length pdb_ids) / 2) with (Z.of_nat (length l / 2)%nat)
        by (rewrite Hlen_l, Nat2Z.inj_div; done).
      by rewrite (list_getitem_lookup _ _ m).
    - split; [done|]. exists es.*2. split; [done|]. simpl.
      apply (sorted_index_is_upper_median l); [|done..].
      apply (Sorted_merge_sort Qle). }
  exists medians. split; [done|]. split.
  - transitivity ((λ k, (k, default ∅ (d !! k))) <$> seqZ 1 expectn).*1.
    + symmetry. apply list_eq_Forall2. apply Forall2_fmap.
      eapply Forall2_impl; [exact Hall|]. intros x y [Hxy _]. by rewrite Hxy.
    + rewrite <- list_fmap_compose. apply list_fmap_id.
  - intros k m Hin. apply list_elem_of_lookup in Hin as [i Hi].
    destruct (Forall2_lookup_r _ _ _ _ _ Hall Hi) as (x & _ & Hxy & vals & H1 & H2).
    simpl in *. subst. by exists vals.
Qed.

(** X24. A case that is named twice in the list of cases makes the
    closing loop fail: its values overwrite each other in the dict, the
    names recorded for an X are then fewer than the names in the list,
    and the check of the first X raises [AssertionError]. *)
Theorem a_case_named_twice_fails_the_closing_check (pdb_ids : list string)
    (results : list case_analysis) (expectn : Z) :
  ¬ NoDup pdb_ids → 0 < expectn → length results = length pdb_ids →
  Forall (λ r, (percent_subangstrom_by_top_x r).*1 = seqZ 1 expectn) results →
  median_percentages pdb_ids (record_percentages pdb_ids results)
  = Raise AssertionError.
Proof.
  intros Hdup Hn Hlen Hkeys.
  assert (pdb_ids ≠ []) as Hne by (intros ->; apply Hdup; constructor).
  unfold median_percentages.
  rewrite (record_percentages_keys _ _ expectn) by done.
  rewrite seqZ_cons by done. cbn [fmap list_fmap map_result].
  rewrite bool_decide_eq_false_2; [done|].
  intros Heq. apply sorted_strings_eq in Heq. apply Hdup.
  rewrite <- Heq. apply NoDup_fst_map_to_list.
Qed.


(** ** The script *)

Lemma lstrip_suffix (l : list Ascii.ascii) : ∃ k, l = k ++ lstrip l.
Proof.
  induction l as [|c l [k IH]]; [by exists []|]. simpl.
  destruct (isspace c); [|by exists []].
  exists (c :: k). simpl. by f_equal.
Qed.

Lemma lstrip_head (l : list Ascii.ascii) (c : Ascii.ascii) :
  head (lstrip l) = Some c → isspace c = false.
Proof.
  induction l as [|c' l IH]; [done|]. simpl.
  destruct (isspace c') eqn:E; [done|]. by intros [= <-].
Qed.

Lemma lstrip_id (l : list Ascii.ascii) :
  (∀ c, head l = Some c → isspace c = false) → lstrip l = l.
Proof. destruct l as [|c l]; [done|]. intros H. simpl. by rewrite (H c). Qed.

Lemma head_reverse {A} (l : list A) : head (reverse l) = last l.
Proof. by rewrite <- last_reverse, reverse_involutive. Qed.

Lemma strip_last (l : list Ascii.ascii) (c : Ascii.ascii) :
  last (strip l) = Some c → isspace c = false.
Proof. unfold strip. rewrite last_reverse. apply lstrip_head. Qed.

Lemma strip_head (l : list Ascii.ascii) (c : Ascii.ascii) :
  head (strip l) = Some c → isspace c = false.
Proof.
  unfold strip. rewrite head_reverse.
  destruct (lstrip_suffix (reverse (lstrip l))) as [k Hk].
  destruct (lstrip (reverse (lstrip l))) as [|c' n] eqn:E; [done|].
  intros Hc. apply (lstrip_head l).
  by rewrite <- last_reverse, Hk, last_app_cons.
Qed.

Lemma strip_id (l : list Ascii.ascii) :
  (∀ c, head l = Some c → isspace c = false) →
  (∀ c, last l = Some c → isspace c = false) →
  strip l = l.
Proof.
  intros Hh Hl. unfold strip. rewrite (lstrip_id l) by done.
  rewrite (lstrip_id (reverse l)); [apply reverse_involutive|].
  intros c. rewrite head_reverse. apply Hl.
Qed.

Lemma lstrip_subseteq (l : list Ascii.ascii) : lstrip l ⊆ l.
Proof.
  induction l as [|c l IH]; [done|]. simpl.
  destruct (isspace c); [|done]. intros x Hx. right. by apply IH.
Qed.

Lemma strip_subseteq (l : list Ascii.ascii) : strip l ⊆ l.
Proof.
  unfold strip. intros c Hc. rewrite elem_of_reverse in Hc.
  apply lstrip_subseteq in Hc. rewrite elem_of_reverse in Hc.
  by apply lstrip_subseteq.
Qed.

Lemma filter_prefix_characters (l : list Ascii.ascii) :
  Forall (λ c, prefix_character c = true) (List.filter prefix_character l).
Proof.
  induction l as [|c l IH]; [constructor|]. simpl.
  destruct (prefix_character c) eqn:E; [by constructor|done].
Qed.

Lemma filter_prefix_characters_id (l : list Ascii.ascii) :
  Forall (λ c, prefix_character c = true) l → List.filter prefix_character l = l.
Proof.
  induction 1 as [|c l Hc _ IH]; [done|]. simpl. by rewrite Hc, IH.
Qed.

(** X25. The prefix that names the output files: whatever the option
    holds, the sanitized prefix consists of letters, digits and the
    characters [ _-@#%^&()[]<>=+] only, it neither starts nor ends with
    a blank, and sanitizing it again changes nothing. *)
Theorem sanitized_prefix_is_clean (prefix : string) :
  let q := String.list_ascii_of_string (sanitize_prefix prefix) in
  Forall (λ c, prefix_character c = true) q
  ∧ (∀ c, head q = Some c → isspace c = false)
  ∧ (∀ c, last q = Some c → isspace c = false)
  ∧ sanitize_prefix (sanitize_prefix prefix) = sanitize_prefix prefix.
Proof.
  unfold sanitize_prefix. cbn zeta.
  rewrite !String.list_ascii_of_string_of_list_ascii.
  set (l := List.filter prefix_character (String.list_ascii_of_string prefix)).
  assert (Forall (λ c, prefix_character c = true) (strip l)) as Hall.
  { apply Forall_forall. intros c Hc%strip_subseteq.
    by apply (proj1 (Forall_forall _ _)
                (filter_prefix_characters (String.list_ascii_of_string prefix))). }
  split; [done|]. split; [apply strip_head|]. split; [apply strip_last|].
  rewrite filter_prefix_characters_id by done.
  by rewrite strip_id by (apply strip_head || apply strip_last).
Qed.

Lemma positive_int_outcome (n : option Z) :
  (∃ k, n = Some k ∧ 0 < k ∧ positive_int n = Ok k)
  ∨ positive_int n = Raise (SystemExit 1).
Proof.
  destruct n as [k|]; [|by right]. simpl.
  destruct (Z.ltb_spec 0 k); [left; by exists k|by right].
Qed.

(** What makes the validation fail. *)
Lemma parse_arguments_outcome (a : arguments) :
  (parse_arguments a = Raise (SystemExit 1)
   ∧ (output_directory_exists a = false
      ∨ (∀ e, opt_expectn a = Some e → e ≤ 0)
      ∨ (∀ t, opt_topx a = Some t → t ≤ 0)
      ∨ sanitize_prefix (opt_prefix a) = ""
      ∨ opt_data_extraction_method a ∉ data_extraction_methods
      ∨ opt_dataset a ∉ allowed_datasets.*1))
  ∨ ∃ file e t,
      output_directory_exists a = true
      ∧ opt_expectn a = Some e ∧ 0 < e ∧ opt_topx a = Some t ∧ 0 < t
      ∧ sanitize_prefix (opt_prefix a) ≠ ""
      ∧ opt_data_extraction_method a ∈ data_extraction_methods
      ∧ (opt_dataset a, file) ∈ allowed_datasets
      ∧ parse_arguments a
        = Ok (file, if opt_test_mode a then 10 else e, t,
              sanitize_prefix (opt_prefix a), opt_test_mode a).
Proof.
  unfold parse_arguments.
  remember (list_find (λ entry : string * string, entry.1 = opt_dataset a)
              allowed_datasets) as found eqn:Hfind.
  symmetry in Hfind.
  destruct (output_directory_exists a); simpl; [|left; auto].
  destruct (positive_int_outcome (opt_expectn a)) as [(e & He & Hpos & ->)|Hn];
    simpl.
  2:{ rewrite Hn. simpl. left. split; [done|]. right. left. intros e He.
      rewrite He in Hn. simpl in Hn. by destruct (Z.ltb_spec 0 e). }
  destruct (positive_int_outcome (opt_topx a)) as [(t & Ht & Htpos & ->)|Hn];
    simpl.
  2:{ rewrite Hn. simpl. left. split; [done|]. right. right. left. intros t Ht.
      rewrite Ht in Hn. simpl in Hn. by destruct (Z.ltb_spec 0 t). }
  destruct (String.eqb_spec (sanitize_prefix (opt_prefix a)) "") as [Hp|Hprefix];
    simpl; [left; auto 10|].
  destruct (decide (opt_data_extraction_method a ∈ data_extraction_methods))
    as [Hm|Hm].
  2:{ rewrite bool_decide_eq_false_2 by done. simpl. left. auto 10. }
  rewrite bool_decide_eq_true_2 by done. simpl.
  destruct found as [[i [name file]]|]; simpl.
  - apply list_find_Some in Hfind as (Hi & Hname & _). simpl in Hname. subst name.
    right. exists file, e, t. repeat (split; [done|]). split; [|done].
    by eapply list_elem_of_lookup_2.
  - left. split; [done|]. do 5 right.
    intros Hin. change (opt_dataset a ∈ allowed_datasets.*1) in Hin.
    apply list_elem_of_fmap in Hin as ([name file] & Hname & Hin).
    apply list_find_None in Hfind.
    by apply (proj1 (Forall_forall _ _) Hfind (name, file) Hin).
Qed.

(** X26. The script validates its options before it analyses
    anything. The validation fails exactly when the output directory
    does not exist, [expectn] or [topx] is not a positive integer (also
    in test mode, where the value of [expectn] is not used), the
    sanitized prefix is empty, the data extraction method is not known
    or the dataset is not an allowed one; every failed validation
    leaves with [sys.exit(1)]. When the validation passes, [expectn] and
    [topx] are positive numbers, [expectn] being 10 in test mode
    whatever the option says, the prefix is the sanitized one and not
    empty, and the file is the one of the dataset. That [topx] is at
    most [expectn] is not validated: the analysis then fails with an
    uncaught [AssertionError] before it looks at a case, and otherwise
    it analyses the cases one by one. *)
Theorem script_validates_its_options (a : arguments) (cases : list LoopPredictionSet) :
  (parse_arguments a = Raise (SystemExit 1)
   ↔ output_directory_exists a = false
     ∨ (∀ e, opt_expectn a = Some e → e ≤ 0)
     ∨ (∀ t, opt_topx a = Some t → t ≤ 0)
     ∨ sanitize_prefix (opt_prefix a) = ""
     ∨ opt_data_extraction_method a ∉ data_extraction_methods
     ∨ opt_dataset a ∉ allowed_datasets.*1)
  ∧ (∀ e, parse_arguments a = Raise e → e = SystemExit 1)
  ∧ (∀ file expectn topx prefix test_mode,
       parse_arguments a = Ok (file, expectn, topx, prefix, test_mode) →
       output_directory_exists a = true
       ∧ (∃ e, opt_expectn a = Some e ∧ 0 < e
               ∧ expectn = if test_mode then 10 else e)
       ∧ opt_topx a = Some topx
       ∧ prefix = sanitize_prefix (opt_prefix a)
       ∧ opt_data_extraction_method a ∈ data_extraction_methods
       ∧ (opt_dataset a, file) ∈ allowed_datasets
       ∧ test_mode = opt_test_mode a
       ∧ 0 < expectn ∧ 0 < topx ∧ prefix ≠ ""
       ∧ (if test_mode then expectn = 10 else opt_expectn a = Some expectn)
       ∧ (expectn < topx → main a cases = Raise AssertionError)
       ∧ (topx ≤ expectn →
          main a cases
          = map_result (λ s, (analyze_case expectn topx s).1) cases)).
Proof.
  destruct (parse_arguments_outcome a)
    as [[Hexit Hwhy]
       |(file & e & t & Hdir & He & Hpos & Ht & Htpos & Hprefix & Hm & Hd & Hok)].
  { rewrite Hexit. split; [done|]. split; [by intros ? [= <-]|done]. }
  unfold main. rewrite Hok. split; [|split; [done|]].
  { split; [done|]. intros [Hf|[Hf|[Hf|[Hf|[Hf|Hf]]]]]; exfalso.
    - congruence.
    - specialize (Hf e He). lia.
    - specialize (Hf t Ht). lia.
    - done.
    - done.
    - apply Hf. apply list_elem_of_fmap. by exists (opt_dataset a, file). }
  intros file' expectn topx prefix test_mode [= <- <- <- <- <-].
  assert (0 < (if opt_test_mode a then 10 else e)) by (destruct (opt_test_mode a); lia).
  split; [done|]. split; [by exists e|].
  do 8 (split; [done|]).
  split; [by destruct (opt_test_mode a)|].
  cbn [mbind result_bind]. unfold extract_analysis_data. split.
  - intros Hlt. by destruct (Z.leb_spec t (if opt_test_mode a then 10 else e)); [lia|].
  - intros Hle. by destruct (Z.leb_spec t (if opt_test_mode a then 10 else e)); [|lia].
Qed.

End Analysis.

(** ** The properties on example data *)



Lemma sort_by_score_is_canonical_witness :
  ∃ l1,
    sort_by_score all_paths_exist ten_records
    = (Ok tt, with_loop_predictions l1 ten_records)
    ∧ (sort_by_score all_paths_exist;; sort_by_rmsd all_paths_exist;;
       sort_by_score all_paths_exist) ten_records
      = (Ok tt, with_loop_predictions l1 ten_records)
    ∧ Sorted before_by_score l1 ∧ l1 ≡ₚ loop_predictions ten_records
    ∧ ∀ s2, loop_predictions s2 ≡ₚ loop_predictions ten_records →
            sort_by_score all_paths_exist s2 = (Ok tt, with_loop_predictions l1 s2).
Proof.
  apply sort_by_score_is_canonical.
  - repeat constructor.
  - decide_it.
  - repeat constructor; discriminate.
Defined.

(** C4, the claim as stated fails on a score that is [nan]. The two
    records have a score and a deviation, distinct ids, and pass their
    type check. [sort_by_score] compares the second with the first, is
    answered 1, and leaves the two as they are, in either order; so
    after [sort_by_rmsd] has put the record with the lower deviation
    first, the second [sort_by_score] does not restore the order that
    the first one left. *)
Lemma sort_by_score_keeps_the_order_before_on_nan :
  Forall (λ lp, rmsd lp ≠ None) [with_nan_score; with_score_1]
  ∧ sort_by_score all_paths_exist (set_of [with_nan_score; with_score_1])
    = (Ok tt, set_of [with_nan_score; with_score_1])
  ∧ (sort_by_score all_paths_exist;; sort_by_rmsd all_paths_exist;;
     sort_by_score all_paths_exist) (set_of [with_nan_score; with_score_1])
    = (Ok tt, set_of [with_score_1; with_nan_score])
  ∧ sort_by_score all_paths_exist (set_of [with_score_1; with_nan_score])
    = (Ok tt, set_of [with_score_1; with_nan_score])
  ∧ [with_score_1; with_nan_score] ≡ₚ [with_nan_score; with_score_1]
  ∧ [with_score_1; with_nan_score] ≠ [with_nan_score; with_score_1].
Proof.
  split; [repeat constructor; discriminate|].
  split; [reflexivity|]. split; [by vm_compute|]. split; [reflexivity|].
  split; [apply perm_swap|discriminate].
Qed.

(** Three records with the scores nan, 1.0 and 0.0 (ids 1, 2, 3): in
    this order [sort_by_score] leaves them in the order 1, 3, 2, and in
    the opposite order it leaves them as they are. *)
Example sort_by_score_of_three_records_with_nan :
  id <$> loop_predictions
           (sort_by_score all_paths_exist
              (set_of [with_nan_score; with_score_1; with_score_0])).2
  = [1; 3; 2]
  ∧ id <$> loop_predictions
             (sort_by_score all_paths_exist
                (set_of [with_score_0; with_score_1; with_nan_score])).2
    = [3; 2; 1].
Proof. split; reflexivity. Qed.

Lemma add_accepts_present_id_witness :
  add all_paths_exist 1 2 None None None None four_records
  = (Ok (prediction 1 2 None),
     {| loop_predictions := loop_predictions four_records ++ [prediction 1 2 None];
        loop_prediction_map :=
          <[1 := prediction 1 2 None]> (loop_prediction_map four_records) |})
  ∧ length (loop_predictions four_records ++ [prediction 1 2 None])
    = S (length (loop_predictions four_records)).
Proof.
  apply add_accepts_present_id; [decide_it|reflexivity].
Defined.

Lemma truncate_keeps_first_n_witness :
  ∃ s',
    truncate 2 four_records = (Ok tt, s')
    ∧ loop_predictions s' = take (Z.to_nat 2) (loop_predictions four_records)
    ∧ Z.of_nat (length (loop_predictions s'))
      = Z.min 2 (Z.of_nat (length (loop_predictions four_records)))
    ∧ (∀ lp, lp ∈ drop (Z.to_nat 2) (loop_predictions four_records) →
             get (id lp) s' = (Ok None, s'))
    ∧ (∀ lp, lp ∈ loop_predictions s' → get (id lp) s' = (Ok (Some lp), s'))
    ∧ consistent s'.
Proof.
  apply truncate_keeps_first_n; [split; [decide_it|reflexivity]|lia].
Defined.

Lemma slice_is_the_range_witness :
  ∃ s',
    getitem (KSlice {| start := Some 1; stop := Some 3; step := None |}) four_records
    = (Ok (ItemSet s'), four_records)
    ∧ loop_predictions s'
      = take (Z.to_nat (3 - 1)) (drop (Z.to_nat 1) (loop_predictions four_records))
    ∧ Z.of_nat (length (loop_predictions s')) = 3 - 1
    ∧ (∀ k : nat, Z.of_nat k < 3 - 1 →
         loop_predictions s' !! k
         = loop_predictions four_records !! (Z.to_nat 1 + k)%nat)
    ∧ (∀ i, i ∈ dom (loop_prediction_map s') ↔ i ∈ id <$> loop_predictions s').
Proof.
  apply slice_is_the_range; [lia|simpl; lia|by left].
Defined.

Lemma negative_index_reads_from_the_end_witness :
  ∃ lp, getitem (KInt (-1)) four_records = (Ok (ItemPrediction lp), four_records)
        ∧ loop_predictions four_records !! Z.to_nat (4 + -1) = Some lp
        ∧ (-1 = -1 → last (loop_predictions four_records) = Some lp).
Proof.
  apply (negative_index_reads_from_the_end (-1) four_records). simpl. lia.
Defined.

Lemma allow_failure_counts_missing_witness :
  fraction_with_rmsd_lt 1 true true one_record_without_rmsd
  = (Ok (inject_Z (Z.of_nat
                     (length (filter (λ lp, rmsd lp = None)
                                     (loop_predictions one_record_without_rmsd))
                      + length (filter (deviation_below 1 true)
                                       (loop_predictions one_record_without_rmsd))))
         / inject_Z (Z.of_nat (length (loop_predictions one_record_without_rmsd))))%Q,
     one_record_without_rmsd).
Proof.
  apply allow_failure_counts_missing. simpl. discriminate.
Defined.

(** The record without deviation makes the fraction 1 of 1. *)
Example allow_failure_counts_the_record_without_rmsd :
  (fraction_with_rmsd_lt 1 true true one_record_without_rmsd).1 = Ok (1 # 1)%Q.
Proof. reflexivity. Qed.

(** C6, the claim as stated fails on the empty set: all of its records
    have a deviation, and the call raises [ZeroDivisionError]. *)
Lemma fraction_of_the_empty_set_raises :
  Forall (λ lp, rmsd lp ≠ None) (loop_predictions LoopPredictionSet_init)
  ∧ fraction_with_rmsd_lt 1 false true LoopPredictionSet_init
    = (Raise ZeroDivisionError, LoopPredictionSet_init).
Proof. split; [constructor|reflexivity]. Qed.

Lemma fraction_with_rmsd_lt_counts_below_witness :
  ∃ q, fraction_with_rmsd_lt 1 false true four_records = (Ok q, four_records)
       ∧ q = (inject_Z (Z.of_nat (length (filter (deviation_below 1 true)
                                                 (loop_predictions four_records))))
              / inject_Z (Z.of_nat (length (loop_predictions four_records))))%Q
       ∧ (0 <= q <= 1)%Q.
Proof.
  apply (fraction_with_rmsd_lt_counts_below 1 false true four_records).
  - simpl. discriminate.
  - repeat constructor; simpl; discriminate.
Defined.

Lemma median_is_at_half_of_expectn_witness :
  ∃ l1 top_x_set median best worst s',
    select_structures all_paths_exist 10 3 ten_records
    = (Ok (top_x_set, median, best, worst), s')
    ∧ (Forall no_nan (loop_predictions ten_records) → Sorted before_by_score l1)
    ∧ l1 ≡ₚ loop_predictions ten_records
    ∧ loop_predictions s' = take (Z.to_nat 10) l1
    ∧ Z.of_nat (length (loop_predictions s')) = 10
    ∧ loop_predictions s' !! Z.to_nat (10 / 2) = Some median
    ∧ (10 = 10 → loop_predictions s' !! 5%nat = Some median).
Proof.
  apply median_is_at_half_of_expectn.
  - split; [decide_it|reflexivity].
  - repeat constructor.
  - lia.
  - simpl. lia.
Defined.

(** On the ten records the median is the record with id 5, the sixth
    in score order. *)
Example median_of_ten_records :
  ∃ top_x_set median best worst s',
    select_structures all_paths_exist 10 3 ten_records
    = (Ok (top_x_set, median, best, worst), s')
    ∧ id median = 5 ∧ id <$> loop_predictions s' = [10; 9; 8; 7; 6; 5; 4; 3; 2; 1].
Proof. by eexists _, _, _, _, _; vm_compute. Qed.

Lemma top_x_scan_finds_the_minimum_witness :
  ∃ r s' l1,
    analyze_case all_paths_exist 10 3 ten_records = (Ok r, s')
    ∧ Sorted before_by_score l1 ∧ l1 ≡ₚ loop_predictions ten_records
    ∧ loop_predictions (top_x_loop_prediction_set r)
      = take (Z.to_nat 3) (take (Z.to_nat 10) l1)
    ∧ (∃ lp, lp ∈ loop_predictions (top_x_loop_prediction_set r)
             ∧ top_x_rmsd r = rmsd lp ∧ top_x_score r = score lp)
    ∧ (∀ lp, lp ∈ loop_predictions (top_x_loop_prediction_set r) →
             pair_le (top_x_rmsd r, top_x_score r) (rmsd lp, score lp))
    ∧ top_1_rmsd r = rmsd (best_scoring_structure r)
    ∧ head l1 = Some (best_scoring_structure r)
    ∧ last (take (Z.to_nat 10) l1) = Some (worst_scoring_structure r)
    ∧ rmsd_le (top_x_rmsd r) (top_1_rmsd r)
    ∧ num_le (top_x_score r) (score (worst_scoring_structure r))
    ∧ head (loop_predictions (top_x_loop_prediction_set r))
      = Some (best_scoring_structure r).
Proof.
  apply top_x_scan_finds_the_minimum.
  - split; [decide_it|reflexivity].
  - repeat constructor.
  - repeat constructor; discriminate.
  - repeat constructor; simpl; discriminate.
  - lia.
  - simpl. lia.
Defined.

(** C9, the claim as stated fails on a score that is [nan]. The set of
    the two records has unique ids, each record has a deviation, and
    1 <= top_x <= expectn = 2. The sort leaves the record with the score
    [nan] first, so it is the best scoring record and the only one of
    the TopX subset, and the scan ends with the TopX score [nan]. The
    score of the worst scoring record is 1, the assertion that the TopX
    score is at most the worst score does not hold, and the analysis
    ends there with [AssertionError]. *)
Lemma analysis_fails_on_a_nan_score :
  consistent (set_of [with_nan_score; with_score_1])
  ∧ Forall (well_typed all_paths_exist) [with_nan_score; with_score_1]
  ∧ Forall (λ lp, rmsd lp ≠ None) [with_nan_score; with_score_1]
  ∧ sort_by_score all_paths_exist (set_of [with_nan_score; with_score_1])
    = (Ok tt, set_of [with_nan_score; with_score_1])
  ∧ top_x_scan [with_nan_score] (rmsd with_nan_score) (score with_nan_score)
    = (Some (Num 2), NaN)
  ∧ num_leb NaN (score with_score_1) = false
  ∧ (analyze_case all_paths_exist 2 1 (set_of [with_nan_score; with_score_1])).1
    = Raise AssertionError.
Proof.
  split; [split; [decide_it|reflexivity]|].
  split; [repeat constructor|].
  split; [repeat constructor; discriminate|].
  split; [reflexivity|]. split; [reflexivity|]. split; [reflexivity|].
  by vm_compute.
Qed.

(** On the ten records with [top_x] = 3 the TopX deviation is the one
    of the third best scoring record, the record with id 8. *)
Example top_x_of_ten_records :
  ∃ r s',
    analyze_case all_paths_exist 10 3 ten_records = (Ok r, s')
    ∧ id <$> loop_predictions (top_x_loop_prediction_set r) = [10; 9; 8]
    ∧ top_x_rmsd r = Some (1 # 2)%Q ∧ top_x_score r = 3%Q
    ∧ top_1_rmsd r = Some (10 # 2)%Q.
Proof. by eexists _, _; vm_compute. Qed.

(** ** The further properties on example data *)

Lemma from_list_of_distinct_ids_is_consistent_witness :
  ∃ s, from_list (loop_predictions four_records) = Ok s
       ∧ loop_predictions s = loop_predictions four_records
       ∧ consistent s
       ∧ ∀ lp, lp ∈ loop_predictions four_records →
               get (id lp) s = (Ok (Some lp), s).
Proof. apply from_list_of_distinct_ids_is_consistent. decide_it. Defined.

Lemma add_of_a_new_id_keeps_the_set_consistent_witness :
  ∃ s', add all_paths_exist 5 2 None None None None four_records
        = (Ok (prediction 5 2 None), s')
        ∧ loop_predictions s' = loop_predictions four_records ++ [prediction 5 2 None]
        ∧ consistent s'
        ∧ get 5 s' = (Ok (Some (prediction 5 2 None)), s')
        ∧ ∀ j, j ≠ 5 → (get j s').1 = (get j four_records).1.
Proof.
  apply add_of_a_new_id_keeps_the_set_consistent;
    [split; [decide_it|reflexivity]|decide_it|reflexivity].
Defined.

Lemma add_with_a_missing_file_changes_nothing_witness :
  add (λ _, false) 5 2 None None (Some "m.pdb") None four_records
  = (Raise AssertionError, four_records).
Proof.
  apply add_with_a_missing_file_changes_nothing; [discriminate|reflexivity].
Defined.

Lemma truncate_beyond_the_length_changes_nothing_witness :
  truncate 7 four_records = (Ok tt, four_records).
Proof.
  apply truncate_beyond_the_length_changes_nothing;
    [split; [decide_it|reflexivity]|simpl; lia].
Defined.

Lemma truncate_with_a_negative_count_drops_from_the_end_witness :
  truncate (-1) four_records
  = (Ok tt, set_of (take (Z.to_nat (Z.of_nat (length (loop_predictions four_records)) + -1))
                         (loop_predictions four_records))).
Proof.
  apply truncate_with_a_negative_count_drops_from_the_end;
    [split; [decide_it|reflexivity]|lia].
Defined.

Lemma truncate_twice_is_truncate_to_the_minimum_witness :
  (truncate 3;; truncate 2) four_records = truncate (Z.min 3 2) four_records.
Proof.
  apply truncate_twice_is_truncate_to_the_minimum;
    [split; [decide_it|reflexivity]|lia|lia].
Defined.

Lemma index_below_minus_length_is_left_to_the_list_witness :
  getitem (KInt (-5)) four_records
  = (Raise (IndexError ListIndexOutOfRange), four_records).
Proof.
  apply (index_below_minus_length_is_left_to_the_list (-5) four_records).
  simpl. lia.
Defined.

Lemma slice_never_raises_an_index_error_witness :
  ∃ s',
    getitem (KSlice {| start := Some (-7); stop := Some 9; step := Some 2 |})
      four_records
    = (Ok (ItemSet s'), four_records)
    ∧ loop_predictions s' ⊆ loop_predictions four_records
    ∧ ∀ i, i ∈ dom (loop_prediction_map s') ↔ i ∈ id <$> loop_predictions s'.
Proof.
  apply (slice_never_raises_an_index_error
           {| start := Some (-7); stop := Some 9; step := Some 2 |} four_records).
  simpl. discriminate.
Defined.

(** On the four records the slice from -7 to 9 in steps of 2 holds the
    first and the third record. *)
Example slice_of_four_records_in_steps_of_two :
  ∃ s',
    getitem (KSlice {| start := Some (-7); stop := Some 9; step := Some 2 |})
      four_records
    = (Ok (ItemSet s'), four_records)
    ∧ id <$> loop_predictions s' = [1; 3].
Proof. by eexists; vm_compute. Qed.

Lemma fraction_with_rmsd_lt_is_monotone_witness :
  ∃ qx qy q_lt q_le,
    fraction_with_rmsd_lt 1 false true four_records = (Ok qx, four_records)
    ∧ fraction_with_rmsd_lt 2 false true four_records = (Ok qy, four_records)
    ∧ (qx <= qy)%Q
    ∧ fraction_with_rmsd_lt 1 false true four_records = (Ok q_lt, four_records)
    ∧ fraction_with_rmsd_lt 1 false false four_records = (Ok q_le, four_records)
    ∧ (q_lt <= q_le)%Q.
Proof.
  apply fraction_with_rmsd_lt_is_monotone.
  - simpl. discriminate.
  - right. repeat constructor; simpl; discriminate.
  - unfold Qle. simpl. lia.
Defined.

Lemma fraction_with_rmsd_lt_outcomes_witness :
  (fraction_with_rmsd_lt 1 false true one_record_without_rmsd).1
  = Raise (Exception_ missing_rmsd_message).
Proof.
  destruct (fraction_with_rmsd_lt_outcomes 1 false true one_record_without_rmsd)
    as (_ & H & _).
  apply H. split; [reflexivity|]. constructor. reflexivity.
Defined.

Lemma comparators_raise_on_equal_ids_witness :
  LoopPrediction_sort_by_score all_paths_exist
    (prediction 1 2 (Some 0.5%Q)) (prediction 1 3 (Some 0.5%Q))
  = Raise AssertionError.
Proof.
  destruct (comparators_raise_on_equal_ids all_paths_exist
              (prediction 1 2 (Some 0.5%Q)) (prediction 1 3 (Some 0.5%Q)))
    as ((H & _) & _).
  apply H. left. reflexivity.
Defined.

Lemma analysis_stops_on_a_wrong_number_of_structures_witness :
  ∃ l1, (Forall no_nan (loop_predictions ten_records) → Sorted before_by_score l1)
    ∧ l1 ≡ₚ loop_predictions ten_records
    ∧ (Z.of_nat (length (loop_predictions ten_records)) < 11 →
       analyze_case all_paths_exist 11 3 ten_records
       = (Raise (SystemExit 1), set_of l1))
    ∧ (11 < 0 →
       analyze_case all_paths_exist 11 3 ten_records
       = (Raise (SystemExit 1),
          set_of (take (Z.to_nat (Z.of_nat (length (loop_predictions ten_records)) + 11))
                       l1)))
    ∧ (11 = 0 →
       analyze_case all_paths_exist 11 3 ten_records
       = (Raise (IndexError (SetIndexMessage 0 0)), set_of [])).
Proof.
  apply (analysis_stops_on_a_wrong_number_of_structures all_paths_exist 11 3
           ten_records).
  - split; [decide_it|reflexivity].
  - repeat constructor.
Defined.

(** Eleven structures are expected of the ten records: the analysis
    leaves with exit code 1. With none expected it fails on the median. *)
Example analysis_of_ten_records_expecting_eleven :
  (analyze_case all_paths_exist 11 3 ten_records).1 = Raise (SystemExit 1)
  ∧ (analyze_case all_paths_exist 0 3 ten_records).1
    = Raise (IndexError (SetIndexMessage 0 0)).
Proof. split; by vm_compute. Qed.

Lemma closest_top_x_and_top_1_are_ordered_witness :
  ∃ r s' l1,
    analyze_case all_paths_exist 10 3 ten_records = (Ok r, s')
    ∧ Sorted before_by_score l1 ∧ l1 ≡ₚ loop_predictions ten_records
    ∧ loop_predictions s' ≡ₚ take (Z.to_nat 10) l1
    ∧ rmsd_le (closest_rmsd r) (top_x_rmsd r)
    ∧ rmsd_le (top_x_rmsd r) (top_1_rmsd r)
    ∧ (∃ lp, lp ∈ take (Z.to_nat 10) l1 ∧ closest_rmsd r = rmsd lp)
    ∧ (∀ lp, lp ∈ take (Z.to_nat 10) l1 → rmsd_le (closest_rmsd r) (rmsd lp))
    ∧ (∃ d : Q, closest_rmsd r = Some (Num d))
    ∧ Sorted before_by_rmsd (loop_predictions s')
    ∧ Z.of_nat (length (loop_predictions s')) = 10
    ∧ consistent s'.
Proof.
  apply closest_top_x_and_top_1_are_ordered.
  - split; [decide_it|reflexivity].
  - repeat constructor.
  - repeat constructor; discriminate.
  - repeat constructor; simpl; discriminate.
  - lia.
  - simpl. lia.
Defined.

(** Of the ten records the analysis with [expectn] = 4 keeps the four
    best scoring ones, the records with the ids 10, 9, 8 and 7, and
    leaves them in the order of their deviations. *)
Example closest_of_the_four_best_of_ten_records :
  ∃ r s',
    analyze_case all_paths_exist 4 3 ten_records = (Ok r, s')
    ∧ id <$> loop_predictions s' = [8; 7; 9; 10]
    ∧ closest_rmsd r = Some (1 # 2)%Q.
Proof. by eexists _, _; vm_compute. Qed.

Lemma percentages_over_top_x_witness :
  ∃ r s' l1,
    analyze_case all_paths_exist 10 3 ten_records = (Ok r, s')
    ∧ Sorted before_by_score l1 ∧ l1 ≡ₚ loop_predictions ten_records
    ∧ percent_subangstrom_by_top_x r
      = (λ k, (k, percent_below (take (Z.to_nat k) (take (Z.to_nat 10) l1))))
          <$> seqZ 1 10
    ∧ (∀ k, 1 ≤ k ≤ 10 →
            percent_subangstrom_by_top_x r !! Z.to_nat (k - 1)
            = Some (k, percent_below (take (Z.to_nat k) l1)))
    ∧ percent_subangstrom_by_top_x r !! Z.to_nat (3 - 1)
      = Some (3, top_x_percent_subangstrom r)
    ∧ last (percent_subangstrom_by_top_x r)
      = Some (10, total_percent_subangstrom r).
Proof.
  apply percentages_over_top_x.
  - split; [decide_it|reflexivity].
  - repeat constructor.
  - repeat constructor; discriminate.
  - repeat constructor; simpl; discriminate.
  - lia.
  - simpl. lia.
Defined.

Lemma compute_rmsds_gives_every_record_its_deviation_witness :
  ∃ s',
    compute_rmsds example_rmsd example_reference three_models = (Ok tt, s')
    ∧ loop_predictions s'
      = with_computed_rmsd example_rmsd example_reference
        <$> loop_predictions three_models
    ∧ id <$> loop_predictions s' = id <$> loop_predictions three_models
    ∧ Forall (λ lp, rmsd lp ≠ None) (loop_predictions s')
    ∧ consistent s'
    ∧ (∀ lp, lp ∈ loop_predictions three_models →
             get (id lp) s'
             = (Ok (Some (with_computed_rmsd example_rmsd example_reference lp)), s'))
    ∧ (Forall (well_typed all_paths_exist) (loop_predictions three_models) →
       Forall (well_typed all_paths_exist) (loop_predictions s')).
Proof.
  apply compute_rmsds_gives_every_record_its_deviation.
  - split; [decide_it|reflexivity].
  - vm_compute. repeat econstructor.
Defined.

(** The three models get the deviations 1, 4 and 9. *)
Example deviations_of_the_three_models :
  ∃ s', compute_rmsds example_rmsd example_reference three_models = (Ok tt, s')
        ∧ Forall2 (λ lp (d : Q), rmsd_eq (rmsd lp) (Some (Num d)))
            (loop_predictions s') [1; 4; 9]%Q.
Proof. eexists. split; [by vm_compute|]. repeat constructor. Qed.

Lemma compute_rmsds_stops_at_the_first_failure_witness :
  compute_rmsds example_rmsd example_reference
    (set_of (loop_predictions three_models ++ [prediction 9 1 None]))
  = (Raise AssertionError,
     set_of ((with_computed_rmsd example_rmsd example_reference
              <$> loop_predictions three_models) ++ [prediction 9 1 None])).
Proof.
  apply compute_rmsds_stops_at_the_first_failure.
  - split; [decide_it|reflexivity].
  - reflexivity.
  - vm_compute. repeat econstructor.
  - left. split; reflexivity.
Defined.

Lemma check_rmsds_passes_exactly_on_agreement_witness :
  (check_rmsds example_rmsd example_reference
     (set_of (with_computed_rmsd example_rmsd example_reference
              <$> loop_predictions three_models))).1
  = Ok tt.
Proof.
  destruct (check_rmsds_passes_exactly_on_agreement example_rmsd example_reference
              (set_of (with_computed_rmsd example_rmsd example_reference
                       <$> loop_predictions three_models)))
    as (_ & H & _).
  apply H. vm_compute. repeat econstructor.
Defined.

(** As they are read in, the three models have no deviation yet, and
    the check fails. *)
Example check_of_the_three_models_before_the_computation :
  check_rmsds example_rmsd example_reference three_models
  = (Raise AssertionError, three_models).
Proof. by vm_compute. Qed.

Lemma check_after_compute_compares_the_references_witness :
  (((compute_rmsds example_rmsd example_reference;;
     check_rmsds example_rmsd [("CA", (0, 1, 1)%Q)]) three_models).1 = Ok tt
   ↔ Forall (same_deviation example_rmsd example_reference [("CA", (0, 1, 1)%Q)])
       (loop_predictions three_models))
  ∧ ((compute_rmsds example_rmsd example_reference;;
      check_rmsds example_rmsd [("CA", (0, 1, 1)%Q)]) three_models).2
    = set_of (with_computed_rmsd example_rmsd example_reference
              <$> loop_predictions three_models)
  ∧ (compute_rmsds example_rmsd example_reference;;
     check_rmsds example_rmsd example_reference) three_models
    = (Ok tt, set_of (with_computed_rmsd example_rmsd example_reference
                      <$> loop_predictions three_models)).
Proof.
  apply check_after_compute_compares_the_references.
  - split; [decide_it|reflexivity].
  - vm_compute. repeat econstructor.
Defined.

Lemma run_details_are_read_in_order_witness :
  add_details all_paths_exist "1abc" example_details LoopPredictionSet_init
  = (Ok tt, set_of (prediction_of "1abc" <$> example_details))
  ∧ consistent (set_of (prediction_of "1abc" <$> example_details))
  ∧ Forall (well_typed all_paths_exist) (prediction_of "1abc" <$> example_details)
  ∧ Forall (λ lp, rmsd lp = None) (prediction_of "1abc" <$> example_details).
Proof.
  apply (run_details_are_read_in_order all_paths_exist "1abc" example_details).
  - decide_it.
  - vm_compute. repeat constructor; by right.
Defined.

(** When no file exists the first entry stops the loop and the set
    stays empty. *)
Example run_details_without_files :
  add_details (λ _, false) "1abc" example_details LoopPredictionSet_init
  = (Raise AssertionError, LoopPredictionSet_init).
Proof. by vm_compute. Qed.

Lemma analysis_of_a_run_witness :
  ∃ r s' l1 (d_closest d_top_x d_top_1 : Q),
    analyze_run all_paths_exist example_rmsd "1abc" example_details
      example_reference [("CA", (0, 1, 1)%Q)] 3 2
    = (Ok r, s')
    ∧ Sorted before_by_score l1
    ∧ l1 ≡ₚ with_computed_rmsd example_rmsd example_reference
            <$> (prediction_of "1abc" <$> example_details)
    ∧ loop_predictions s' ≡ₚ take (Z.to_nat 3) l1
    ∧ closest_rmsd r = Some (Num d_closest)
    ∧ top_x_rmsd r = Some (Num d_top_x)
    ∧ top_1_rmsd r = Some (Num d_top_1)
    ∧ (d_closest <= d_top_x)%Q ∧ (d_top_x <= d_top_1)%Q
    ∧ Z.of_nat (length (loop_predictions s')) = 3
    ∧ consistent s'.
Proof.
  apply analysis_of_a_run.
  - decide_it.
  - vm_compute. repeat constructor; by right.
  - repeat constructor; discriminate.
  - vm_compute. repeat econstructor.
  - lia.
  - simpl. lia.
Defined.

(** The three runs with [expectn] = 3 and [top_x] = 2: the best
    scoring run is the third (score 1, deviation 9), the TopX deviation
    is the 4 of the second, and the closest model is the first. *)
Example analysis_of_the_three_runs :
  ∃ r s',
    analyze_run all_paths_exist example_rmsd "1abc" example_details
      example_reference [("CA", (0, 1, 1)%Q)] 3 2
    = (Ok r, s')
    ∧ id (best_scoring_structure r) = 3
    ∧ rmsd_eq (top_1_rmsd r) (Some 9%Q)
    ∧ rmsd_eq (top_x_rmsd r) (Some 4%Q)
    ∧ rmsd_eq (closest_rmsd r) (Some 1%Q)
    ∧ id <$> loop_predictions s' = [1; 2; 3].
Proof. eexists _, _. split; [by vm_compute|]. by vm_compute. Qed.

(** Two runs whose score files hold nan and 0.0, with [expectn] = 2 and
    [top_x] = 1: the case is read, computed and checked, the run with
    the score [nan] stays first in the sort and is the TopX record, and
    the analysis stops at the assertion that the TopX score is at most
    the worst score. *)
Example analysis_of_a_run_with_a_nan_score :
  read_case all_paths_exist example_rmsd "1abc" details_with_nan_score
    example_reference [("CA", (0, 1, 1)%Q)] LoopPredictionSet_init
  = (Ok tt,
     set_of (with_computed_rmsd example_rmsd example_reference
             <$> (prediction_of "1abc" <$> details_with_nan_score)))
  ∧ (analyze_run all_paths_exist example_rmsd "1abc" details_with_nan_score
       example_reference [("CA", (0, 1, 1)%Q)] 2 1).1
    = Raise AssertionError.
Proof. split; by vm_compute. Qed.

Lemma medians_over_the_cases_witness :
  ∃ medians,
    median_percentages three_cases (record_percentages three_cases three_results)
    = Ok medians
    ∧ medians.*1 = seqZ 1 2
    ∧ ∀ k m, (k, m) ∈ medians →
        ∃ vals,
          Forall2 (λ r v, (k, v) ∈ percent_subangstrom_by_top_x r) three_results vals
          ∧ upper_median m vals.
Proof.
  apply medians_over_the_cases.
  - decide_it.
  - discriminate.
  - reflexivity.
  - repeat constructor.
Defined.

(** The medians of the three cases: 100 of the values 0, 100, 100 for
    X = 1, and 50 of the values 50, 50, 100 for X = 2. *)
Example medians_of_the_three_cases :
  ∃ m1 m2,
    median_percentages three_cases (record_percentages three_cases three_results)
    = Ok [(1, m1); (2, m2)]
    ∧ (m1 == 100)%Q ∧ (m2 == 50)%Q.
Proof. eexists _, _. split; [by vm_compute|]. by vm_compute. Qed.

Lemma a_case_named_twice_fails_the_closing_check_witness :
  median_percentages ["1abc"; "2xyz"; "1abc"]
    (record_percentages ["1abc"; "2xyz"; "1abc"] three_results)
  = Raise AssertionError.
Proof.
  apply (a_case_named_twice_fails_the_closing_check _ _ 2).
  - decide_it.
  - lia.
  - reflexivity.
  - repeat constructor.
Defined.

Lemma sanitized_prefix_is_clean_witness :
  sanitize_prefix (sanitize_prefix "  run/1.a ") = sanitize_prefix "  run/1.a ".
Proof. apply (sanitized_prefix_is_clean "  run/1.a "). Defined.

(** A prefix with a path separator, a dot and blanks around it. *)
Example sanitized_prefix_of_a_path : sanitize_prefix "  run/1.a " = "run1a".
Proof. reflexivity. Qed.

Lemma script_validates_its_options_witness :
  main all_paths_exist
    {| output_directory_exists := true; opt_expectn := Some 500;
       opt_topx := Some 11; opt_prefix := "run";
       opt_data_extraction_method := "KIC"; opt_dataset := "12_res";
       opt_test_mode := true |}
    [ten_records]
  = Raise AssertionError.
Proof.
  edestruct (script_validates_its_options all_paths_exist
               {| output_directory_exists := true; opt_expectn := Some 500;
                  opt_topx := Some 11; opt_prefix := "run";
                  opt_data_extraction_method := "KIC"; opt_dataset := "12_res";
                  opt_test_mode := true |}
               [ten_records]) as (_ & _ & H).
  edestruct H as (_ & _ & _ & _ & _ & _ & _ & _ & _ & _ & _ & Hlt & _);
    [reflexivity|].
  apply Hlt. reflexivity.
Defined.

(** Without the output directory, with an [expectn] that is not
    positive in test mode, and with a dataset that is not allowed, the
    validation leaves with exit code 1. *)
Example options_that_fail_the_validation :
  parse_arguments
    {| output_directory_exists := false; opt_expectn := Some 500;
       opt_topx := Some 5; opt_prefix := "run";
       opt_data_extraction_method := "KIC"; opt_dataset := "12_res";
       opt_test_mode := false |}
  = Raise (SystemExit 1)
  ∧ parse_arguments
      {| output_directory_exists := true; opt_expectn := Some 0;
         opt_topx := Some 5; opt_prefix := "run";
         opt_data_extraction_method := "KIC"; opt_dataset := "12_res";
         opt_test_mode := true |}
    = Raise (SystemExit 1)
  ∧ parse_arguments
      {| output_directory_exists := true; opt_expectn := Some 500;
         opt_topx := Some 5; opt_prefix := "run";
         opt_data_extraction_method := "KIC"; opt_dataset := "8_res";
         opt_test_mode := false |}
    = Raise (SystemExit 1).
Proof. repeat split. Qed.

(** With the default options and an existing output directory the
    validation passes with 500 expected structures and the Top5. *)
Example default_options :
  parse_arguments
    {| output_directory_exists := true; opt_expectn := Some 500;
       opt_topx := Some 5; opt_prefix := "run";
       opt_data_extraction_method := "KIC"; opt_dataset := "12_res";
       opt_test_mode := false |}
  = Ok ("../input/short_loops.pdbs", 500, 5, "run", false).
Proof. reflexivity. Qed.
